(** * Route optimisation around a station: distance matrix and tour model

    A shallow embedding of [app.py]: the data classes, the batched
    construction of the walking-distance matrix
    ([calculate_distance_matrix]) and the Miller-Tucker-Zemlin integer
    program with its tour extraction ([optimize_route]).

    Numbers that Python holds as floats (distances in metres, solver
    values) are rationals here, and a number stored into the float64
    distance matrix is rounded as the array rounds it ([float64]); the
    external services (the distance matrix client and the MIP solver)
    are arguments of the functions that call them. *)

From Stdlib Require Import ssreflect QArith Lqa Lia List String.
From stdpp Require Import base option list gmap sets.

#[local] Set Warnings "-rewrite-rw,-clear-no-such-hyp".

Local Open Scope nat_scope.
Local Open Scope general_if_scope.

(** ** Outcomes of a call *)

Inductive exn :=
| DistanceError        (* the ValueError raised by calculate_distance_matrix *)
| OptimizationFailed   (* the ValueError raised after model.optimize *)
| IndexError.          (* an index out of range, raised by Python itself *)

Inductive result (A : Type) :=
| Ok (a : A)
| Raise (e : exn)
| Spin.                (* the call never returns *)

Arguments Ok {A} a.
Arguments Raise {A} e.
Arguments Spin {A}.

(** ** Data classes *)

Definition coord := (Q * Q)%type.

Record Location := { lat : Q; lng : Q }.

Definition Location_to_tuple (l : Location) : coord := (lat l, lng l).

Record Place := {
  place_id : string;
  name : string;
  address : string;
  location : Location;
  distance_from_station : option Q
}.

Record Station := { station_name : string; station_location : Location }.

Definition Station_to_tuple (s : Station) : coord :=
  Location_to_tuple (station_location s).

(** Place objects are shared and mutated in place: a list of places is a
    list of references into a store. *)
Definition ref := nat.
Definition store := ref -> Place.

Definition set_distance_from_station (h : store) (r : ref) (v : Q) : store :=
  fun r' =>
    if Nat.eqb r' r then
      {| place_id := place_id (h r); name := name (h r);
         address := address (h r); location := location (h r);
         distance_from_station := Some v |}
    else h r'.

Record Route := {
  station : Station;
  places : list ref;
  total_distance : Q;
  segment_distances : list Q
}.

Definition WALKING_SPEED_KM_H : Q := 4.

Definition estimated_time (r : Route) : Q :=
  ((total_distance r / 1000) / WALKING_SPEED_KM_H * 60)%Q.

(** ** Matrices (numpy arrays of shape (n, n)) *)

(** The entries of a matrix are float64 numbers. *)
Definition matrix := list (list Q).

Definition zeros (rows cols : nat) : matrix := replicate rows (replicate cols 0%Q).

Definition mget (m : matrix) (i j : nat) : option Q :=
  row ← m !! i; row !! j.

(** *** Conversion to float64 *)

(** The integer nearest to a / b, ties to the even one (0 <= a, 0 < b). *)
Definition round_half_even (a b : Z) : Z :=
  let f := (a / b)%Z in
  match (2 * (a mod b) ?= b)%Z with
  | Lt => f
  | Eq => if Z.even f then f else (f + 1)%Z
  | Gt => (f + 1)%Z
  end.

(** floor(log2(a / b)) for positive a and b. *)
Definition floor_log2 (a b : Z) : Z :=
  let e := (Z.log2 a - Z.log2 b)%Z in
  if (if (0 <=? e)%Z then (b * 2 ^ e <=? a)%Z else (b <=? a * 2 ^ (- e))%Z)
  then e else (e - 1)%Z.

(** float(v), as a numpy array of dtype float64 takes a number in: the
    nearest binary64 number, ties to even; an int past the largest float
    raises OverflowError ([None]). A number that is a binary64 number
    already is kept as it is. *)
Definition float64 (v : Q) : option Q :=
  let a := Z.abs (Qnum v) in
  let b := Zpos (Qden v) in
  if (a =? 0)%Z then Some v
  else
    let e := floor_log2 a b in
    let p := (Z.max e (-1022) - 52)%Z in
    let x :=
      if (0 <=? p)%Z then inject_Z (round_half_even a (b * 2 ^ p) * 2 ^ p)
      else Qmake (round_half_even (a * 2 ^ (- p)) b) (Z.to_pos (2 ^ (- p))) in
    if Qle_bool (inject_Z (2 ^ 1024)) x then None
    else
      let x := if (Qnum v <? 0)%Z then Qopp x else x in
      Some (if Qeq_bool x v then v else x).

(** m[i][j] = v: the value is converted to float64 on the way in; an
    index out of range raises. *)
Definition mset (m : matrix) (i j : nat) (v : Q) : option matrix :=
  x ← float64 v;
  row ← m !! i;
  if decide (j < length row) then Some (<[i := <[j := x]> row]> m) else None.

(** ** Python loops and ranges *)

Fixpoint range_aux (fuel start stop step : nat) : list nat :=
  match fuel with
  | O => []
  | S fuel' =>
      if decide (start < stop)
      then start :: range_aux fuel' (start + step) stop step
      else []
  end.

(** range(start, stop, step) for a positive step. *)
Definition range3 (start stop step : nat) : list nat :=
  range_aux stop start stop step.

(** range(start, stop) *)
Definition range (start stop : nat) : list nat := seq start (stop - start).

(** enumerate(l, start) *)
Definition enumerate {A} (start : nat) (l : list A) : list (nat * A) :=
  zip (seq start (length l)) l.

(** l[a:b] *)
Definition slice {A} (l : list A) (a b : nat) : list A := take (b - a) (drop a l).

(** A for loop whose body may raise: the first exception ends the loop. *)
Fixpoint for_each {A S} (l : list A) (body : A -> S -> option S) (s : S) : option S :=
  match l with
  | [] => Some s
  | a :: l' => s' ← body a s; for_each l' body s'
  end.

(** ** The distance matrix service *)

(** One cell of a response: element["status"] and
    element["distance"]["value"], each possibly absent. *)
Record element := { status : option string; distance_value : option Q }.

(** result["rows"][i]["elements"][j]; a missing key is [None]. *)
Definition response := option (list (option (list element))).

(** gmaps.distance_matrix(origins, destinations, ...): the answer may
    depend on how many calls came before; [None] is a raised exception. *)
Definition distance_service := nat -> list coord -> list coord -> option response.

Record world := {
  queries : list (list coord * list coord);  (* block queries issued so far *)
  heap : store
}.

(** State and exceptions: a computation returns [None] when it raised. *)
Definition M (A : Type) := world -> option A * world.

Definition ret {A} (a : A) : M A := fun w => (Some a, w).
Definition bind {A B} (c : M A) (k : A -> M B) : M B :=
  fun w => match c w with
           | (Some a, w') => k a w'
           | (None, w') => (None, w')
           end.
Definition lift {A} (o : option A) : M A := fun w => (o, w).

Declare Scope M_scope.
Delimit Scope M_scope with M.
Notation "'let*' x ':=' c 'in' k" := (bind c (fun x => k))
  (at level 10, x name, c at level 200, k at level 200) : M_scope.

Fixpoint for_eachM {A S} (l : list A) (body : A -> S -> M S) (s : S) : M S :=
  match l with
  | [] => ret s
  | a :: l' => (let* s' := body a s in for_eachM l' body s')%M
  end.

Definition call_distance_matrix (gm : distance_service)
    (origins destinations : list coord) : M response :=
  fun w =>
    (gm (length (queries w)) origins destinations,
     {| queries := queries w ++ [(origins, destinations)]; heap := heap w |}).

Definition SENTINEL : Q := 999999.

Definition read_cell (res : response) (i_local j_local : nat) : option Q :=
  rows ← res;
  row ← rows !! i_local;
  elements ← row;
  el ← elements !! j_local;
  st ← status el;
  if String.eqb st "OK" then distance_value el else Some SENTINEL.

Definition write_cell (res : response) (i : nat * nat) (j : nat * nat)
    (m : matrix) : option matrix :=
  let '(i_local, i_global) := i in
  let '(j_local, j_global) := j in
  if decide (i_global = j_global) then mset m i_global j_global 0%Q
  else v ← read_cell res i_local j_local; mset m i_global j_global v.

Definition fill_block (res : response) (i_start i_end j_start j_end : nat)
    (m : matrix) : option matrix :=
  for_each (enumerate 0 (range i_start i_end))
    (fun i => for_each (enumerate 0 (range j_start j_end)) (write_cell res i)) m.

Definition annotate (m : matrix) (p : nat * ref) (_ : unit) : M unit :=
  let '(idx, place) := p in
  fun w =>
    match mget m 0 idx with
    | Some v =>
        (Some tt,
         {| queries := queries w;
            heap := set_distance_from_station (heap w) place v |})
    | None => (None, w)
    end.

(** The body of calculate_distance_matrix with the batch size as an
    argument; the source fixes it to 25. *)
Definition build_matrix (gm : distance_service) (batch : nat)
    (st : Station) (pl : list ref) : M matrix :=
  fun w0 =>
    let locations :=
      Station_to_tuple st
        :: map (fun r => Location_to_tuple (location (heap w0 r))) pl in
    let num_locations := length locations in
    let distance_matrix := zeros num_locations num_locations in
    (if decide (batch = 0) then lift None
     else
       let* m := for_eachM (range3 0 num_locations batch) (fun i_start m =>
              let i_end := Nat.min (i_start + batch) num_locations in
              let origins_batch := slice locations i_start i_end in
              for_eachM (range3 0 num_locations batch) (fun j_start m =>
                let j_end := Nat.min (j_start + batch) num_locations in
                let destinations_batch := slice locations j_start j_end in
                let* res := call_distance_matrix gm origins_batch destinations_batch in
                lift (fill_block res i_start i_end j_start j_end m)) m)
            distance_matrix in
       let* _ := for_eachM (enumerate 1 pl) (annotate m) tt in
       ret m)%M w0.

Definition BATCH_SIZE : nat := 25.

Definition calculate_distance_matrix (gm : distance_service)
    (st : Station) (pl : list ref) (w : world) : result matrix * world :=
  match build_matrix gm BATCH_SIZE st pl w with
  | (Some m, w') => (Ok m, w')
  | (None, w') => (Raise DistanceError, w')
  end.

(** ** The integer program (python-mip) *)

Inductive var :=
| X (i j : nat)        (* x[i][j] *)
| U (i : nat).         (* u[i] *)

Inductive var_type := BINARY | INTEGER.

Record var_decl := { v_name : var; v_type : var_type; v_lb : Q; v_ub : Q }.

(** A linear expression: the sum of coefficient times variable. *)
Definition lin_expr := list (Q * var).

Inductive sense := EQ | LEQ.

Record constr := { c_lhs : lin_expr; c_sense : sense; c_rhs : Q }.

Record Model := {
  m_vars : list var_decl;
  m_objective : lin_expr;      (* minimised *)
  m_constrs : list constr
}.

Definition assignment := var -> Q.

Definition eval (a : assignment) (e : lin_expr) : Q :=
  foldr (fun t acc => (t.1 * a t.2 + acc)%Q) 0%Q e.

Definition sat_constr (a : assignment) (c : constr) : Prop :=
  match c_sense c with
  | EQ => (eval a (c_lhs c) == c_rhs c)%Q
  | LEQ => (eval a (c_lhs c) <= c_rhs c)%Q
  end.

(** A binary or integer variable takes an integer value. The solver's
    rounding error, which the 0.5 threshold of the extraction tolerates,
    is not modelled. *)
Definition integral (q : Q) : Prop := exists z : Z, (q == inject_Z z)%Q.

Definition sat_var (a : assignment) (d : var_decl) : Prop :=
  (v_lb d <= a (v_name d))%Q /\ (a (v_name d) <= v_ub d)%Q /\ integral (a (v_name d)).

Definition feasible (m : Model) (a : assignment) : Prop :=
  Forall (sat_var a) (m_vars m) /\ Forall (sat_constr a) (m_constrs m).

Inductive OptimizationStatus :=
| ERROR | OPTIMAL | INFEASIBLE | UNBOUNDED | FEASIBLE
| INT_INFEASIBLE | NO_SOLUTION_FOUND | LOADED | CUTOFF | OTHER.

(** What model.optimize leaves behind: the status and the value [.x] of
    every variable. *)
Record solve_outcome := { out_status : OptimizationStatus; out_x : assignment }.

(** model.optimize(max_seconds) *)
Definition solver := Model -> nat -> solve_outcome.

(** The contract of the solver (python-mip, an external library) that
    the code relies on: a solution reported as feasible satisfies the
    model, one reported as optimal also minimises the objective. It is a
    hypothesis of the theorems that need it. *)
Definition solver_contract (m : Model) (o : solve_outcome) : Prop :=
  (out_status o = OPTIMAL ->
     feasible m (out_x o) /\
     forall a, feasible m a ->
       (eval (out_x o) (m_objective m) <= eval a (m_objective m))%Q) /\
  (out_status o = FEASIBLE -> feasible m (out_x o)).

Definition nQ (n : nat) : Q := inject_Z (Z.of_nat n).

Definition x_vars (n : nat) : list var_decl :=
  i ← seq 0 n; j ← seq 0 n;
  [ {| v_name := X i j; v_type := BINARY; v_lb := 0; v_ub := 1 |} ].

Definition u_vars (n : nat) : list var_decl :=
  i ← seq 0 n;
  [ {| v_name := U i; v_type := INTEGER; v_lb := 1; v_ub := nQ n - 1 |} ].

(** mip.xsum(distance_matrix[i][j] * x[i][j] for i ... for j ...) *)
Definition objective_of (n : nat) (d : matrix) : option lin_expr :=
  mapM (fun p : nat * nat => c ← mget d p.1 p.2; Some (c, X p.1 p.2))
       (i ← seq 0 n; j ← seq 0 n; [(i, j)]).

Definition out_degree (n i : nat) : constr :=
  {| c_lhs := j ← seq 0 n; (if decide (i ≠ j) then [(1%Q, X i j)] else []);
     c_sense := EQ; c_rhs := 1 |}.

Definition in_degree (n j : nat) : constr :=
  {| c_lhs := i ← seq 0 n; (if decide (i ≠ j) then [(1%Q, X i j)] else []);
     c_sense := EQ; c_rhs := 1 |}.

(** u[i] - u[j] + n * x[i][j] <= n - 1 *)
Definition mtz (n i j : nat) : constr :=
  {| c_lhs := [(1%Q, U i); ((-1)%Q, U j); (nQ n, X i j)];
     c_sense := LEQ; c_rhs := (nQ n - 1)%Q |}.

Definition constraints_of (n : nat) : list constr :=
  (out_degree n <$> seq 0 n) ++
  (in_degree n <$> seq 0 n) ++
  (i ← range 1 n; j ← range 1 n; (if decide (i ≠ j) then [mtz n i j] else [])).

(** The model built by optimize_route; reading a missing cell of the
    matrix raises IndexError ([None]). *)
Definition tsp_model (d : matrix) : option Model :=
  let n := length d in
  obj ← objective_of n d;
  Some {| m_vars := x_vars n ++ u_vars n;
          m_objective := obj;
          m_constrs := constraints_of n |}.

(** ** Tour extraction and route assembly *)

(** x[current][j].x > 0.5 *)
Definition arc_selected (a : assignment) (i j : nat) : bool :=
  if Qlt_le_dec (1 # 2) (a (X i j)) then true else false.

(** The inner for loop: the first j not yet visited whose arc from
    [current] is selected. *)
Definition next_stop (a : assignment) (n current : nat) (visited : gset nat)
    : option nat :=
  List.find (fun j => bool_decide (j ∉ visited) && arc_selected a current j)
            (seq 0 n).

(** The while loop. When the for loop finds nothing, the state is
    unchanged and the loop never ends. Each turn that finds a stop adds
    a new element to [visited], so [n] turns of fuel are never used up
    (lemma [follow_arcs_fuel]). *)
Fixpoint follow_arcs (fuel : nat) (a : assignment) (n current : nat)
    (visit_order : list nat) (visited : gset nat) : result (list nat) :=
  if decide (size visited < n) then
    match fuel with
    | O => Spin
    | S fuel' =>
        match next_stop a n current visited with
        | Some j =>
            follow_arcs fuel' a n j (visit_order ++ [j]) ({[ j ]} ∪ visited)
        | None => Spin
        end
    end
  else Ok visit_order.

Definition visit_order_of (a : assignment) (n : nat) : result (list nat) :=
  follow_arcs n a n 0 [0] {[ 0 ]}.

(** l[i] for a Python index, which counts from the end when negative. *)
Definition py_get {A} (l : list A) (i : Z) : option A :=
  if decide (0 <= i)%Z then l !! Z.to_nat i
  else if decide (- Z.of_nat (length l) <= i)%Z
       then l !! Z.to_nat (Z.of_nat (length l) + i)
       else None.

(** sum(l) *)
Definition py_sum (l : list Q) : Q := foldl Qplus 0%Q l.

Definition segments_of (d : matrix) (visit_order : list nat) : option (list Q) :=
  legs ← mapM (fun i => a ← visit_order !! i; b ← visit_order !! (i + 1); mget d a b)
              (range 0 (length visit_order - 1));
  l ← py_get visit_order (-1);
  back ← mget d l 0;
  Some (legs ++ [back]).

Definition assemble (st : Station) (pl : list ref) (d : matrix)
    (visit_order : list nat) : result Route :=
  match mapM (fun i => py_get pl (Z.of_nat i - 1)) (drop 1 visit_order) with
  | None => Raise IndexError
  | Some optimized_places =>
      match segments_of d visit_order with
      | None => Raise IndexError
      | Some segs =>
          Ok {| station := st;
                places := optimized_places;
                total_distance := py_sum segs;
                segment_distances := take (length segs - 1) segs |}
      end
  end.

Definition OPTIMIZATION_TIME_LIMIT : nat := 30.

Definition optimize_route (optimize : solver) (st : Station) (pl : list ref)
    (d : matrix) : result Route :=
  let n := length d in
  match tsp_model d with
  | None => Raise IndexError
  | Some model =>
      let o := optimize model OPTIMIZATION_TIME_LIMIT in
      match out_status o with
      | OPTIMAL | FEASIBLE =>
          match visit_order_of (out_x o) n with
          | Ok visit_order => assemble st pl d visit_order
          | Raise e => Raise e
          | Spin => Spin
          end
      | _ => Raise OptimizationFailed
      end
  end.

(** * Vocabulary of the properties *)

(** An n x n matrix. *)
Definition shape (n : nat) (m : matrix) : Prop :=
  length m = n /\ forall i row, m !! i = Some row -> length row = n.

(** A specification of a computation: from a world satisfying [P] it
    either returns a value with [Q] or raises leaving a world with [E]. *)
Definition triple {A} (P : world -> Prop) (c : M A)
    (Q : A -> world -> Prop) (E : world -> Prop) : Prop :=
  forall w, P w ->
    match c w with (Some a, w') => Q a w' | (None, w') => E w' end.

(** An n x n matrix whose diagonal is 0. *)
Definition diag_zero (n : nat) (m : matrix) : Prop :=
  shape n m /\ forall i, i < n -> mget m i i = Some 0%Q.

(** The body of the two block loops of [build_matrix]: one query and the
    cells of its block. *)
Definition block_body (gm : distance_service) (batch : nat)
    (locations : list coord) (i_start j_start : nat) (m : matrix) : M matrix :=
  let num_locations := length locations in
  let i_end := Nat.min (i_start + batch) num_locations in
  let j_end := Nat.min (j_start + batch) num_locations in
  (let* res := call_distance_matrix gm (slice locations i_start i_end)
                 (slice locations j_start j_end) in
   lift (fill_block res i_start i_end j_start j_end m))%M.

(** The two block loops of [build_matrix], on the matrix of zeros. *)
Definition block_loops (gm : distance_service) (batch : nat)
    (locations : list coord) : M matrix :=
  let num_locations := length locations in
  for_eachM (range3 0 num_locations batch) (fun i_start m =>
    for_eachM (range3 0 num_locations batch) (fun j_start m =>
      block_body gm batch locations i_start j_start m) m)
    (zeros num_locations num_locations).

(** The list [locations] of [build_matrix]: the station, then the places. *)
Definition locations_of (st : Station) (pl : list ref) (h : store) : list coord :=
  Station_to_tuple st :: map (fun r => Location_to_tuple (location (h r))) pl.

(** Position [j] holds the last occurrence of its reference. *)
Definition last_occurrence (ps : list (nat * ref)) (j : nat) (r : ref) : Prop :=
  forall j' p, j < j' -> ps !! j' = Some p -> p.2 <> r.

(** The store [h] after the annotation loop over [ps], started from [h0]:
    each place carries the distance written by its last occurrence, and
    no location has changed. *)
Definition annotated (m : matrix) (ps : list (nat * ref)) (h0 h : store) : Prop :=
  (forall j idx r, ps !! j = Some (idx, r) -> last_occurrence ps j r ->
     distance_from_station (h r) = mget m 0 idx) /\
  (forall r, location (h r) = location (h0 r)).

(** What the code stores for an element it reads. *)
Definition cell_value (el : element) : option Q :=
  st ← status el;
  if String.eqb st "OK" then distance_value el else Some SENTINEL.

(** A service whose answer for a pair of coordinates does not depend on
    the block the pair is queried in. *)
Definition service_of_cells (cell : coord -> coord -> element) : distance_service :=
  fun _ origins destinations =>
    Some (Some (map (fun o => Some (map (cell o) destinations)) origins)).

(** The cell [i], [j] of the matrix, as the per-cell answers determine it:
    the value read for the pair, as a float64 number. *)
Definition expected (cell : coord -> coord -> element) (locations : list coord)
    (i j : nat) : option Q :=
  if decide (i = j) then Some 0%Q
  else o ← locations !! i; d ← locations !! j; v ← cell_value (cell o d); float64 v.

(** ceil(n / b) *)
Definition ceil_div (n b : nat) : nat := (n + b - 1) / b.

(** Some answer off the diagonal cannot be read, or holds a number too
    large for the float64 matrix. *)
Definition unreadable (cell : coord -> coord -> element)
    (locations : list coord) : Prop :=
  exists i j, i < length locations /\ j < length locations /\ i <> j /\
    expected cell locations i j = None.

(** The cells in [C] hold their expected values. *)
Definition agrees (cell : coord -> coord -> element) (locations : list coord)
    (C : nat -> nat -> Prop) (m : matrix) : Prop :=
  shape (length locations) m /\
  forall i j, C i j -> i < length locations -> j < length locations ->
    mget m i j = expected cell locations i j.

(** The sum of [f x] over the elements [x] of [l]. *)
Definition sumQ {A} (f : A -> Q) (l : list A) : Q :=
  foldr (fun x acc => (f x + acc)%Q) 0%Q l.

Arguments sumQ : simpl never.

(** The left-hand side of a degree constraint: the values of the arcs
    [arc k] over all k < n other than [skip]. *)
Definition degree_sum (a : assignment) (n : nat) (arc : nat -> var) (skip : nat) : Q :=
  sumQ (fun k => if decide (k ≠ skip) then a (arc k) else 0%Q) (seq 0 n).

(** What the model of [tsp_model] asks of an assignment, constraint by
    constraint: binary arcs, bounded integral orders, one arc out of and
    one arc into every location, and the Miller-Tucker-Zemlin
    inequalities among the locations other than 0. *)
Definition tsp_feasible (n : nat) (a : assignment) : Prop :=
  (forall i j, i < n -> j < n -> (a (X i j) == 0 \/ a (X i j) == 1)%Q) /\
  (forall i, i < n ->
     (1 <= a (U i))%Q /\ (a (U i) <= nQ n - 1)%Q /\ integral (a (U i))) /\
  (forall i, i < n -> (degree_sum a n (fun j => X i j) i == 1)%Q) /\
  (forall j, j < n -> (degree_sum a n (fun i => X i j) j == 1)%Q) /\
  (forall i j, 1 <= i < n -> 1 <= j < n -> i <> j ->
     (a (U i) - a (U j) + nQ n * a (X i j) <= nQ n - 1)%Q).

(** The pairs of neighbours of a visiting order are selected arcs. *)
Definition follows_arcs (a : assignment) (vo : list nat) : Prop :=
  forall k x y, vo !! k = Some x -> vo !! S k = Some y ->
    arc_selected a x y = true.

(** The invariant of the while loop of the extraction. *)
Record visiting (a : assignment) (n current : nat) (vo : list nat) : Prop := {
  visiting_nodup : NoDup vo;
  visiting_head : head vo = Some 0;
  visiting_last : last vo = Some current;
  visiting_bound : forall x, x ∈ vo -> x < n;
  visiting_arcs : follows_arcs a vo
}.

(** The statuses after which optimize_route goes on. *)
Definition accepted (s : OptimizationStatus) : Prop := s = OPTIMAL \/ s = FEASIBLE.

(** The location after each one on the cycle: the list rotated by one. *)
Definition successors (p : list nat) : list nat := drop 1 p ++ take 1 p.

(** The arcs of the cycle, the closing one included. *)
Definition arcs (p : list nat) : list (nat * nat) := zip p (successors p).

(** distance_matrix[i][j] *)
Definition dist (d : matrix) (i j : nat) : Q := default 0%Q (mget d i j).

(** The sum of the distances along the arcs of the cycle. *)
Definition cycle_cost (d : matrix) (p : list nat) : Q :=
  sumQ (fun e => dist d e.1 e.2) (arcs p).

(** A Hamiltonian cycle through the n locations, written from any of its
    locations. *)
Definition hamiltonian_cycle (n : nat) (p : list nat) : Prop := p ≡ₚ seq 0 n.

(** The index pairs of the objective, in the order of its generator. *)
Definition all_pairs (n : nat) : list (nat * nat) :=
  i ← seq 0 n; j ← seq 0 n; [(i, j)].

(** The value of the objective of [tsp_model] under an assignment. *)
Definition objective_value (d : matrix) (n : nat) (a : assignment) : Q :=
  sumQ (fun e => (dist d e.1 e.2 * a (X e.1 e.2))%Q) (all_pairs n).

(** The first position of [x] in [l]. *)
Fixpoint index_of (x : nat) (l : list nat) : nat :=
  match l with
  | [] => 0
  | y :: l' => if decide (x = y) then 0 else S (index_of x l')
  end.

(** The assignment that selects exactly the arcs of the cycle [p] and
    numbers the locations by their position on it. *)
Definition tour_assignment (p : list nat) : assignment := fun v =>
  match v with
  | X i j => if decide ((i, j) ∈ arcs p) then 1%Q else 0%Q
  | U i => if decide (i = 0) then 1%Q else nQ (index_of i p)
  end.

(** The leg from location [i] to location [j] is one that can be walked:
    it leads nowhere ([i = j]) or the service answered it with status OK. *)
Definition reachable (cell : coord -> coord -> element) (locations : list coord)
    (i j : nat) : Prop :=
  i = j \/
  exists o d, locations !! i = Some o /\ locations !! j = Some d /\
              status (cell o d) = Some "OK"%string.

(** The block query of the loops at [i_start] and [j_start]. *)
Definition query_at (batch : nat) (locations : list coord)
    (i_start j_start : nat) : list coord * list coord :=
  (slice locations i_start (Nat.min (i_start + batch) (length locations)),
   slice locations j_start (Nat.min (j_start + batch) (length locations))).

(** * Concrete inputs *)

(** The station of the runs below. *)
Definition ex_station : Station :=
  {| station_name := "Kanayama"; station_location := {| lat := 0; lng := 0 |} |}.

(** The place with reference r lies at latitude r. *)
Definition ex_store : store := fun r =>
  {| place_id := "id"; name := "shop"; address := "street";
     location := {| lat := nQ r; lng := 0 |};
     distance_from_station := None |}.

(** No query issued yet. *)
Definition ex_world : world := {| queries := []; heap := ex_store |}.

(** Every pair is walkable, and the service reports a non-zero distance
    from a point to itself. *)
Definition ex_cell (o d : coord) : element :=
  {| status := Some "OK"%string; distance_value := Some (100 * (o.1 + d.1) + 7)%Q |}.

(** A service that is down. *)
Definition ex_down : distance_service := fun _ _ _ => None.

(** A long leg northwards; no route southwards. *)
Definition ex_far_cell (o d : coord) : element :=
  if Qle_bool o.1 d.1
  then {| status := Some "OK"%string; distance_value := Some 2000000%Q |}
  else {| status := Some "ZERO_RESULTS"%string; distance_value := None |}.

(** Every leg takes 100 m, but there is no way from the place at
    latitude 2 to the place at latitude 1. *)
Definition ex_oneway_cell (o d : coord) : element :=
  if Qeq_bool o.1 2 && Qeq_bool d.1 1
  then {| status := Some "ZERO_RESULTS"%string; distance_value := None |}
  else {| status := Some "OK"%string; distance_value := Some 100%Q |}.

(** The matrix of test_mip.py. *)
Definition ex_d3 : matrix := [[0; 100; 200]; [100; 0; 150]; [200; 150; 0]]%Q.

(** A solver that answers with a given tour, reported as optimal. *)
Definition tour_solver (p : list nat) : solver := fun _ _ =>
  {| out_status := OPTIMAL; out_x := tour_assignment p |}.

(** Two locations whose legs differ by direction. *)
Definition ex_d2 : matrix := [[0; 100]; [150; 0]]%Q.

(** * The page: searching, tabulating and linking *)

(** ** Searching the places *)

(** One entry of the "results" of a nearby search: geometry.location
    with its lat and lng, place_id, name and vicinity, each possibly
    absent. *)
Record place_data := {
  pd_location : option (option Q * option Q);
  pd_place_id : option string;
  pd_name : option string;
  pd_vicinity : option string
}.

(** gmaps.places_nearby(location, keyword, ...): [None] when the call
    raises, [Some None] for a response without "results". *)
Definition places_service := coord -> string -> option (option (list place_data)).

(** The address of a place without vicinity. *)
Definition NO_ADDRESS : string := "住所情報なし".

(** l[:k] for a Python index. *)
Definition py_take {A} (l : list A) (k : Z) : list A :=
  if decide (0 <= k)%Z then take (Z.to_nat k) l
  else take (length l - Z.to_nat (- k)) l.

(** The body of the for loop: one Place from one entry; a missing key
    raises ([None]). *)
Definition make_place (pd : place_data) : option Place :=
  location_data ← pd_location pd;
  la ← location_data.1;
  ln ← location_data.2;
  id ← pd_place_id pd;
  nm ← pd_name pd;
  Some {| place_id := id; name := nm;
          address := default NO_ADDRESS (pd_vicinity pd);
          location := {| lat := la; lng := ln |};
          distance_from_station := None |}.

(** search_nearby_places; [None] is the ValueError that it raises for
    every failure. *)
Definition search_nearby_places (gm : places_service) (st : Station)
    (keyword : string) (max_results : Z) : option (list Place) :=
  result ← gm (Station_to_tuple st) keyword;
  results ← result;
  if decide (results = []) then None
  else mapM make_place (py_take results max_results).

(** ** The route table *)

(** One row of the table: visiting number, name of the shop, distance
    from the previous stop and distance walked so far. The page prints
    the two distances rounded, with a unit; the numbers are kept here. *)
Record table_row := {
  visit_no : nat;
  shop_name : string;
  from_previous : Q;
  cumulative : Q
}.

(** The loop that fills route_data; reading segment_distances out of
    range raises IndexError ([None]). *)
Definition route_table (h : store) (r : Route) : option (list table_row) :=
  st ← for_each (enumerate 1 (places r))
         (fun p st =>
            segment_dist ← py_get (segment_distances r) (Z.of_nat p.1 - 1);
            let cumulative_distance := (st.1 + segment_dist)%Q in
            Some (cumulative_distance,
                  st.2 ++ [ {| visit_no := p.1;
                               shop_name := name (h p.2);
                               from_previous := segment_dist;
                               cumulative := cumulative_distance |} ]))
         (0%Q, []);
  Some st.2.

(** ** The link to the map *)

Definition TRAVEL_MODE : string := "walking".

(** sep.join(l) *)
Fixpoint str_join (sep : string) (l : list string) : string :=
  match l with
  | [] => EmptyString
  | x :: l' =>
      match l' with
      | [] => x
      | _ :: _ => (x ++ sep ++ str_join sep l')%string
      end
  end.

Section maps_url.
(** How an f-string prints a float. *)
Variable float_str : Q -> string.

(** f"{location.lat},{location.lng}" *)
Definition coord_str (l : Location) : string :=
  (float_str (lat l) ++ "," ++ float_str (lng l))%string.

Definition generate_google_maps_url (h : store) (st : Station)
    (pl : list ref) (route_order : option (list ref)) : string :=
  let origin := coord_str (station_location st) in
  let place_str (p : ref) := coord_str (location (h p)) in
  let '(waypoints, destination) :=
    match route_order with
    | Some (p :: ro) => (str_join "|" (place_str <$> p :: ro), origin)
    | _ =>
        match last pl with
        | Some p => (str_join "|" (place_str <$> removelast pl), place_str p)
        | None => (EmptyString, origin)
        end
    end in
  let base_url := "https://www.google.com/maps/dir/"%string in
  match waypoints with
  | EmptyString =>
      (base_url ++ "?api=1&origin=" ++ origin ++ "&destination=" ++ destination
       ++ "&travelmode=" ++ TRAVEL_MODE)%string
  | _ =>
      (base_url ++ "?api=1&origin=" ++ origin ++ "&destination=" ++ destination
       ++ "&waypoints=" ++ waypoints ++ "&travelmode=" ++ TRAVEL_MODE)%string
  end.
End maps_url.

(** * Rotating a tour to start at the station (test_python_tsp.py) *)

(** permutation.index(x): the position of the first x, ValueError
    ([None]) when there is none. *)
Definition py_index (x : nat) (l : list nat) : option nat :=
  if decide (x ∈ l) then Some (index_of x l) else None.

(** The three lines that turn the solver's permutation into a visiting
    order that starts at the station and returns to it. *)
Definition rotate_to_station (permutation : list nat) : option (list nat) :=
  station_idx ← py_index 0 permutation;
  let visit_order := drop station_idx permutation ++ take station_idx permutation in
  Some (visit_order ++ [0]).

(** * Vocabulary of the further properties *)

(** One block query respects the limit of the service: between 1 and
    [batch] origins, and as many destinations. *)
Definition within_limit (batch : nat) (q : list coord * list coord) : Prop :=
  1 <= length q.1 <= batch /\ 1 <= length q.2 <= batch.

(** The queries [new], issued from call number [base] on, were answered. *)
Definition answered (gm : distance_service) (base : nat)
    (new : list (list coord * list coord)) : Prop :=
  forall k q, new !! k = Some q -> is_Some (gm (base + k) q.1 q.2).

(** The log of a run that started with the queries [q0]: what was added
    respects the limit, and every added query was answered, but possibly
    the last when [strict] is false. *)
Definition log_ok (gm : distance_service) (batch : nat)
    (q0 : list (list coord * list coord)) (strict : bool) (w : world) : Prop :=
  exists new,
    queries w = q0 ++ new /\
    Forall (within_limit batch) new /\
    answered gm (length q0) (if strict then new else removelast new).

(** What the table holds when it is built. *)
Definition table_of (h : store) (r : Route) (rows : list table_row) : Prop :=
  length rows = length (places r) /\
  forall k row, rows !! k = Some row ->
    visit_no row = S k /\
    (exists place, places r !! k = Some place /\ shop_name row = name (h place)) /\
    segment_distances r !! k = Some (from_previous row) /\
    (cumulative row == sumQ (fun x => x) (take (S k) (segment_distances r)))%Q.

(** The sum of the distances between neighbours of a path. *)
Definition path_cost (d : matrix) (l : list nat) : Q :=
  sumQ (fun e => dist d e.1 e.2) (zip l (drop 1 l)).

(** The store [h] differs from [h0] at most in the distance_from_station
    of the places of [pl]. *)
Definition only_distances_written (pl : list ref) (h0 h : store) : Prop :=
  forall r,
    place_id (h r) = place_id (h0 r) /\ name (h r) = name (h0 r) /\
    address (h r) = address (h0 r) /\ location (h r) = location (h0 r) /\
    (r ∉ pl -> h r = h0 r).

(** * Further concrete inputs *)

Definition ex_shop (n : string) (v : option string) : place_data :=
  {| pd_location := Some (Some 35.68%Q, Some 139.76%Q); pd_place_id := Some n;
     pd_name := Some n; pd_vicinity := v |}.

Definition ex_broken_shop : place_data :=
  {| pd_location := None; pd_place_id := None; pd_name := None;
     pd_vicinity := None |}.

Definition ex_places_service : places_service :=
  fun _ _ => Some (Some [ex_shop "a" (Some "x"%string); ex_shop "b" None; ex_broken_shop]).

(** * Properties of the distance matrix builder *)

(** ** Matrices *)

Lemma shape_zeros n : shape n (zeros n n).
Proof.
  split; [apply length_replicate|].
  intros i row [-> _]%lookup_replicate. apply length_replicate.
Qed.

Lemma mget_zeros n i j : i < n -> j < n -> mget (zeros n n) i j = Some 0%Q.
Proof.
  intros Hi Hj. unfold mget, zeros.
  rewrite lookup_replicate_2 //=. by rewrite lookup_replicate_2.
Qed.

Lemma mget_lt n m i j : shape n m -> i < n -> j < n -> is_Some (mget m i j).
Proof.
  intros [Hlen Hrows] Hi Hj. unfold mget.
  destruct (lookup_lt_is_Some_2 m i) as [row Hrow]; [lia|].
  rewrite Hrow /=. apply lookup_lt_is_Some_2. rewrite (Hrows _ _ Hrow). lia.
Qed.

Lemma mget_Some_lt n m i j v : shape n m -> mget m i j = Some v -> i < n /\ j < n.
Proof.
  intros [Hlen Hrows]. unfold mget.
  destruct (m !! i) as [row|] eqn:Hrow; simpl; [|done].
  intros Hj. apply Hrows in Hrow as Hn.
  apply lookup_lt_Some in Hrow, Hj. lia.
Qed.

Lemma round_half_even_1 c : round_half_even c 1 = c.
Proof. by rewrite /round_half_even Z.mod_1_r Z.div_1_r. Qed.

Lemma floor_log2_int a : (0 < a)%Z -> floor_log2 a 1 = Z.log2 a.
Proof.
  intros Ha. rewrite /floor_log2 /= Z.sub_0_r.
  pose proof (Z.log2_nonneg a) as Hnn. pose proof (Z.log2_spec a Ha) as [Hlo _].
  destruct (Z.leb_spec 0 (Z.log2 a)) as [_|]; [|lia].
  destruct (Z.leb_spec (1 * 2 ^ Z.log2 a) a) as [|]; [done|lia].
Qed.

(** An integer of magnitude at most 2^53 is a float64 number. *)
Lemma float64_int z :
  (Z.abs z <= 2 ^ 53)%Z -> float64 (inject_Z z) = Some (inject_Z z).
Proof.
  intros Hz. unfold float64. cbn [Qnum Qden inject_Z].
  destruct (Z.eqb_spec (Z.abs z) 0) as [|Hnz]; [done|].
  assert (0 < Z.abs z)%Z as Ha by lia.
  rewrite floor_log2_int //.
  pose proof (Z.log2_nonneg (Z.abs z)) as Hnn.
  pose proof (Z.log2_spec _ Ha) as [Hlo Hhi].
  assert (Z.log2 (Z.abs z) <= 53)%Z as He.
  { rewrite -(Z.log2_pow2 53) //. by apply Z.log2_le_mono. }
  rewrite Z.max_l; [lia|].
  set (e := Z.log2 (Z.abs z)) in *.
  set (x := if (0 <=? e - 52)%Z then _ else _).
  assert (x == inject_Z (Z.abs z))%Q as Hx.
  { subst x. destruct (Z.leb_spec 0 (e - 52)) as [Hp|Hp].
    - assert (e = 52 \/ e = 53)%Z as [->| ->] by lia.
      + by rewrite /= round_half_even_1 Z.mul_1_r.
      + assert (Z.abs z = 2 ^ 53)%Z as -> by lia. done.
    - rewrite round_half_even_1 /Qeq /=.
      rewrite Z2Pos.id; [apply Z.pow_pos_nonneg; lia|]. lia. }
  assert (Qle_bool (inject_Z (2 ^ 1024)) x = false) as ->.
  { apply not_true_is_false. rewrite Qle_bool_iff Hx -Zle_Qle.
    assert (2 ^ 53 < 2 ^ 1024)%Z; [|lia]. by apply Z.pow_lt_mono_r. }
  assert (Qeq_bool (if (z <? 0)%Z then (- x)%Q else x) (inject_Z z) = true) as ->;
    [|done].
  apply Qeq_bool_iff. destruct (Z.ltb_spec z 0).
  - rewrite Hx. rewrite Z.abs_neq; [lia|]. by rewrite inject_Z_opp Qopp_opp.
  - rewrite Hx. by rewrite Z.abs_eq.
Qed.

Lemma float64_0 : float64 0 = Some 0%Q.
Proof. reflexivity. Qed.

Lemma float64_SENTINEL : float64 SENTINEL = Some SENTINEL.
Proof. by vm_compute. Qed.

Lemma mset_spec n m i j v x :
  float64 v = Some x -> shape n m -> i < n -> j < n ->
  exists m', mset m i j v = Some m' /\ shape n m' /\
    forall a b, mget m' a b = if decide (a = i /\ b = j) then Some x else mget m a b.
Proof.
  intros Hx [Hlen Hrows] Hi Hj. rewrite /mset Hx /=.
  destruct (lookup_lt_is_Some_2 m i) as [row Hrow]; [lia|].
  rewrite Hrow /=. pose proof (Hrows _ _ Hrow) as Hn.
  rewrite decide_True; [lia|]. eexists; split; [done|]. split.
  - split; [by rewrite length_insert|].
    intros a r. destruct (decide (a = i)) as [->|Hne].
    + rewrite list_lookup_insert_eq; [lia|]. intros [= <-].
      by rewrite length_insert.
    + rewrite list_lookup_insert_ne; [done|]. apply Hrows.
  - intros a b. unfold mget. destruct (decide (a = i)) as [->|Hne].
    + rewrite list_lookup_insert_eq; [lia|]. rewrite Hrow /=.
      destruct (decide (b = j)) as [->|Hb].
      * rewrite decide_True //. rewrite list_lookup_insert_eq //. lia.
      * rewrite decide_False; [by intros [_ ?]|].
        by rewrite list_lookup_insert_ne.
    + rewrite list_lookup_insert_ne; [done|].
      rewrite decide_False; [by intros [? _]|]. done.
Qed.

Lemma mset_inv n m i j v m' :
  shape n m -> mset m i j v = Some m' ->
  exists x, float64 v = Some x /\ i < n /\ j < n /\ shape n m' /\
  forall a b, mget m' a b = if decide (a = i /\ b = j) then Some x else mget m a b.
Proof.
  intros Hs Hset.
  destruct (float64 v) as [x|] eqn:Hx; [|by rewrite /mset Hx in Hset].
  exists x. split; [done|]. assert (i < n /\ j < n) as [Hi Hj].
  { destruct Hs as [Hlen Hrows]. rewrite /mset Hx /= in Hset.
    destruct (m !! i) as [row|] eqn:Hrow; simpl in Hset; [|done].
    case_decide; [|done]. apply Hrows in Hrow as Hn.
    apply lookup_lt_Some in Hrow. lia. }
  destruct (mset_spec n m i j v x Hx Hs Hi Hj) as (m2 & Hm2 & Hs2 & Hget).
  assert (m2 = m') as -> by congruence. done.
Qed.

Lemma matrix_ext n (m1 m2 : matrix) :
  shape n m1 -> shape n m2 ->
  (forall i j, i < n -> j < n -> mget m1 i j = mget m2 i j) -> m1 = m2.
Proof.
  intros [L1 R1] [L2 R2] Heq.
  apply (list_eq_same_length _ _ n L2 L1).
  intros i r1 r2 Hi Hr1 Hr2.
  apply (list_eq_same_length _ _ n (R2 _ _ Hr2) (R1 _ _ Hr1)).
  intros j x y Hj Hx Hy. specialize (Heq i j Hi Hj).
  unfold mget in Heq. rewrite Hr1 Hr2 /= Hx Hy in Heq. congruence.
Qed.

(** ** Loops *)

(** A loop invariant indexed by the part of the list already processed;
    [E] holds whenever the body raises. *)
Lemma for_each_spec {A S} (I : list A -> S -> Prop) (E : Prop)
    (l : list A) (body : A -> S -> option S) (s : S) :
  (forall pre a post s, l = pre ++ a :: post -> I pre s ->
     match body a s with Some s' => I (pre ++ [a]) s' | None => E end) ->
  I [] s ->
  match for_each l body s with Some s' => I l s' | None => E end.
Proof.
  revert I s. induction l as [|a l IH]; intros I s Hbody Hs; simpl; [done|].
  pose proof (Hbody [] a l s eq_refl Hs) as Ha.
  destruct (body a s) as [s'|]; simpl; [|done].
  apply (IH (fun pre => I (a :: pre))); [|done].
  intros pre b post t -> Ht. by apply (Hbody (a :: pre) b post t).
Qed.

Lemma triple_ret {A} (Q : A -> world -> Prop) E a : triple (Q a) (ret a) Q E.
Proof. by intros w Hw. Qed.

Lemma triple_bind {A B} P (c : M A) (R : A -> world -> Prop)
    (k : A -> M B) Q E :
  triple P c R E -> (forall a, triple (R a) (k a) Q E) ->
  triple P (bind c k) Q E.
Proof.
  intros Hc Hk w Hw. unfold bind. specialize (Hc w Hw).
  destruct (c w) as [[a|] w']; [|done]. by apply Hk.
Qed.

Lemma triple_for_eachM {A S} (I : list A -> S -> world -> Prop) E
    (l : list A) (body : A -> S -> M S) (s : S) :
  (forall pre a post s, l = pre ++ a :: post ->
     triple (I pre s) (body a s) (I (pre ++ [a])) E) ->
  triple (I [] s) (for_eachM l body s) (I l) E.
Proof.
  revert I s. induction l as [|a l IH]; intros I s Hbody; simpl.
  { apply triple_ret. }
  eapply triple_bind; [by apply (Hbody [] a l)|].
  intros s'. apply (IH (fun pre => I (a :: pre))).
  intros pre b post t ->. by apply (Hbody (a :: pre) b post t).
Qed.

Lemma triple_weaken {A} (P P' : world -> Prop) (c : M A)
    (Q Q' : A -> world -> Prop) (E E' : world -> Prop) :
  triple P' c Q' E' ->
  (forall w, P w -> P' w) -> (forall a w, Q' a w -> Q a w) ->
  (forall w, E' w -> E w) -> triple P c Q E.
Proof.
  intros Hc HP HQ HE w Hw. specialize (Hc w (HP w Hw)).
  destruct (c w) as [[a|] w']; auto.
Qed.

Lemma triple_lift {A} (P : world -> Prop) (o : option A) :
  triple P (lift o) (fun a w => o = Some a /\ P w) P.
Proof. intros w Hw. unfold lift. by destruct o. Qed.

Lemma triple_call gm origins destinations h q :
  triple (fun w => heap w = h /\ length (queries w) = q)
    (call_distance_matrix gm origins destinations)
    (fun res w => gm q origins destinations = Some res /\
                  heap w = h /\ length (queries w) = S q)
    (fun w => heap w = h).
Proof.
  intros w [Hh Hq]. unfold call_distance_matrix. rewrite Hq.
  destruct (gm q origins destinations); simpl; [|done].
  rewrite length_app /=. split; [done|]. split; [done|lia].
Qed.

Lemma enumerate_lookup {A} (s : nat) (l : list A) k p :
  enumerate s l !! k = Some p <-> p.1 = s + k /\ l !! k = Some p.2.
Proof.
  unfold enumerate. destruct p as [a x]. simpl.
  rewrite lookup_zip_with_Some. split.
  - intros (a' & x' & [= <- <-] & [-> _]%lookup_seq & Hx). done.
  - intros [-> Hx]. exists (s + k), x. split; [done|]. split; [|done].
    apply lookup_seq. split; [done|]. by eapply lookup_lt_Some.
Qed.

Lemma enumerate_elem_of {A} (s : nat) (l : list A) a x :
  (a, x) ∈ enumerate s l <-> s <= a /\ l !! (a - s) = Some x.
Proof.
  rewrite list_elem_of_lookup. split.
  - intros [k [Hk1 Hk2]%enumerate_lookup]. simpl in *. subst a.
    split; [lia|]. by replace (s + k - s) with k by lia.
  - intros [Hle Hx]. exists (a - s). apply enumerate_lookup. simpl.
    split; [lia|done].
Qed.

Lemma range_lookup a b k x : range a b !! k = Some x <-> x = a + k /\ x < b.
Proof.
  unfold range. rewrite lookup_seq. split; intros [-> ?]; split; lia.
Qed.

Lemma enumerate_range_elem_of a b il ig :
  (il, ig) ∈ enumerate 0 (range a b) <-> ig = a + il /\ ig < b.
Proof.
  rewrite enumerate_elem_of range_lookup. split.
  - intros [_ [-> ?]]. split; [lia|done].
  - intros [-> ?]. split; [lia|]. split; [lia|done].
Qed.

Lemma elem_of_middle {A} (l pre post : list A) a : l = pre ++ a :: post -> a ∈ l.
Proof. intros ->. apply elem_of_app. right. apply list_elem_of_here. Qed.

(** ** The diagonal *)

Lemma write_cell_diag n res i j m m' :
  diag_zero n m -> write_cell res i j m = Some m' -> diag_zero n m'.
Proof.
  intros [Hs Hd]. destruct i as [il ig], j as [jl jg]. unfold write_cell.
  case_decide as Heq.
  - subst jg. intros (x & Hx & _ & _ & Hs' & Hget)%(mset_inv n); [|done].
    rewrite float64_0 in Hx. injection Hx as <-.
    split; [done|]. intros i Hi. rewrite Hget. case_decide; [done|by apply Hd].
  - destruct (read_cell res il jl) as [v|]; simpl; [|done].
    intros (x & _ & _ & _ & Hs' & Hget)%(mset_inv n); [|done].
    split; [done|]. intros i Hi. rewrite Hget.
    case_decide as Hij; [|by apply Hd]. destruct Hij; congruence.
Qed.

Lemma fill_block_diag n res i_start i_end j_start j_end m m' :
  diag_zero n m -> fill_block res i_start i_end j_start j_end m = Some m' ->
  diag_zero n m'.
Proof.
  intros Hd Hfill. unfold fill_block in Hfill.
  pose proof (for_each_spec (fun _ => diag_zero n) True
    (enumerate 0 (range i_start i_end))
    (fun i => for_each (enumerate 0 (range j_start j_end)) (write_cell res i)) m)
    as Hloop.
  rewrite Hfill in Hloop. apply Hloop; [|done].
  intros _ i _ s _ Hs.
  pose proof (for_each_spec (fun _ => diag_zero n) True
    (enumerate 0 (range j_start j_end)) (write_cell res i) s) as Hrow.
  destruct (for_each _ (write_cell res i) s) as [s'|]; [|done].
  apply Hrow; [|done].
  intros _ j _ t _ Ht. destruct (write_cell res i j t) eqn:Hw; [|done].
  by eapply write_cell_diag.
Qed.

(** ** The block loops, for an arbitrary service *)

Lemma build_matrix_unfold gm batch st pl w :
  build_matrix gm batch st pl w =
  (if decide (batch = 0) then lift None
   else
     let* m := block_loops gm batch (locations_of st pl (heap w)) in
     let* _ := for_eachM (enumerate 1 pl) (annotate m) tt in
     ret m)%M w.
Proof. reflexivity. Qed.

Lemma length_locations_of st pl h : length (locations_of st pl h) = S (length pl).
Proof. by rewrite /locations_of /= length_map. Qed.

Lemma block_body_diag gm batch locations i_start j_start m h :
  triple (fun w => diag_zero (length locations) m /\ heap w = h)
    (block_body gm batch locations i_start j_start m)
    (fun m' w => diag_zero (length locations) m' /\ heap w = h)
    (fun w => heap w = h).
Proof.
  intros w [Hd Hh]. unfold block_body, bind.
  pose proof (triple_call gm
    (slice locations i_start (Nat.min (i_start + batch) (length locations)))
    (slice locations j_start (Nat.min (j_start + batch) (length locations)))
    h (length (queries w)) w (conj Hh eq_refl)) as Hcall.
  destruct (call_distance_matrix _ _ _ w) as [[res|] w1]; [|done].
  destruct Hcall as (_ & Hh1 & _). unfold lift.
  destruct (fill_block _ _ _ _ _ m) as [m'|] eqn:Hfill; [|done].
  split; [|done]. by eapply fill_block_diag.
Qed.

Lemma block_loops_diag gm batch locations h :
  triple (fun w => heap w = h) (block_loops gm batch locations)
    (fun m w => diag_zero (length locations) m /\ heap w = h)
    (fun w => heap w = h).
Proof.
  unfold block_loops. set (n := length locations).
  eapply triple_weaken;
    [apply (triple_for_eachM
              (fun _ m w => diag_zero n m /\ heap w = h) (fun w => heap w = h))
    | | by intros | by intros].
  - intros _ i_start _ m _.
    eapply triple_weaken;
      [apply (triple_for_eachM
                (fun _ m w => diag_zero n m /\ heap w = h) (fun w => heap w = h))
      | by intros | by intros | by intros].
    intros _ j_start _ m' _. apply block_body_diag.
  - intros w Hw. split; [|done]. split; [apply shape_zeros|].
    intros i Hi. by apply mget_zeros.
Qed.

(** ** The annotation loop *)

Lemma annotate_loop n m (pl : list ref) h0 q :
  shape n m -> n = S (length pl) ->
  triple (fun w => heap w = h0 /\ queries w = q)
    (for_eachM (enumerate 1 pl) (annotate m) tt)
    (fun _ w => annotated m (enumerate 1 pl) h0 (heap w) /\ queries w = q)
    (fun _ => False).
Proof.
  intros Hs Hn.
  eapply triple_weaken;
    [apply (triple_for_eachM
              (fun pre _ w => annotated m pre h0 (heap w) /\ queries w = q)
              (fun _ => False))
    | | by intros | by intros].
  - intros pre [idx r] post [] Hl w [[Hann Hloc] Hq]. unfold annotate.
    apply elem_of_middle, enumerate_elem_of in Hl as [Hle Hidx].
    apply lookup_lt_Some in Hidx.
    destruct (mget_lt n m 0 idx Hs) as [v Hv]; [lia..|].
    rewrite Hv /=. split; [|done]. split.
    + intros j idx' r' Hj Hlast.
      destruct (decide (j = length pre)) as [->|Hne].
      * rewrite lookup_app_r // Nat.sub_diag /= in Hj.
        injection Hj as <- <-.
        by rewrite /set_distance_from_station Nat.eqb_refl /=.
      * assert (j < length pre) as Hlt.
        { apply lookup_lt_Some in Hj. rewrite length_app /= in Hj. lia. }
        rewrite lookup_app_l // in Hj.
        assert (r <> r') as Hr.
        { apply (Hlast (length pre) (idx, r)); [done|].
          by rewrite lookup_app_r // Nat.sub_diag. }
        rewrite /set_distance_from_station.
        destruct (Nat.eqb_spec r' r) as [->|_]; [done|].
        apply (Hann j); [done|].
        intros j' p Hjj' Hp. apply (Hlast j' p Hjj').
        rewrite lookup_app_l //. by eapply lookup_lt_Some.
    + intros r'. rewrite /set_distance_from_station.
      destruct (Nat.eqb_spec r' r) as [->|_]; simpl; by rewrite Hloc.
  - intros w [-> ->]. split; [|done]. split; [|done].
    intros j idx r Hj. by rewrite lookup_nil in Hj.
Qed.

Lemma build_matrix_generic gm batch st pl h :
  triple (fun w => heap w = h) (build_matrix gm batch st pl)
    (fun m w => diag_zero (S (length pl)) m /\
                annotated m (enumerate 1 pl) h (heap w))
    (fun w => heap w = h).
Proof.
  intros w Hw. rewrite build_matrix_unfold. case_decide; [done|].
  rewrite /bind.
  pose proof (block_loops_diag gm batch (locations_of st pl (heap w)) h w Hw)
    as Hloops.
  destruct (block_loops _ _ _ w) as [[m|] w1]; [|done].
  rewrite length_locations_of in Hloops. destruct Hloops as [Hd Hh1].
  pose proof (annotate_loop (S (length pl)) m pl h (queries w1)
                (proj1 Hd) eq_refl w1 (conj Hh1 eq_refl)) as Hann.
  destruct (for_eachM _ (annotate m) tt w1) as [[[]|] w2]; [|done].
  simpl. split; [done|]. apply Hann.
Qed.

(** C4. Every matrix returned by calculate_distance_matrix has shape
    n x n for the n = 1 + len(places) locations and holds exactly 0 at
    every diagonal position, whatever the distance service answered
    (statuses, values, or nothing at all) for the cells of its
    responses. *)
Theorem diagonal_is_zero gm st pl w m :
  (calculate_distance_matrix gm st pl w).1 = Ok m ->
  shape (S (length pl)) m /\
  forall i, i < S (length pl) -> mget m i i = Some 0%Q.
Proof.
  unfold calculate_distance_matrix. intros Hrun.
  pose proof (build_matrix_generic gm BATCH_SIZE st pl (heap w) w eq_refl) as Hb.
  destruct (build_matrix gm BATCH_SIZE st pl w) as [[m'|] w']; [|done].
  simpl in Hrun. injection Hrun as ->. by destruct Hb as [[Hs Hd] _].
Qed.

(** C10. calculate_distance_matrix annotates the places only after the
    whole matrix is assembled. When the call raises, the store of Place
    objects is the one it was given: no distance_from_station field has
    been written. When it returns a matrix, the place at position k of
    the list has distance_from_station = matrix[0][k+1], provided the
    same object does not occur again later in the list. *)
Theorem annotation_is_atomic gm st pl w :
  (forall e, (calculate_distance_matrix gm st pl w).1 = Raise e ->
     heap (calculate_distance_matrix gm st pl w).2 = heap w) /\
  (forall m, (calculate_distance_matrix gm st pl w).1 = Ok m ->
     forall k r, pl !! k = Some r -> r ∉ drop (S k) pl ->
       distance_from_station (heap (calculate_distance_matrix gm st pl w).2 r)
       = mget m 0 (S k)).
Proof.
  unfold calculate_distance_matrix.
  pose proof (build_matrix_generic gm BATCH_SIZE st pl (heap w) w eq_refl) as Hb.
  destruct (build_matrix gm BATCH_SIZE st pl w) as [[m'|] w']; simpl.
  - split; [done|]. intros m [= <-] k r Hk Hlast.
    destruct Hb as [_ [Hann _]]. apply (Hann k).
    + apply enumerate_lookup. done.
    + intros j' [idx' r'] Hlt [_ Hj']%enumerate_lookup Heq. simpl in *.
      subst r'. apply Hlast. apply list_elem_of_lookup.
      exists (j' - S k). rewrite lookup_drop.
      by replace (S k + (j' - S k)) with j' by lia.
  - split; [done|]. intros m [=].
Qed.

(** ** A service that answers cell by cell *)

Lemma slice_lookup {A} (l : list A) a b k :
  k < b - a -> slice l a b !! k = l !! (a + k).
Proof. intros Hk. by rewrite /slice lookup_take_lt // lookup_drop. Qed.

Lemma read_cell_service cell k origins destinations res il jl :
  service_of_cells cell k origins destinations = Some res ->
  read_cell res il jl =
    (o ← origins !! il; d ← destinations !! jl; cell_value (cell o d)).
Proof.
  intros [= <-]. rewrite /read_cell /= list_lookup_fmap.
  destruct (origins !! il) as [o|]; simpl; [|done].
  rewrite list_lookup_fmap. by destruct (destinations !! jl).
Qed.

Section cells.
Variable cell : coord -> coord -> element.
Variable locations : list coord.

Let n := length locations.
Let expect := expected cell locations.

Lemma agrees_weaken (C C' : nat -> nat -> Prop) m :
  (forall i j, C' i j -> C i j) -> agrees cell locations C m -> agrees cell locations C' m.
Proof. intros HC [Hs Hm]. split; [done|]. intros i j Hij. by apply Hm, HC. Qed.

Lemma write_cell_agrees C k i_start i_end j_start j_end res il ig jl jg m :
  service_of_cells cell k (slice locations i_start i_end)
    (slice locations j_start j_end) = Some res ->
  i_end <= n -> j_end <= n ->
  ig = i_start + il -> ig < i_end -> jg = j_start + jl -> jg < j_end ->
  agrees cell locations C m ->
  match write_cell res (il, ig) (jl, jg) m with
  | Some m' => agrees cell locations (fun i j => C i j \/ (i = ig /\ j = jg)) m'
  | None => unreadable cell locations
  end.
Proof.
  intros Hres Hie Hje -> Hi -> Hj [Hs Hm]. unfold write_cell.
  assert ((v ← read_cell res il jl; float64 v)
          = expect (i_start + il) (j_start + jl)
          \/ i_start + il = j_start + jl) as Hread.
  { destruct (decide (i_start + il = j_start + jl)) as [|Hne]; [by right|left].
    rewrite (read_cell_service _ _ _ _ _ _ _ Hres) /expect /expected.
    rewrite decide_False // !slice_lookup //; [lia..|].
    destruct (locations !! (i_start + il)) as [o|]; [|done].
    by destruct (locations !! (j_start + jl)) as [d|]. }
  case_decide as Heq.
  - destruct (mset_spec n m (i_start + il) (j_start + jl) 0%Q 0%Q float64_0 Hs)
      as (m' & -> & Hs' & Hget); [lia..|].
    split; [done|]. intros i j Hij Hin Hjn. rewrite Hget.
    case_decide as Hc.
    + destruct Hc as [-> ->]. by rewrite /expect /expected decide_True.
    + apply Hm; [|done..]. destruct Hij as [|Hij]; [done|by destruct Hc].
  - destruct Hread as [Hread|]; [|done].
    destruct (read_cell res il jl) as [v|] eqn:Hv; simpl in *.
    + destruct (float64 v) as [x|] eqn:Hx.
      * destruct (mset_spec n m (i_start + il) (j_start + jl) v x Hx Hs)
          as (m' & -> & Hs' & Hget); [lia..|].
        split; [done|]. intros i j Hij Hin Hjn. rewrite Hget.
        case_decide as Hc.
        -- destruct Hc as [-> ->]. done.
        -- apply Hm; [|done..]. destruct Hij as [|Hij]; [done|by destruct Hc].
      * rewrite /mset Hx /=.
        exists (i_start + il), (j_start + jl). repeat split; [lia..|done|done].
    + exists (i_start + il), (j_start + jl). repeat split; [lia..|done|done].
Qed.

Lemma fill_block_agrees C k i_start i_end j_start j_end res m :
  service_of_cells cell k (slice locations i_start i_end)
    (slice locations j_start j_end) = Some res ->
  i_end <= n -> j_end <= n ->
  agrees cell locations C m ->
  match fill_block res i_start i_end j_start j_end m with
  | Some m' =>
      agrees cell locations (fun i j => C i j \/
                (i_start <= i < i_end /\ j_start <= j < j_end)) m'
  | None => unreadable cell locations
  end.
Proof.
  intros Hres Hie Hje Hm. unfold fill_block.
  pose proof (for_each_spec
    (fun pre => agrees cell locations (fun i j => C i j \/
       ((exists il, (il, i) ∈ pre) /\ j_start <= j < j_end)))
    (unreadable cell locations) (enumerate 0 (range i_start i_end))
    (fun i => for_each (enumerate 0 (range j_start j_end)) (write_cell res i)) m)
    as Hrows.
  match type of Hrows with _ -> _ -> ?G =>
    assert G as Hloop; [apply Hrows; clear Hrows|] end.
  - intros pre [il ig] post s Hl Hs.
    apply elem_of_middle, enumerate_range_elem_of in Hl as [Hig Hlt].
    pose proof (for_each_spec
      (fun pre' => agrees cell locations (fun i j =>
         (C i j \/ ((exists il, (il, i) ∈ pre) /\ j_start <= j < j_end)) \/
         (i = ig /\ exists jl, (jl, j) ∈ pre')))
      (unreadable cell locations) (enumerate 0 (range j_start j_end))
      (write_cell res (il, ig)) s) as Hcols.
    match type of Hcols with _ -> _ -> ?G =>
      assert G as Hrow; [apply Hcols; clear Hcols|] end.
    + intros pre' [jl jg] post' t Hl' Ht.
      apply elem_of_middle, enumerate_range_elem_of in Hl' as [Hjg Hjlt].
      pose proof (write_cell_agrees _ k i_start i_end j_start j_end res
                    il ig jl jg t Hres Hie Hje Hig Hlt Hjg Hjlt Ht) as Hw.
      destruct (write_cell res (il, ig) (jl, jg) t) as [t'|]; [|done].
      eapply agrees_weaken; [|exact Hw]. intros i j [Hij|[-> Hj]].
      * left. by left.
      * destruct Hj as [jl' [Hj|Hj]%elem_of_app].
        -- left. right. split; [done|]. by exists jl'.
        -- apply list_elem_of_singleton in Hj as [= -> ->]. by right.
    + eapply agrees_weaken; [|exact Hs]. intros i j [Hij|[_ [jl Hj]]]; [done|].
      by apply elem_of_nil in Hj.
    + destruct (for_each _ (write_cell res (il, ig)) s) as [s'|]; [|done].
      eapply agrees_weaken; [|exact Hrow].
      intros i j [Hij|[[il' [Hi|Hi]%elem_of_app] Hj]].
      * left. by left.
      * left. right. split; [by exists il'|done].
      * apply list_elem_of_singleton in Hi as [= -> ->]. right.
        split; [done|]. exists (j - j_start).
        apply enumerate_range_elem_of. lia.
  - eapply agrees_weaken; [|exact Hm]. intros i j [Hij|[[il Hi] _]]; [done|].
    by apply elem_of_nil in Hi.
  - destruct (for_each _ _ m) as [m'|]; [|done].
    eapply agrees_weaken; [|exact Hloop].
    intros i j [Hij|[Hi Hj]]; [by left|]. right. split; [|done].
    exists (i - i_start). apply enumerate_range_elem_of. lia.
Qed.
End cells.

(** ** range(0, n, step) *)

Lemma range_aux_lookup fuel start stop step k x :
  0 < step -> stop - start <= fuel ->
  range_aux fuel start stop step !! k = Some x <->
  x = start + k * step /\ x < stop.
Proof.
  intros Hstep. revert start k.
  induction fuel as [|fuel IH]; intros start k Hfuel; simpl.
  - rewrite lookup_nil. split; [done|]. lia.
  - case_decide as Hlt.
    + destruct k as [|k]; simpl.
      * split; [intros [= <-]; lia|]. intros [-> _]. f_equal. lia.
      * rewrite IH; [lia|]. split; intros [-> ?]; split; lia.
    + rewrite lookup_nil. split; [done|]. intros [-> ?]. lia.
Qed.

Lemma range3_lookup stop step k x :
  0 < step -> range3 0 stop step !! k = Some x <-> x = k * step /\ x < stop.
Proof. intros Hstep. rewrite /range3 range_aux_lookup //. lia. Qed.

Lemma ceil_div_lt n b k : 0 < b -> k < ceil_div n b <-> k * b < n.
Proof.
  intros Hb. unfold ceil_div. split; intros Hk.
  - destruct (decide (k * b < n)) as [|Hge]; [done|]. exfalso.
    assert ((n + b - 1) / b < S k); [|lia].
    apply Nat.Div0.div_lt_upper_bound; lia.
  - assert (S k <= (n + b - 1) / b); [|lia].
    apply Nat.div_le_lower_bound; lia.
Qed.

Lemma length_range3 stop step :
  0 < step -> length (range3 0 stop step) = ceil_div stop step.
Proof.
  intros Hstep.
  assert (forall k, k < length (range3 0 stop step) <-> k < ceil_div stop step)
    as Hk.
  { intros k. rewrite ceil_div_lt // -lookup_lt_is_Some. split.
    - intros [x [-> ?]%range3_lookup]; done.
    - intros Hlt. exists (k * step). by apply range3_lookup. }
  pose proof (Hk (length (range3 0 stop step))).
  pose proof (Hk (ceil_div stop step)). lia.
Qed.

Lemma range3_cover stop step i :
  0 < step -> i < stop ->
  exists s, s ∈ range3 0 stop step /\ s <= i < Nat.min (s + step) stop.
Proof.
  intros Hstep Hi. exists (i / step * step).
  pose proof (Nat.div_mod_eq i step) as Hdm.
  pose proof (Nat.mod_upper_bound i step) as Hmod.
  split; [|lia].
  apply list_elem_of_lookup. exists (i / step). apply range3_lookup; [done|].
  split; [done|lia].
Qed.

(** ** The block loops, for a service that answers cell by cell *)

Section batched.
Variable cell : coord -> coord -> element.
Variable locations : list coord.
Variable batch : nat.
Hypothesis batch_pos : 0 < batch.
Variable h : store.

Let n := length locations.
Let gm := service_of_cells cell.
Let starts := range3 0 n batch.
Let block (s : nat) (i : nat) : Prop := s <= i < Nat.min (s + batch) n.

Lemma block_body_agrees C i_start j_start m q :
  triple (fun w => agrees cell locations C m /\
                   heap w = h /\ length (queries w) = q)
    (block_body gm batch locations i_start j_start m)
    (fun m' w => agrees cell locations
                   (fun i j => C i j \/ (block i_start i /\ block j_start j)) m' /\
                 heap w = h /\ length (queries w) = S q)
    (fun _ => unreadable cell locations).
Proof.
  intros w (Hm & Hh & Hq).
  rewrite /block_body /bind /call_distance_matrix /lift /gm /=.
  pose proof (fill_block_agrees cell locations C (length (queries w))
                i_start (Nat.min (i_start + batch) (length locations))
                j_start (Nat.min (j_start + batch) (length locations))
                _ m eq_refl
                (Nat.le_min_r _ _) (Nat.le_min_r _ _) Hm) as Hfill.
  destruct (fill_block _ _ _ _ _ m) as [m'|]; [|done].
  split; [done|]. split; [done|]. rewrite length_app /=. lia.
Qed.

Lemma row_of_blocks_agrees C i_start m q :
  triple (fun w => agrees cell locations C m /\
                   heap w = h /\ length (queries w) = q)
    (for_eachM starts (fun j_start m =>
       block_body gm batch locations i_start j_start m) m)
    (fun m' w => agrees cell locations
                   (fun i j => C i j \/ block i_start i) m' /\
                 heap w = h /\ length (queries w) = q + length starts)
    (fun _ => unreadable cell locations).
Proof.
  eapply triple_weaken;
    [apply (triple_for_eachM
       (fun pre m' w =>
          agrees cell locations
            (fun i j => C i j \/
               (block i_start i /\ exists s, s ∈ pre /\ block s j)) m' /\
          heap w = h /\ length (queries w) = q + length pre)
       (fun _ => unreadable cell locations))
    | | | by intros].
  - intros pre j_start post m' _.
    eapply triple_weaken;
      [apply block_body_agrees|intros w Hw; exact Hw| |by intros].
    intros m2 w (Hm2 & Hh & Hq). split; [|split; [done|]].
    + eapply agrees_weaken; [|exact Hm2].
      intros i j [Hij|[Hi (s & [Hs|Hs]%elem_of_app & Hj)]].
      * left. by left.
      * left. right. split; [done|]. by exists s.
      * apply list_elem_of_singleton in Hs as ->. by right.
    + rewrite length_app /=. lia.
  - intros w (Hm & Hh & Hq). split; [|split; [done|simpl; lia]].
    eapply agrees_weaken; [|exact Hm].
    intros i j [Hij|[_ (s & Hs & _)]]; [done|]. by apply elem_of_nil in Hs.
  - intros m' w ([Hs Hm'] & Hh & Hq). split; [|done]. split; [done|].
    intros i j Hij Hi Hj. apply Hm'; [|done..].
    destruct Hij as [Hij|Hij]; [by left|right]. split; [done|].
    destruct (range3_cover (length locations) batch j batch_pos Hj)
      as (s & Hs' & Hsj).
    by exists s.
Qed.

Lemma block_loops_agrees q :
  triple (fun w => heap w = h /\ length (queries w) = q)
    (block_loops gm batch locations)
    (fun m w => agrees cell locations (fun _ _ => True) m /\
                heap w = h /\
                length (queries w) = q + length starts * length starts)
    (fun _ => unreadable cell locations).
Proof.
  unfold block_loops.
  eapply triple_weaken;
    [apply (triple_for_eachM
       (fun pre m w =>
          agrees cell locations (fun i j => exists s, s ∈ pre /\ block s i) m /\
          heap w = h /\
          length (queries w) = q + length pre * length starts)
       (fun _ => unreadable cell locations))
    | | | by intros].
  - intros pre i_start post m _.
    eapply triple_weaken;
      [apply row_of_blocks_agrees|intros w Hw; exact Hw| |by intros].
    intros m2 w (Hm2 & Hh & Hq). split; [|split; [done|]].
    + eapply agrees_weaken; [|exact Hm2].
      intros i j (s & [Hs|Hs]%elem_of_app & Hi).
      * left. by exists s.
      * apply list_elem_of_singleton in Hs as ->. by right.
    + rewrite length_app /=. rewrite Hq. fold starts. lia.
  - intros w (Hh & Hq). split; [|split; [done|simpl; lia]].
    split; [apply shape_zeros|].
    intros i j (s & Hs & _). by apply elem_of_nil in Hs.
  - intros m w ([Hs Hm] & Hh & Hq). split; [|done]. split; [done|].
    intros i j _ Hi Hj. apply Hm; [|done..].
    destruct (range3_cover (length locations) batch i batch_pos Hi)
      as (s & Hs' & Hsi).
    by exists s.
Qed.
End batched.

(** The outcome of the whole build for a service that answers cell by
    cell: the matrix of the expected cells after ceil(n/batch)^2 block
    queries, or an exception because some answer could not be read. *)
Lemma build_matrix_cells cell batch st pl w :
  0 < batch ->
  let locations := locations_of st pl (heap w) in
  match build_matrix (service_of_cells cell) batch st pl w with
  | (Some m, w') =>
      shape (S (length pl)) m /\
      (forall i j, i < S (length pl) -> j < S (length pl) ->
         mget m i j = expected cell locations i j) /\
      length (queries w') =
        length (queries w) + ceil_div (S (length pl)) batch ^ 2
  | (None, _) => unreadable cell locations
  end.
Proof.
  intros Hb locations. rewrite build_matrix_unfold.
  rewrite decide_False; [lia|]. rewrite /bind. fold locations.
  pose proof (block_loops_agrees cell locations batch Hb (heap w)
                (length (queries w)) w (conj eq_refl eq_refl)) as Hloops.
  destruct (block_loops _ _ _ w) as [[m|] w1]; [|done].
  rewrite length_range3 // length_locations_of in Hloops.
  destruct Hloops as ([Hs Hm] & Hh1 & Hq1).
  rewrite length_locations_of in Hs.
  pose proof (annotate_loop (S (length pl)) m pl (heap w) (queries w1)
                Hs eq_refl w1 (conj Hh1 eq_refl)) as Hann.
  destruct (for_eachM _ (annotate m) tt w1) as [[[]|] w2]; [|done].
  simpl. destruct Hann as [_ ->]. split; [done|]. split.
  - intros i j Hi Hj. apply Hm; [done|by rewrite length_locations_of..].
  - rewrite Hq1 /=. lia.
Qed.

Lemma build_matrix_cells_agree cell b1 b2 st pl w :
  0 < b1 -> 0 < b2 ->
  (build_matrix (service_of_cells cell) b1 st pl w).1 =
  (build_matrix (service_of_cells cell) b2 st pl w).1.
Proof.
  intros H1 H2.
  pose proof (build_matrix_cells cell b1 st pl w H1) as R1.
  pose proof (build_matrix_cells cell b2 st pl w H2) as R2.
  simpl in R1, R2.
  assert (forall m, shape (S (length pl)) m ->
            (forall i j, i < S (length pl) -> j < S (length pl) ->
               mget m i j = expected cell (locations_of st pl (heap w)) i j) ->
            unreadable cell (locations_of st pl (heap w)) -> False) as Hno.
  { intros m Hs Hm (i & j & Hi & Hj & _ & Hnone).
    rewrite length_locations_of in Hi, Hj.
    destruct (mget_lt _ m i j Hs Hi Hj) as [v Hv].
    rewrite Hm // Hnone in Hv. done. }
  destruct (build_matrix _ b1 st pl w) as [[m1|] w1],
           (build_matrix _ b2 st pl w) as [[m2|] w2]; simpl.
  - f_equal. destruct R1 as (S1 & M1 & _), R2 as (S2 & M2 & _).
    apply (matrix_ext (S (length pl))); [done..|].
    intros i j Hi Hj. by rewrite M1 // M2.
  - destruct R1 as (S1 & M1 & _). destruct (Hno m1 S1 M1 R2).
  - destruct R2 as (S2 & M2 & _). destruct (Hno m2 S2 M2 R1).
  - done.
Qed.

(** ** The queries of the block loops, for an arbitrary service *)

Lemma lookup_bind_fmap {A B C} (f : A -> B -> C) (l : list A) (k : list B)
    a b x y :
  l !! a = Some x -> k !! b = Some y ->
  (i ← l; f i <$> k) !! (a * length k + b) = Some (f x y).
Proof.
  revert a. induction l as [|x0 l IH]; intros a Ha Hb; [done|].
  change ((i ← x0 :: l; f i <$> k)) with ((f x0 <$> k) ++ (i ← l; f i <$> k)).
  destruct a as [|a]; simpl in Ha.
  - injection Ha as ->. rewrite lookup_app_l.
    + rewrite length_fmap. apply lookup_lt_Some in Hb. lia.
    + by rewrite list_lookup_fmap Hb.
  - rewrite lookup_app_r length_fmap; [lia|].
    replace (S a * length k + b - length k) with (a * length k + b) by lia.
    by apply IH.
Qed.

Lemma length_bind_fmap {A B C} (f : A -> B -> C) (l : list A) (k : list B) :
  length (i ← l; f i <$> k) = length l * length k.
Proof.
  induction l as [|x0 l IH]; [done|].
  change ((i ← x0 :: l; f i <$> k)) with ((f x0 <$> k) ++ (i ← l; f i <$> k)).
  rewrite length_app length_fmap IH /=. lia.
Qed.

Lemma slice_block {A} (l : list A) batch s :
  slice l s (Nat.min (s + batch) (length l)) = take batch (drop s l).
Proof.
  unfold slice. destruct (decide (s + batch <= length l)) as [Hle|Hgt].
  - by replace (Nat.min (s + batch) (length l) - s) with batch by lia.
  - rewrite !take_ge //; rewrite length_drop; lia.
Qed.

Lemma row_queries gm batch locations i_start (starts : list nat) m q :
  triple (fun w => queries w = q)
    (for_eachM starts (fun j_start m =>
       block_body gm batch locations i_start j_start m) m)
    (fun _ w => queries w = q ++ (query_at batch locations i_start <$> starts))
    (fun w => exists l,
       l `prefix_of` (query_at batch locations i_start <$> starts) /\
       queries w = q ++ l).
Proof.
  eapply triple_weaken;
    [apply (triple_for_eachM
       (fun pre _ w => queries w = q ++ (query_at batch locations i_start <$> pre))
       (fun w => exists l,
          l `prefix_of` (query_at batch locations i_start <$> starts) /\
          queries w = q ++ l))
    | | by intros | by intros].
  - intros pre j_start post m' Hl w Hw.
    rewrite /block_body /bind /call_distance_matrix /lift Hw.
    assert ((q ++ (query_at batch locations i_start <$> pre))
              ++ [query_at batch locations i_start j_start]
            = q ++ (query_at batch locations i_start <$> pre ++ [j_start])) as Hq.
    { by rewrite fmap_app -(assoc_L (++)). }
    assert ((query_at batch locations i_start <$> pre ++ [j_start])
              `prefix_of` (query_at batch locations i_start <$> starts)) as Hpre.
    { exists (query_at batch locations i_start <$> post).
      by rewrite Hl !fmap_app -(assoc_L (++)). }
    destruct (gm _ _ _) as [res|]; simpl.
    + destruct (fill_block _ _ _ _ _ m'); simpl; [done|]. eauto.
    + eauto.
  - intros w Hw. by rewrite /= Hw app_nil_r.
Qed.

Lemma rows_queries gm batch locations (outer starts : list nat) m q :
  triple (fun w => queries w = q)
    (for_eachM outer (fun i_start m =>
       for_eachM starts (fun j_start m =>
         block_body gm batch locations i_start j_start m) m) m)
    (fun _ w => queries w = q ++ (i ← outer; query_at batch locations i <$> starts))
    (fun w => exists l,
       l `prefix_of` (i ← outer; query_at batch locations i <$> starts) /\
       queries w = q ++ l).
Proof.
  eapply triple_weaken;
    [apply (triple_for_eachM
       (fun pre _ w =>
          queries w = q ++ (i ← pre; query_at batch locations i <$> starts))
       (fun w => exists l,
          l `prefix_of` (i ← outer; query_at batch locations i <$> starts) /\
          queries w = q ++ l))
    | | by intros | by intros].
  - intros pre i_start post m' Hl.
    eapply triple_weaken;
      [apply (row_queries gm batch locations i_start starts m'
                (q ++ (i ← pre; query_at batch locations i <$> starts)))
      | by intros | |].
    + intros _ w ->. by rewrite bind_app /= app_nil_r -(assoc_L (++)).
    + intros w (l & [k Hk] & ->).
      exists ((i ← pre; query_at batch locations i <$> starts) ++ l).
      split; [|by rewrite -(assoc_L (++))].
      exists (k ++ (i ← post; query_at batch locations i <$> starts)).
      rewrite Hl bind_app.
      change (i ← i_start :: post; query_at batch locations i <$> starts)
        with ((query_at batch locations i_start <$> starts)
                ++ (i ← post; query_at batch locations i <$> starts)).
      by rewrite Hk -!(assoc_L (++)).
  - intros w Hw. by rewrite /= Hw app_nil_r.
Qed.

Lemma block_loops_queries gm batch locations q :
  let starts := range3 0 (length locations) batch in
  let all := i ← starts; query_at batch locations i <$> starts in
  triple (fun w => queries w = q)
    (block_loops gm batch locations)
    (fun _ w => queries w = q ++ all)
    (fun w => exists l, l `prefix_of` all /\ queries w = q ++ l).
Proof. intros starts all. apply rows_queries. Qed.

(** The queries of a build, for any service: a prefix of the one query
    per pair of blocks, all of them when the build returns. *)
Lemma build_matrix_queries gm batch st pl w :
  0 < batch ->
  let locations := locations_of st pl (heap w) in
  let starts := range3 0 (length locations) batch in
  let all := i ← starts; query_at batch locations i <$> starts in
  exists new,
    queries (build_matrix gm batch st pl w).2 = queries w ++ new /\
    new `prefix_of` all /\
    (is_Some (build_matrix gm batch st pl w).1 -> new = all).
Proof.
  intros Hb locations starts all. rewrite build_matrix_unfold.
  rewrite decide_False; [lia|]. rewrite /bind. fold locations.
  pose proof (block_loops_queries gm batch locations (queries w) w eq_refl)
    as Hlog.
  pose proof (block_loops_diag gm batch locations (heap w) w eq_refl) as Hdiag.
  cbv zeta in Hlog. fold starts in Hlog. fold all in Hlog.
  destruct (block_loops _ _ _ w) as [[m|] w1]; simpl.
  - destruct Hdiag as [[Hs _] Hh1]. rewrite length_locations_of in Hs.
    pose proof (annotate_loop (S (length pl)) m pl (heap w) (queries w1)
                  Hs eq_refl w1 (conj Hh1 eq_refl)) as Hann.
    destruct (for_eachM _ (annotate m) tt w1) as [[[]|] w2]; [|done].
    simpl. destruct Hann as [_ ->]. exists all. by rewrite Hlog.
  - destruct Hlog as (l & Hl & ->). exists l.
    split; [done|]. split; [done|]. by intros [? ?].
Qed.

Lemma all_queries_length batch locations :
  0 < batch ->
  let starts := range3 0 (length locations) batch in
  length (i ← starts; query_at batch locations i <$> starts)
  = ceil_div (length locations) batch ^ 2.
Proof.
  intros Hb starts. rewrite length_bind_fmap /starts length_range3 //=. lia.
Qed.

Lemma all_queries_lookup batch locations a b :
  0 < batch ->
  let starts := range3 0 (length locations) batch in
  let c := ceil_div (length locations) batch in
  a < c -> b < c ->
  (i ← starts; query_at batch locations i <$> starts) !! (a * c + b)
  = Some (take batch (drop (a * batch) locations),
          take batch (drop (b * batch) locations)).
Proof.
  intros Hb starts c Ha Hb'.
  assert (forall k, k < c -> starts !! k = Some (k * batch)) as Hstart.
  { intros k Hk. apply range3_lookup; [done|]. split; [done|].
    by apply ceil_div_lt. }
  unfold c. rewrite -{1}(length_range3 (length locations) batch Hb). fold starts.
  rewrite (lookup_bind_fmap _ _ _ a b _ _ (Hstart a Ha) (Hstart b Hb')).
  by rewrite /query_at !slice_block.
Qed.

(** C5. For n = 1 + len(places) locations and a positive batch size B,
    whatever the distance service answers: the block queries of a build
    are, in order, one per ordered pair of blocks, query number a * c + b
    (c = ceil(n/B)) carrying the B consecutive locations from a * B on
    as origins and those from b * B on as destinations (fewer at the end
    of the list); a build that returns has issued all c^2 of them, one
    that raises only the first ones. For a service that answers cell by
    cell, the returned matrix holds at every position off the diagonal
    the float64 value read from the answer for that pair of locations
    and 0 on the diagonal; the build returns whenever every such answer
    can be read; and the outcome with batch size 2 is the outcome with a
    single block (any batch size of at least n), cell for cell. 5
    locations with batch size 2 take exactly 9 queries, and
    calculate_distance_matrix is the build with batch size 25. *)
Theorem batching_is_transparent gm cell st pl w batch single :
  0 < batch -> S (length pl) <= single ->
  let n := S (length pl) in
  let locations := locations_of st pl (heap w) in
  let c := ceil_div n batch in
  let build b := build_matrix (service_of_cells cell) b st pl w in
  (exists new,
     queries (build_matrix gm batch st pl w).2 = queries w ++ new /\
     length new <= c ^ 2 /\
     (is_Some (build_matrix gm batch st pl w).1 -> length new = c ^ 2) /\
     forall a b, a < c -> b < c -> a * c + b < length new ->
       new !! (a * c + b) =
         Some (take batch (drop (a * batch) locations),
               take batch (drop (b * batch) locations))) /\
  (forall m, (build batch).1 = Some m ->
     shape n m /\
     forall i j, i < n -> j < n -> mget m i j = expected cell locations i j) /\
  (~ unreadable cell locations -> is_Some (build batch).1) /\
  (build 2).1 = (build single).1 /\
  (n = 5 ->
     is_Some (build_matrix gm 2 st pl w).1 ->
     length (queries (build_matrix gm 2 st pl w).2) = length (queries w) + 9) /\
  (forall m, (calculate_distance_matrix gm st pl w).1 = Ok m <->
             (build_matrix gm 25 st pl w).1 = Some m).
Proof.
  intros Hb Hsingle n locations c build.
  assert (length locations = n) as Hlen by apply length_locations_of.
  split; [|split; [|split; [|split; [|split]]]].
  - destruct (build_matrix_queries gm batch st pl w Hb)
      as (new & Hq & [k Hk] & Hall).
    fold locations in Hk, Hall.
    pose proof (all_queries_length batch locations Hb) as Hlenall.
    cbv zeta in Hlenall.
    assert (c = ceil_div (length locations) batch) as Hc by by rewrite Hlen.
    exists new. split; [done|]. rewrite Hc. split; [|split].
    + rewrite -Hlenall Hk length_app. lia.
    + intros Hsome. by rewrite (Hall Hsome).
    + intros a b Ha Hb' Hlt.
      by rewrite -(all_queries_lookup batch locations a b Hb Ha Hb') Hk
           lookup_app_l.
  - intros m Hm. pose proof (build_matrix_cells cell batch st pl w Hb) as R.
    subst build. cbv beta zeta in *.
    destruct (build_matrix _ batch st pl w) as [[m'|] w']; [|done].
    simpl in Hm. injection Hm as ->. by destruct R as (Hs & Hcells & _).
  - intros Hread. pose proof (build_matrix_cells cell batch st pl w Hb) as R.
    subst build. cbv beta zeta in *.
    destruct (build_matrix _ batch st pl w) as [[m'|] w']; [by eexists|done].
  - apply build_matrix_cells_agree; lia.
  - intros Hn Hsome.
    destruct (build_matrix_queries gm 2 st pl w ltac:(lia))
      as (new & Hq & _ & Hall).
    rewrite Hq (Hall Hsome) length_app all_queries_length; [lia|].
    fold locations. rewrite Hlen Hn. done.
  - rewrite /calculate_distance_matrix /BATCH_SIZE.
    destruct (build_matrix gm 25 st pl w) as [[m'|] w']; simpl; split; congruence.
Qed.

(** ** The cells of a returned matrix *)

Lemma calculate_cells cell st pl w m :
  (calculate_distance_matrix (service_of_cells cell) st pl w).1 = Ok m ->
  shape (S (length pl)) m /\
  forall i j, i < S (length pl) -> j < S (length pl) ->
    mget m i j = expected cell (locations_of st pl (heap w)) i j.
Proof.
  unfold calculate_distance_matrix. intros Hrun.
  pose proof (build_matrix_cells cell BATCH_SIZE st pl w
                ltac:(unfold BATCH_SIZE; lia)) as R.
  cbv zeta in R.
  destruct (build_matrix _ BATCH_SIZE st pl w) as [[m'|] w']; [|done].
  simpl in Hrun. injection Hrun as ->. by destruct R as (Hs & Hm & _).
Qed.

Lemma reachable_dec cell locations i j :
  reachable cell locations i j \/ ~ reachable cell locations i j.
Proof.
  destruct (decide (i = j)) as [|Hne]; [by left; left|].
  destruct (locations !! i) as [o|] eqn:Ho;
    [|right; intros [|(o & d & ? & _)]; congruence].
  destruct (locations !! j) as [d|] eqn:Hd;
    [|right; intros [|(o' & d' & _ & ? & _)]; congruence].
  destruct (status (cell o d)) as [s|] eqn:Hs;
    [|right; intros [|(o' & d' & ? & ? & ?)]; congruence].
  destruct (String.eqb_spec s "OK") as [->|Hs'].
  - left. right. by exists o, d.
  - right. intros [|(o' & d' & ? & ? & ?)]; congruence.
Qed.

Lemma unreachable_cell cell st pl w m i j :
  (calculate_distance_matrix (service_of_cells cell) st pl w).1 = Ok m ->
  i < S (length pl) -> j < S (length pl) ->
  ~ reachable cell (locations_of st pl (heap w)) i j ->
  mget m i j = Some SENTINEL.
Proof.
  intros [Hs Hm]%calculate_cells Hi Hj Hno.
  destruct (mget_lt _ m i j Hs Hi Hj) as [x Hx].
  rewrite Hm // in Hx. rewrite Hm //. revert Hx.
  rewrite /expected decide_False; [by intros ->; apply Hno; left|].
  destruct (locations_of st pl (heap w) !! i) as [o|] eqn:Ho; [|done].
  destruct (locations_of st pl (heap w) !! j) as [d|] eqn:Hd; [|done].
  rewrite /= /cell_value.
  destruct (status (cell o d)) as [s|] eqn:Hst; [|done]. simpl.
  destruct (String.eqb_spec s "OK") as [->|_].
  - destruct Hno. right. by exists o, d.
  - by rewrite /= float64_SENTINEL.
Qed.

(** * Concrete runs of the builder *)

Lemma diagonal_is_zero_witness :
  (calculate_distance_matrix (service_of_cells ex_cell) ex_station [1; 2] ex_world).1
    = Ok [[0; 107; 207]; [107; 0; 307]; [207; 307; 0]]%Q /\
  mget [[0; 107; 207]; [107; 0; 307]; [207; 307; 0]]%Q 2 2 = Some 0%Q.
Proof.
  assert ((calculate_distance_matrix (service_of_cells ex_cell) ex_station
             [1; 2] ex_world).1
          = Ok [[0; 107; 207]; [107; 0; 307]; [207; 307; 0]]%Q) as Hrun
    by (vm_compute; reflexivity).
  split; [exact Hrun|].
  apply (diagonal_is_zero _ _ _ _ _ Hrun). simpl. lia.
Defined.

Lemma annotation_is_atomic_witness :
  (calculate_distance_matrix ex_down ex_station [1; 2] ex_world).1
    = Raise DistanceError /\
  heap (calculate_distance_matrix ex_down ex_station [1; 2] ex_world).2
    = heap ex_world.
Proof.
  assert ((calculate_distance_matrix ex_down ex_station [1; 2] ex_world).1
          = Raise DistanceError) as Hrun by (vm_compute; reflexivity).
  split; [exact Hrun|].
  exact (proj1 (annotation_is_atomic ex_down ex_station [1; 2] ex_world) _ Hrun).
Defined.

Lemma batching_is_transparent_witness :
  (build_matrix (service_of_cells ex_cell) 2 ex_station [1; 2; 3; 4] ex_world).1
  = (build_matrix (service_of_cells ex_cell) 5 ex_station [1; 2; 3; 4] ex_world).1 /\
  length (queries
    (build_matrix (service_of_cells ex_cell) 2 ex_station [1; 2; 3; 4] ex_world).2)
  = 9.
Proof.
  destruct (batching_is_transparent (service_of_cells ex_cell) ex_cell ex_station
              [1; 2; 3; 4] ex_world 2 5 ltac:(lia) ltac:(simpl; lia))
    as (_ & _ & _ & Heq & Hnine & _).
  split; [exact Heq|].
  apply (Hnine eq_refl). vm_compute. eauto.
Defined.

(** C6, as stated, fails: with a finite leg of 2000 km from the station
    to the place and no route back, the unreachable cell gets 999999,
    which is below that single finite distance (and so below the sum of
    the finite distances, and below n times the largest). *)
Lemma sentinel_can_be_too_small :
  (calculate_distance_matrix (service_of_cells ex_far_cell) ex_station [1] ex_world).1
    = Ok [[0; 2000000]; [999999; 0]]%Q /\
  status (ex_far_cell (1, 0)%Q (0, 0)%Q) = Some "ZERO_RESULTS"%string /\
  status (ex_far_cell (0, 0)%Q (1, 0)%Q) = Some "OK"%string /\
  (999999 < 2000000)%Q.
Proof. repeat split. Qed.

(** * Properties of the optimizer *)

(** ** Finite sums of rationals *)

Lemma sumQ_nil {A} (f : A -> Q) : sumQ f [] = 0%Q.
Proof. reflexivity. Qed.

Lemma sumQ_cons {A} (f : A -> Q) x l : sumQ f (x :: l) = (f x + sumQ f l)%Q.
Proof. reflexivity. Qed.

Lemma sumQ_app {A} (f : A -> Q) l1 l2 :
  (sumQ f (l1 ++ l2) == sumQ f l1 + sumQ f l2)%Q.
Proof.
  induction l1 as [|x l1 IH]; simpl; [rewrite sumQ_nil; lra|].
  rewrite !sumQ_cons. lra.
Qed.

Lemma sumQ_ext {A} (f g : A -> Q) l :
  (forall x, x ∈ l -> (f x == g x)%Q) -> (sumQ f l == sumQ g l)%Q.
Proof.
  induction l as [|x l IH]; intros Hfg; [rewrite ?sumQ_nil; lra|].
  pose proof (Hfg x ltac:(left)).
  pose proof (IH (fun y Hy => Hfg y ltac:(by right))).
  rewrite !sumQ_cons. lra.
Qed.

Lemma sumQ_le {A} (f g : A -> Q) l :
  (forall x, x ∈ l -> (f x <= g x)%Q) -> (sumQ f l <= sumQ g l)%Q.
Proof.
  induction l as [|x l IH]; intros Hfg; [rewrite ?sumQ_nil; lra|].
  pose proof (Hfg x ltac:(left)).
  pose proof (IH (fun y Hy => Hfg y ltac:(by right))).
  rewrite !sumQ_cons. lra.
Qed.

Lemma sumQ_nonneg {A} (f : A -> Q) l :
  (forall x, x ∈ l -> (0 <= f x)%Q) -> (0 <= sumQ f l)%Q.
Proof.
  induction l as [|x l IH]; intros Hf; [rewrite ?sumQ_nil; lra|].
  pose proof (Hf x ltac:(left)).
  pose proof (IH (fun y Hy => Hf y ltac:(by right))).
  rewrite sumQ_cons. lra.
Qed.

Lemma sumQ_zero {A} (f : A -> Q) l :
  (forall x, x ∈ l -> (f x == 0)%Q) -> (sumQ f l == 0)%Q.
Proof.
  induction l as [|x l IH]; intros Hf; [rewrite ?sumQ_nil; lra|].
  pose proof (Hf x ltac:(left)).
  pose proof (IH (fun y Hy => Hf y ltac:(by right))).
  rewrite sumQ_cons. lra.
Qed.

Lemma sumQ_perm {A} (f : A -> Q) l1 l2 :
  l1 ≡ₚ l2 -> (sumQ f l1 == sumQ f l2)%Q.
Proof.
  induction 1 as [|x l1 l2 _ IH|x y l|l1 l2 l3 _ IH1 _ IH2];
    rewrite ?sumQ_cons ?sumQ_nil; lra.
Qed.

Lemma sumQ_fmap {A B} (g : A -> B) (f : B -> Q) l :
  sumQ f (g <$> l) = sumQ (fun x => f (g x)) l.
Proof. induction l as [|x l IH]; [done|]. by rewrite fmap_cons !sumQ_cons IH. Qed.

Lemma sumQ_bind {A B} (k : A -> list B) (f : B -> Q) l :
  (sumQ f (x ← l; k x) == sumQ (fun x => sumQ f (k x)) l)%Q.
Proof.
  induction l as [|x l IH]; [rewrite /= !sumQ_nil; lra|].
  rewrite bind_cons sumQ_app sumQ_cons. lra.
Qed.

(** A sum of zeros and ones that equals one has exactly one one. *)
Lemma sumQ_binary_one {A} (f : A -> Q) l :
  NoDup l ->
  (forall x, x ∈ l -> (f x == 0 \/ f x == 1)%Q) ->
  (sumQ f l == 1)%Q ->
  exists x, x ∈ l /\ (f x == 1)%Q /\ forall y, y ∈ l -> (f y == 1)%Q -> y = x.
Proof.
  induction 1 as [|x l Hx Hnd IH]; intros Hbin Hsum; [rewrite sumQ_nil in Hsum; lra|].
  rewrite sumQ_cons in Hsum.
  assert (0 <= sumQ f l)%Q as Hpos.
  { apply sumQ_nonneg. intros y Hy.
    destruct (Hbin y ltac:(by right)); lra. }
  assert (forall y, y ∈ l -> (sumQ f l == 0)%Q -> (f y == 0)%Q) as Hz.
  { clear -Hbin. intros y Hy Hs. induction l as [|z l IH]; [by apply elem_of_nil in Hy|].
    rewrite sumQ_cons in Hs.
    assert (0 <= sumQ f l)%Q.
    { apply sumQ_nonneg. intros t Ht.
      destruct (Hbin t ltac:(right; by right)); lra. }
    destruct (Hbin z ltac:(right; left)) as [Hfz|Hfz]; [|lra].
    apply elem_of_cons in Hy as [->|Hy]; [lra|].
    apply IH; [|done|lra]. intros t [->|Ht]%elem_of_cons; apply Hbin.
    - left.
    - right. by right. }
  destruct (Hbin x ltac:(left)) as [Hfx|Hfx].
  - destruct IH as (t & Ht & Hft & Huniq).
    + intros y Hy. apply Hbin. by right.
    + lra.
    + exists t. split; [by right|]. split; [done|].
      intros y [->|Hy]%elem_of_cons Hfy; [lra|]. by apply Huniq.
  - exists x. split; [left|]. split; [done|].
    intros y [->|Hy]%elem_of_cons Hfy; [done|].
    pose proof (Hz y Hy ltac:(lra)). lra.
Qed.

(** The sum of an indicator that holds at exactly one point. *)
Lemma sumQ_indicator {A} (P : A -> Prop) `{!forall x, Decision (P x)} l t :
  NoDup l -> t ∈ l -> (forall x, x ∈ l -> P x <-> x = t) ->
  (sumQ (fun x => if decide (P x) then 1 else 0) l == 1)%Q.
Proof.
  induction 1 as [|x l Hx Hnd IH]; intros Ht HP; [by apply elem_of_nil in Ht|].
  rewrite sumQ_cons. apply elem_of_cons in Ht as [<-|Ht].
  - rewrite decide_True; [by apply HP; [left|]|].
    rewrite (sumQ_zero _ l); [|lra]. intros y Hy.
    rewrite decide_False; [|lra]. intros HPy.
    apply HP in HPy; [|by right]. by subst y.
  - rewrite decide_False.
    { intros HPx. apply HP in HPx; [|left]. by subst x. }
    rewrite IH; [done| |lra]. intros y Hy. apply HP. by right.
Qed.

(** ** What a feasible assignment of the model satisfies *)

Lemma eval_sumQ a e : eval a e = sumQ (fun t => (t.1 * a t.2)%Q) e.
Proof. reflexivity. Qed.

Lemma eval_degree a (P : nat -> Prop) `{!forall k, Decision (P k)}
    (arc : nat -> var) l :
  (eval a (k ← l; (if decide (P k) then [(1%Q, arc k)] else []))
   == sumQ (fun k => if decide (P k) then a (arc k) else 0%Q) l)%Q.
Proof.
  rewrite eval_sumQ sumQ_bind. apply sumQ_ext. intros k _.
  case_decide; rewrite ?sumQ_cons ?sumQ_nil /=; lra.
Qed.

Lemma binary_iff (q : Q) :
  (0 <= q)%Q /\ (q <= 1)%Q /\ integral q <-> (q == 0 \/ q == 1)%Q.
Proof.
  split.
  - intros (H0 & H1 & z & Hz). rewrite Hz in H0, H1. rewrite Hz.
    assert (0 <= z <= 1)%Z as Hrange.
    { split; [apply Qle_bool_iff in H0|apply Qle_bool_iff in H1];
        rewrite /Qle_bool /= in H0, H1; lia. }
    assert (z = 0 \/ z = 1)%Z as [->| ->] by lia; [by left|by right].
  - intros [Hq|Hq].
    + split; [lra|]. split; [lra|]. by exists 0%Z.
    + split; [lra|]. split; [lra|]. by exists 1%Z.
Qed.

Lemma elem_of_x_vars n v :
  v ∈ x_vars n <->
  exists i j, i < n /\ j < n /\
    v = {| v_name := X i j; v_type := BINARY; v_lb := 0; v_ub := 1 |}.
Proof.
  unfold x_vars. rewrite list_elem_of_bind. split.
  - intros (i & (j & Hv%list_elem_of_singleton & Hj%elem_of_seq)%list_elem_of_bind
              & Hi%elem_of_seq).
    exists i, j. split; [lia|]. split; [lia|done].
  - intros (i & j & Hi & Hj & ->). exists i. split; [|apply elem_of_seq; lia].
    apply list_elem_of_bind. exists j. split; [left|apply elem_of_seq; lia].
Qed.

Lemma elem_of_u_vars n v :
  v ∈ u_vars n <->
  exists i, i < n /\
    v = {| v_name := U i; v_type := INTEGER; v_lb := 1; v_ub := nQ n - 1 |}.
Proof.
  unfold u_vars. rewrite list_elem_of_bind. split.
  - intros (i & Hv%list_elem_of_singleton & Hi%elem_of_seq).
    exists i. split; [lia|done].
  - intros (i & Hi & ->). exists i. split; [left|apply elem_of_seq; lia].
Qed.

Lemma elem_of_constraints_of n c :
  c ∈ constraints_of n <->
  (exists i, i < n /\ c = out_degree n i) \/
  (exists j, j < n /\ c = in_degree n j) \/
  (exists i j, 1 <= i < n /\ 1 <= j < n /\ i <> j /\ c = mtz n i j).
Proof.
  unfold constraints_of, range. rewrite !elem_of_app !list_elem_of_fmap.
  rewrite list_elem_of_bind. split.
  - intros [(i & -> & Hi%elem_of_seq)|[(j & -> & Hj%elem_of_seq)|
             (i & (j & Hc & Hj%elem_of_seq)%list_elem_of_bind & Hi%elem_of_seq)]].
    + left. exists i. split; [lia|done].
    + right; left. exists j. split; [lia|done].
    + right; right. case_decide; [|by apply elem_of_nil in Hc].
      apply list_elem_of_singleton in Hc. exists i, j. repeat split; [lia..|done|done].
  - intros [(i & Hi & ->)|[(j & Hj & ->)|(i & j & Hi & Hj & Hij & ->)]].
    + left. exists i. split; [done|apply elem_of_seq; lia].
    + right; left. exists j. split; [done|apply elem_of_seq; lia].
    + right; right. exists i. split; [|apply elem_of_seq; lia].
      apply list_elem_of_bind. exists j. split; [|apply elem_of_seq; lia].
      rewrite decide_True //. left.
Qed.

Lemma sat_out_degree a n i :
  sat_constr a (out_degree n i) <-> (degree_sum a n (fun j => X i j) i == 1)%Q.
Proof.
  rewrite /sat_constr /= (eval_degree a (fun j => i ≠ j)) /degree_sum.
  assert (sumQ (fun k => if decide (i ≠ k) then a (X i k) else 0) (seq 0 n)
          == sumQ (fun k => if decide (k ≠ i) then a (X i k) else 0) (seq 0 n))%Q
    as ->; [|done].
  apply sumQ_ext. intros k _. repeat case_decide; try lra; congruence.
Qed.

Lemma sat_in_degree a n j :
  sat_constr a (in_degree n j) <-> (degree_sum a n (fun i => X i j) j == 1)%Q.
Proof. by rewrite /sat_constr /= (eval_degree a (fun i => i ≠ j)) /degree_sum. Qed.

Lemma sat_mtz a n i j :
  sat_constr a (mtz n i j) <->
  (a (U i) - a (U j) + nQ n * a (X i j) <= nQ n - 1)%Q.
Proof. rewrite /sat_constr /=. split; intros; lra. Qed.

Lemma feasible_tsp d model a :
  tsp_model d = Some model ->
  feasible model a <-> tsp_feasible (length d) a.
Proof.
  unfold tsp_model. set (n := length d).
  destruct (objective_of n d) as [obj|]; simpl; [|done].
  intros [= <-]. unfold feasible, tsp_feasible. simpl.
  rewrite !Forall_forall. split.
  - intros (Hv & Hc). split; [|split; [|split; [|split]]].
    + intros i j Hi Hj. apply binary_iff.
      apply (Hv {| v_name := X i j; v_type := BINARY; v_lb := 0; v_ub := 1 |}).
      apply elem_of_app. left. apply elem_of_x_vars. by exists i, j.
    + intros i Hi.
      apply (Hv {| v_name := U i; v_type := INTEGER; v_lb := 1; v_ub := nQ n - 1 |}).
      apply elem_of_app. right. apply elem_of_u_vars. by exists i.
    + intros i Hi. apply sat_out_degree, Hc, elem_of_constraints_of.
      left. by exists i.
    + intros j Hj. apply sat_in_degree, Hc, elem_of_constraints_of.
      right; left. by exists j.
    + intros i j Hi Hj Hij. apply sat_mtz, Hc, elem_of_constraints_of.
      right; right. by exists i, j.
  - intros (Hx & Hu & Hout & Hin & Hmtz). split.
    + intros v [Hv|Hv]%elem_of_app.
      * apply elem_of_x_vars in Hv as (i & j & Hi & Hj & ->).
        apply binary_iff. by apply Hx.
      * apply elem_of_u_vars in Hv as (i & Hi & ->). by apply Hu.
    + intros c [(i & Hi & ->)|[(j & Hj & ->)|(i & j & Hi & Hj & Hij & ->)]]
        %elem_of_constraints_of.
      * by apply sat_out_degree, Hout.
      * by apply sat_in_degree, Hin.
      * by apply sat_mtz, Hmtz.
Qed.

(** ** Tour extraction, for arbitrary solver values *)

Lemma next_stop_Some a n current visited j :
  next_stop a n current visited = Some j ->
  j < n /\ (j ∉ visited) /\ arc_selected a current j = true.
Proof.
  intros Hfind. apply find_some in Hfind as [Hin Hp].
  apply andb_true_iff in Hp as [Hv Ha]. apply bool_decide_eq_true in Hv.
  apply list_elem_of_In, elem_of_seq in Hin. repeat split; [lia|done..].
Qed.

Lemma next_stop_None a n current visited j :
  next_stop a n current visited = None ->
  j < n -> j ∉ visited -> arc_selected a current j = false.
Proof.
  intros Hnone Hj Hv.
  pose proof (find_none _ _ Hnone j) as Hf. simpl in Hf.
  rewrite bool_decide_eq_true_2 // in Hf. apply Hf.
  apply list_elem_of_In, elem_of_seq. lia.
Qed.

Lemma visiting_start a n : 0 < n -> visiting a n 0 [0].
Proof.
  intros Hn. split; [apply NoDup_singleton|done|done| |].
  - intros x ->%list_elem_of_singleton. done.
  - intros [|k] x y; simpl; [|done]. done.
Qed.

Lemma visiting_step a n current vo j :
  visiting a n current vo -> j < n -> j ∉ vo ->
  arc_selected a current j = true ->
  visiting a n j (vo ++ [j]).
Proof.
  intros [Hnd Hhd Hlast Hb Harcs] Hj Hnew Hsel. split.
  - apply NoDup_app. split; [done|]. split; [|apply NoDup_singleton].
    intros x Hx ->%list_elem_of_singleton. done.
  - destruct vo; [done|]. done.
  - by rewrite last_snoc.
  - intros x [Hx| ->%list_elem_of_singleton]%elem_of_app; [by apply Hb|done].
  - intros k x y Hx Hy.
    assert (S k < length (vo ++ [j])) as Hk by by eapply lookup_lt_Some.
    rewrite length_app /= in Hk.
    rewrite lookup_app_l in Hx; [lia|].
    destruct (decide (S k < length vo)) as [Hlt|Hge].
    + rewrite lookup_app_l // in Hy. by eapply Harcs.
    + assert (S k = length vo) as Hk' by lia.
      rewrite lookup_app_r in Hy; [lia|]. rewrite Hk' Nat.sub_diag /= in Hy.
      injection Hy as <-. rewrite last_lookup -Hk' /= Hx in Hlast.
      by injection Hlast as ->.
Qed.

Lemma visiting_length a n current vo : visiting a n current vo -> length vo <= n.
Proof.
  intros [Hnd _ _ Hb _].
  assert (vo ⊆+ seq 0 n) as Hsub.
  { apply NoDup_submseteq; [done|].
    intros x Hx. apply elem_of_seq. specialize (Hb x Hx). lia. }
  apply submseteq_length in Hsub. by rewrite length_seq in Hsub.
Qed.

Lemma visiting_all a n current vo :
  visiting a n current vo -> n <= length vo -> vo ≡ₚ seq 0 n.
Proof.
  intros [Hnd _ _ Hb _] Hlen.
  apply submseteq_length_Permutation; [|by rewrite length_seq].
  apply NoDup_submseteq; [done|].
  intros x Hx. apply elem_of_seq. specialize (Hb x Hx). lia.
Qed.

Lemma follow_arcs_Ok fuel a n current vo vo' :
  visiting a n current vo ->
  follow_arcs fuel a n current vo (list_to_set vo) = Ok vo' ->
  exists last, visiting a n last vo' /\ length vo' = n.
Proof.
  revert current vo. induction fuel as [|fuel IH]; intros current vo Hvis; simpl.
  - rewrite size_list_to_set; [apply Hvis|].
    case_decide as Hlt; [done|]. intros [= <-]. exists current.
    split; [done|]. pose proof (visiting_length _ _ _ _ Hvis). lia.
  - rewrite size_list_to_set; [apply Hvis|].
    case_decide as Hlt.
    + destruct (next_stop a n current (list_to_set vo)) as [j|] eqn:Hnext; [|done].
      apply next_stop_Some in Hnext as (Hj & Hnew & Hsel).
      rewrite elem_of_list_to_set in Hnew.
      replace ({[j]} ∪ list_to_set vo : gset nat)
        with (list_to_set (vo ++ [j]) : gset nat); [|set_solver].
      apply (IH j). by apply (visiting_step a n current).
    + intros [= <-]. exists current.
      split; [done|]. pose proof (visiting_length _ _ _ _ Hvis). lia.
Qed.

(** The fuel of the model is never used up: any two amounts that cover
    the places still to visit give the same outcome. *)
Lemma follow_arcs_fuel fuel1 fuel2 a n current vo (visited : gset nat) :
  n - size visited <= fuel1 -> n - size visited <= fuel2 ->
  follow_arcs fuel1 a n current vo visited
  = follow_arcs fuel2 a n current vo visited.
Proof.
  revert fuel2 current vo visited.
  induction fuel1 as [|fuel1 IH]; intros fuel2 current vo visited H1 H2.
  - destruct fuel2; simpl; case_decide; try done; lia.
  - destruct fuel2 as [|fuel2]; simpl; case_decide as Hlt; try done; [lia|].
    destruct (next_stop a n current visited) as [j|] eqn:Hnext; [|done].
    apply next_stop_Some in Hnext as (Hj & Hnew & Hsel).
    assert (size ({[j]} ∪ visited) = S (size visited)) as Hsize.
    { rewrite size_union; [set_solver|]. by rewrite size_singleton. }
    apply IH; lia.
Qed.

(** ** Tour extraction on a feasible assignment *)

Lemma nQ_S k : (nQ (S k) == nQ k + 1)%Q.
Proof.
  rewrite /nQ Nat2Z.inj_succ /Z.succ inject_Z_plus.
  change (inject_Z 1) with 1%Q. lra.
Qed.

Lemma nQ_nonneg k : (0 <= nQ k)%Q.
Proof. induction k as [|k IH]; [by rewrite /nQ /=|]. rewrite nQ_S. lra. Qed.

Section feasible_tour.
Variable n : nat.
Variable a : assignment.
Hypothesis Hfeas : tsp_feasible n a.

Lemma selected_iff i j :
  i < n -> j < n -> arc_selected a i j = true <-> (a (X i j) == 1)%Q.
Proof.
  intros Hi Hj. destruct Hfeas as (Hbin & _).
  unfold arc_selected. destruct (Qlt_le_dec (1 # 2) (a (X i j))) as [Hlt|Hle].
  - split; [|done]. intros _. destruct (Hbin i j Hi Hj); lra.
  - split; [done|]. intros H1. lra.
Qed.

Lemma out_arc i :
  i < n ->
  exists j, j < n /\ j <> i /\ (a (X i j) == 1)%Q /\
    forall j', j' < n -> j' <> i -> (a (X i j') == 1)%Q -> j' = j.
Proof.
  intros Hi. destruct Hfeas as (Hbin & _ & Hout & _).
  destruct (sumQ_binary_one
              (fun k => if decide (k ≠ i) then a (X i k) else 0%Q) (seq 0 n))
    as (j & Hj & Hone & Huniq).
  - apply NoDup_seq.
  - intros k Hk%elem_of_seq. case_decide; [apply Hbin; lia|by left].
  - by apply Hout.
  - apply elem_of_seq in Hj. exists j. case_decide; [|lra].
    repeat split; [lia|done|done|].
    intros j' Hj' Hne H1. apply Huniq; [apply elem_of_seq; lia|].
    by rewrite decide_True.
Qed.

Lemma in_arc j :
  j < n ->
  exists i, i < n /\ i <> j /\ (a (X i j) == 1)%Q /\
    forall i', i' < n -> i' <> j -> (a (X i' j) == 1)%Q -> i' = i.
Proof.
  intros Hj. destruct Hfeas as (Hbin & _ & _ & Hin & _).
  destruct (sumQ_binary_one
              (fun k => if decide (k ≠ j) then a (X k j) else 0%Q) (seq 0 n))
    as (i & Hi & Hone & Huniq).
  - apply NoDup_seq.
  - intros k Hk%elem_of_seq. case_decide; [apply Hbin; lia|by left].
  - by apply Hin.
  - apply elem_of_seq in Hi. exists i. case_decide; [|lra].
    repeat split; [lia|done|done|].
    intros i' Hi' Hne H1. apply Huniq; [apply elem_of_seq; lia|].
    by rewrite decide_True.
Qed.

Lemma same_target i i' j :
  i < n -> i' < n -> j < n -> i <> j -> i' <> j ->
  (a (X i j) == 1)%Q -> (a (X i' j) == 1)%Q -> i = i'.
Proof.
  intros Hi Hi' Hj Hij Hi'j H1 H2.
  destruct (in_arc j Hj) as (p & _ & _ & _ & Huniq).
  rewrite (Huniq i) // (Huniq i') //.
Qed.

Lemma mtz_increases i j :
  1 <= i < n -> 1 <= j < n -> i <> j -> (a (X i j) == 1)%Q ->
  (a (U i) + 1 <= a (U j))%Q.
Proof.
  intros Hi Hj Hij H1. destruct Hfeas as (_ & _ & _ & _ & Hmtz).
  pose proof (Hmtz i j Hi Hj Hij) as Hm. rewrite H1 in Hm. lra.
Qed.

Lemma unvisited_exists (vo : list nat) :
  NoDup vo -> length vo < n -> exists w, w < n /\ w ∉ vo.
Proof.
  intros Hnd Hlen.
  destruct (decide (Exists (fun w => w ∉ vo) (seq 0 n))) as [Hex|Hall].
  - apply Exists_exists in Hex as (w & Hw%elem_of_seq & Hnew).
    exists w. split; [lia|done].
  - exfalso. apply not_Exists_Forall in Hall; [|apply _].
    rewrite Forall_forall in Hall.
    assert (seq 0 n ⊆+ vo) as Hsub.
    { apply NoDup_submseteq; [apply NoDup_seq|].
      intros x Hx. specialize (Hall x Hx). simpl in Hall.
      by destruct (decide (x ∈ vo)). }
    apply submseteq_length in Hsub. rewrite length_seq in Hsub. lia.
Qed.

Lemma visiting_predecessor current vo m x :
  visiting a n current vo -> vo !! S m = Some x ->
  exists p, vo !! m = Some p /\ p < n /\ x < n /\ p <> x /\ (a (X p x) == 1)%Q.
Proof.
  intros [Hnd _ _ Hb Harcs] Hx.
  destruct (lookup_lt_is_Some_2 vo m) as [p Hp].
  { apply lookup_lt_Some in Hx. lia. }
  assert (p < n) by (apply Hb, list_elem_of_lookup; eauto).
  assert (x < n) by (apply Hb, list_elem_of_lookup; eauto).
  exists p. repeat split; [done..| |].
  - intros ->. pose proof (NoDup_lookup _ _ _ _ Hnd Hp Hx). lia.
  - apply selected_iff; [done..|]. by eapply Harcs.
Qed.

(** Subtour elimination: the arcs cannot return to 0 before every
    location is visited. *)
Lemma no_early_return current vo :
  visiting a n current vo -> length vo < n -> current <> 0 ->
  ~ (a (X current 0) == 1)%Q.
Proof.
  intros Hvis Hlen Hcur Hback.
  pose proof Hvis as [Hnd Hhd Hlast Hb Harcs].
  assert (0 ∈ vo) as H0. { apply list_elem_of_lookup. exists 0. by rewrite -head_lookup. }
  assert (current ∈ vo) as Hc.
  { apply list_elem_of_lookup. exists (pred (length vo)). by rewrite -last_lookup. }
  assert (forall w s, w < n -> w ∉ vo -> s < n -> s <> w ->
            (a (X w s) == 1)%Q -> s ∉ vo) as Hclosed.
  { intros w s Hw Hnew Hs Hsw Harc [m Hm]%list_elem_of_lookup.
    destruct m as [|m].
    - rewrite -head_lookup Hhd in Hm. injection Hm as <-.
      assert (w = current); [|by subst w].
      apply (same_target w current 0); try done. by apply Hb.
    - destruct (visiting_predecessor current vo m s Hvis Hm)
        as (p & Hp & Hpn & _ & Hps & Hparc).
      assert (w = p); [by apply (same_target w p s)|]. subst w.
      apply Hnew, list_elem_of_lookup. eauto. }
  assert (forall k, exists w, w < n /\ (w ∉ vo) /\ (nQ k <= a (U w))%Q) as Hgrow.
  { induction k as [|k (w & Hw & Hnew & Hu)].
    - destruct (unvisited_exists vo Hnd Hlen) as (w & Hw & Hnew).
      exists w. split; [done|]. split; [done|].
      destruct Hfeas as (_ & Hub & _). destruct (Hub w Hw) as (H1 & _).
      change (nQ 0) with 0%Q. lra.
    - destruct (out_arc w Hw) as (s & Hs & Hsw & Harc & _).
      pose proof (Hclosed w s Hw Hnew Hs Hsw Harc) as Hsnew.
      exists s. split; [done|]. split; [done|].
      assert (w <> 0) by (by intros ->). assert (s <> 0) by (by intros ->).
      pose proof (mtz_increases w s ltac:(lia) ltac:(lia) ltac:(done) Harc).
      rewrite nQ_S. lra. }
  destruct (Hgrow n) as (w & Hw & _ & Hu).
  destruct Hfeas as (_ & Hub & _). destruct (Hub w Hw) as (_ & H2 & _). lra.
Qed.

Lemma successor_unvisited current vo j :
  visiting a n current vo -> length vo < n ->
  j < n -> j <> current -> (a (X current j) == 1)%Q -> j ∉ vo.
Proof.
  intros Hvis Hlen Hj Hjc Harc [m Hm]%list_elem_of_lookup.
  pose proof Hvis as [Hnd Hhd Hlast Hb Harcs].
  assert (vo !! pred (length vo) = Some current) as Hc by by rewrite -last_lookup.
  destruct m as [|m].
  - rewrite -head_lookup Hhd in Hm. injection Hm as <-.
    by apply (no_early_return current vo).
  - destruct (visiting_predecessor current vo m j Hvis Hm)
      as (p & Hp & Hpn & _ & Hpj & Hparc).
    assert (current = p) as <-.
    { apply (same_target current p j); try done.
      apply Hb, list_elem_of_lookup. eauto. }
    pose proof (NoDup_lookup _ _ _ _ Hnd Hp Hc).
    apply lookup_lt_Some in Hm. lia.
Qed.

Lemma next_stop_total current vo :
  visiting a n current vo -> length vo < n ->
  exists j, next_stop a n current (list_to_set vo) = Some j /\
    j < n /\ j <> current /\ (a (X current j) == 1)%Q /\
    forall j', j' < n -> j' <> current -> (a (X current j') == 1)%Q -> j' = j.
Proof.
  intros Hvis Hlen.
  pose proof Hvis as [Hnd Hhd Hlast Hb Harcs].
  assert (current ∈ vo) as Hc.
  { apply list_elem_of_lookup. exists (pred (length vo)). by rewrite -last_lookup. }
  destruct (out_arc current (Hb _ Hc)) as (j & Hj & Hjc & Harc & Huniq).
  pose proof (successor_unvisited current vo j Hvis Hlen Hj Hjc Harc) as Hnew.
  destruct (next_stop a n current (list_to_set vo)) as [j'|] eqn:Hnext.
  - apply next_stop_Some in Hnext as (Hj' & Hnew' & Hsel).
    rewrite elem_of_list_to_set in Hnew'.
    assert (j' = j) as ->; [|by exists j].
    apply Huniq; [done| |].
    + intros ->. done.
    + apply selected_iff; [by apply Hb|done..].
  - exfalso.
    pose proof (next_stop_None _ _ _ _ j Hnext Hj) as Hf.
    rewrite elem_of_list_to_set in Hf. specialize (Hf Hnew).
    apply (selected_iff current j (Hb _ Hc) Hj) in Harc. congruence.
Qed.

Lemma follow_arcs_total fuel current vo :
  visiting a n current vo -> n <= length vo + fuel ->
  exists vo', follow_arcs fuel a n current vo (list_to_set vo) = Ok vo'.
Proof.
  revert current vo.
  induction fuel as [|fuel IH]; intros current vo Hvis Hfuel; simpl.
  - rewrite size_list_to_set; [apply Hvis|].
    rewrite decide_False; [lia|]. by eexists.
  - rewrite size_list_to_set; [apply Hvis|].
    case_decide as Hlt; [|by eexists].
    destruct (next_stop_total current vo Hvis Hlt)
      as (j & -> & Hj & Hjc & Harc & _).
    pose proof (successor_unvisited current vo j Hvis Hlt Hj Hjc Harc) as Hnew.
    replace ({[j]} ∪ list_to_set vo : gset nat)
      with (list_to_set (vo ++ [j]) : gset nat); [|set_solver].
    apply (IH j).
    + apply (visiting_step a n current); [done..|].
      apply selected_iff; [|done..]. apply Hvis.
      apply list_elem_of_lookup. exists (pred (length vo)).
      rewrite -last_lookup. apply Hvis.
    + rewrite length_app /=. lia.
Qed.
End feasible_tour.

(** ** Route assembly *)

Lemma py_sum_sumQ l : (py_sum l == sumQ (fun x => x) l)%Q.
Proof.
  unfold py_sum.
  assert (forall acc, (foldl Qplus acc l == acc + sumQ (fun x => x) l)%Q) as Hgen.
  { induction l as [|x l IH]; intros acc; simpl.
    - rewrite sumQ_nil. lra.
    - rewrite IH sumQ_cons. lra. }
  rewrite Hgen. lra.
Qed.

Lemma py_get_last {A} (l : list A) : py_get l (-1) = last l.
Proof.
  unfold py_get. rewrite last_lookup.
  destruct l as [|x l]; simpl length; repeat case_decide; try lia; try done.
  f_equal. lia.
Qed.

Lemma py_get_pred {A} (l : list A) i : 0 < i -> py_get l (Z.of_nat i - 1) = l !! (i - 1).
Proof.
  intros Hi. unfold py_get. case_decide; [|lia]. f_equal. lia.
Qed.

Lemma mapM_lookup_Some {A B} (f : A -> option B) l k i y :
  mapM f l = Some k -> k !! i = Some y -> exists x, l !! i = Some x /\ f x = Some y.
Proof.
  intros Hm%mapM_Some Hy.
  destruct (Forall2_lookup_r _ _ _ _ _ Hm Hy) as (x & Hx & Hf). eauto.
Qed.

Lemma mapM_Some_length {A B} (f : A -> option B) l k :
  mapM f l = Some k -> length k = length l.
Proof. intros Hm%mapM_Some. symmetry. by eapply Forall2_length. Qed.

Lemma segments_of_Some d vo segs :
  segments_of d vo = Some segs ->
  exists legs l back,
    segs = legs ++ [back] /\ last vo = Some l /\ mget d l 0 = Some back /\
    length legs = length vo - 1 /\
    forall i leg, legs !! i = Some leg ->
      exists x y, vo !! i = Some x /\ vo !! S i = Some y /\ mget d x y = Some leg.
Proof.
  unfold segments_of.
  destruct (mapM _ (range 0 (length vo - 1))) as [legs|] eqn:Hlegs; simpl; [|done].
  rewrite py_get_last. destruct (last vo) as [l|]; simpl; [|done].
  destruct (mget d l 0) as [back|] eqn:Hback; simpl; [|done].
  intros [= <-]. exists legs, l, back.
  split; [done|]. split; [done|]. split; [done|]. split.
  - rewrite (mapM_Some_length _ _ _ Hlegs) /range length_seq. lia.
  - intros i leg Hleg.
    destruct (mapM_lookup_Some _ _ _ _ _ Hlegs Hleg) as (k & Hk & Hf).
    apply range_lookup in Hk as [-> _]. simpl in Hf.
    destruct (vo !! i) as [x|]; simpl in Hf; [|done].
    replace (i + 1) with (S i) in Hf by lia.
    destruct (vo !! S i) as [y|]; simpl in Hf; [|done].
    by exists x, y.
Qed.

Lemma assemble_Ok st pl d vo r :
  assemble st pl d vo = Ok r ->
  exists optimized segs,
    mapM (fun i => py_get pl (Z.of_nat i - 1)) (drop 1 vo) = Some optimized /\
    segments_of d vo = Some segs /\
    r = {| station := st; places := optimized;
           total_distance := py_sum segs;
           segment_distances := take (length segs - 1) segs |}.
Proof.
  unfold assemble.
  destruct (mapM _ (drop 1 vo)) as [optimized|]; [|done].
  destruct (segments_of d vo) as [segs|]; [|done].
  intros [= <-]. by exists optimized, segs.
Qed.

Lemma optimize_route_inv optimize st pl d r :
  optimize_route optimize st pl d = Ok r ->
  exists model vo l,
    tsp_model d = Some model /\
    accepted (out_status (optimize model OPTIMIZATION_TIME_LIMIT)) /\
    visit_order_of (out_x (optimize model OPTIMIZATION_TIME_LIMIT)) (length d) = Ok vo /\
    assemble st pl d vo = Ok r /\
    visiting (out_x (optimize model OPTIMIZATION_TIME_LIMIT)) (length d) l vo /\
    length vo = length d.
Proof.
  unfold optimize_route.
  destruct (tsp_model d) as [model|]; [|done].
  set (o := optimize model OPTIMIZATION_TIME_LIMIT).
  assert (forall vo, visit_order_of (out_x o) (length d) = Ok vo ->
            assemble st pl d vo = Ok r ->
            exists l, visiting (out_x o) (length d) l vo /\ length vo = length d)
    as Hvis.
  { intros vo Hvo Hr. apply assemble_Ok in Hr as (_ & segs & _ & Hsegs & _).
    apply segments_of_Some in Hsegs as (_ & l & back & _ & _ & Hback & _).
    assert (0 < length d) as Hn.
    { unfold mget in Hback. destruct (d !! l) eqn:Hl; [|done].
      apply lookup_lt_Some in Hl. lia. }
    unfold visit_order_of in Hvo.
    replace ({[0]} : gset nat) with (list_to_set [0] : gset nat) in Hvo
      by set_solver.
    eapply follow_arcs_Ok; [|exact Hvo]. by apply visiting_start. }
  destruct (out_status o) eqn:Hst; try done;
    (destruct (visit_order_of (out_x o) (length d)) as [vo| |] eqn:Hvo; [|done..]);
    intros Hr; destruct (Hvis vo eq_refl Hr) as (l & Hv & Hlen);
    exists model, vo, l;
    (split; [done|]); (split; [unfold accepted; auto|]);
    (split; [done|]); (split; [done|]); split; done.
Qed.

Lemma visit_order_of_feasible n a :
  0 < n -> tsp_feasible n a ->
  exists vo l, visit_order_of a n = Ok vo /\ visiting a n l vo /\ length vo = n.
Proof.
  intros Hn Hfeas. unfold visit_order_of.
  replace ({[0]} : gset nat) with (list_to_set [0] : gset nat) by set_solver.
  destruct (follow_arcs_total n a Hfeas n 0 [0]) as [vo Hvo];
    [by apply visiting_start|simpl; lia|].
  destruct (follow_arcs_Ok n a n 0 [0] vo) as (l & Hvis & Hlen);
    [by apply visiting_start|done|].
  by exists vo, l.
Qed.

Lemma contract_feasible d model o :
  tsp_model d = Some model -> solver_contract model o ->
  accepted (out_status o) -> tsp_feasible (length d) (out_x o).
Proof.
  intros Hmodel [Hopt Hfeas] [Hst|Hst].
  - apply (feasible_tsp d model); [done|]. by apply Hopt.
  - apply (feasible_tsp d model); [done|]. by apply Hfeas.
Qed.

(** C1. Whenever optimize_route returns a route, the visiting order it
    extracted is a permutation of 0 .. n-1 without repetition that begins
    at 0. Moreover, on a non-empty matrix, whenever the solver reports an
    optimal or a feasible solution (and honours its contract), the
    extraction does return: it visits all n locations, and at every step
    the stop it moves to is the only location other than the current one
    whose arc from the current one is selected (x > 0.5). *)
Theorem visit_order_is_permutation optimize st pl d :
  (forall r, optimize_route optimize st pl d = Ok r ->
     exists model vo,
       tsp_model d = Some model /\
       visit_order_of (out_x (optimize model OPTIMIZATION_TIME_LIMIT)) (length d)
         = Ok vo /\
       assemble st pl d vo = Ok r /\
       vo ≡ₚ seq 0 (length d) /\ NoDup vo /\ head vo = Some 0) /\
  (forall model, tsp_model d = Some model -> 0 < length d ->
     solver_contract model (optimize model OPTIMIZATION_TIME_LIMIT) ->
     accepted (out_status (optimize model OPTIMIZATION_TIME_LIMIT)) ->
     exists vo,
       visit_order_of (out_x (optimize model OPTIMIZATION_TIME_LIMIT)) (length d)
         = Ok vo /\
       vo ≡ₚ seq 0 (length d) /\ NoDup vo /\ head vo = Some 0 /\
       forall k x y, vo !! k = Some x -> vo !! S k = Some y ->
         forall j, j < length d -> j <> x ->
           arc_selected (out_x (optimize model OPTIMIZATION_TIME_LIMIT)) x j = true
           <-> j = y).
Proof.
  split.
  - intros r (model & vo & l & Hmodel & _ & Hvo & Hr & Hvis & Hlen)%optimize_route_inv.
    exists model, vo. repeat (split; [done|]). split; [|split; apply Hvis].
    eapply visiting_all; [done|lia].
  - intros model Hmodel Hn Hcontract Hacc.
    set (o := optimize model OPTIMIZATION_TIME_LIMIT) in *.
    pose proof (contract_feasible d model o Hmodel Hcontract Hacc) as Hfeas.
    destruct (visit_order_of_feasible _ _ Hn Hfeas) as (vo & l & Hvo & Hvis & Hlen).
    exists vo. split; [done|]. split; [eapply visiting_all; [done|lia]|].
    split; [apply Hvis|]. split; [apply Hvis|].
    intros k x y Hx Hy j Hj Hjx.
    assert (x < length d) as Hxn.
    { eapply visiting_bound; [done|]. apply list_elem_of_lookup. eauto. }
    assert (y < length d) as Hyn.
    { eapply visiting_bound; [done|]. apply list_elem_of_lookup. eauto. }
    assert (y <> x) as Hyx.
    { intros ->. pose proof (NoDup_lookup _ _ _ _ (visiting_nodup _ _ _ _ Hvis) Hx Hy).
      lia. }
    pose proof (visiting_arcs _ _ _ _ Hvis k x y Hx Hy) as Hsel.
    destruct (out_arc _ _ Hfeas x Hxn) as (s & _ & _ & _ & Huniq).
    split.
    + intros Hj1.
      apply (selected_iff _ _ Hfeas x j Hxn Hj) in Hj1.
      apply (selected_iff _ _ Hfeas x y Hxn Hyn) in Hsel.
      by rewrite (Huniq j Hj Hjx Hj1) (Huniq y Hyn Hyx Hsel).
    + by intros ->.
Qed.

(** C7. Whenever optimize_route returns a route for a matrix over n
    locations, segment_distances has n - 1 entries, the i-th being
    distance[visit_order[i]][visit_order[i+1]], and total_distance is the
    sum of those entries plus the leg from the last visited location back
    to index 0, which segment_distances leaves out. *)
Theorem route_totals optimize st pl d r :
  optimize_route optimize st pl d = Ok r ->
  exists model vo l back,
    tsp_model d = Some model /\
    visit_order_of (out_x (optimize model OPTIMIZATION_TIME_LIMIT)) (length d)
      = Ok vo /\
    length vo = length d /\
    length (segment_distances r) = length d - 1 /\
    (forall i, i < length d - 1 ->
       exists x y, vo !! i = Some x /\ vo !! S i = Some y /\
         segment_distances r !! i = mget d x y) /\
    last vo = Some l /\ mget d l 0 = Some back /\
    (total_distance r == sumQ (fun x => x) (segment_distances r) + back)%Q.
Proof.
  intros (model & vo & l & Hmodel & _ & Hvo & Hr & Hvis & Hlen)%optimize_route_inv.
  apply assemble_Ok in Hr as (optimized & segs & _ & Hsegs & ->).
  apply segments_of_Some in Hsegs
    as (legs & l' & back & -> & Hlast & Hback & Hlegs & Hleg).
  assert (take (length (legs ++ [back]) - 1) (legs ++ [back]) = legs) as Htake.
  { rewrite length_app /= Nat.add_sub. by rewrite take_app_length. }
  exists model, vo, l', back. simpl. rewrite Htake.
  repeat (split; [done|]). split; [lia|]. split; [|split; [done|split; [done|]]].
  - intros i Hi.
    destruct (lookup_lt_is_Some_2 legs i) as [leg Hl]; [lia|].
    destruct (Hleg i leg Hl) as (x & y & Hx & Hy & Hxy).
    exists x, y. by rewrite Hl Hxy.
  - rewrite py_sum_sumQ sumQ_app sumQ_cons sumQ_nil. lra.
Qed.

(** ** Tours and their cost *)

Lemma eval_objective n d obj a :
  objective_of n d = Some obj -> (eval a obj == objective_value d n a)%Q.
Proof.
  unfold objective_of, objective_value. fold (all_pairs n).
  generalize (all_pairs n) as l. intros l Hobj%mapM_Some.
  induction Hobj as [|e t l obj He _ IH].
  - rewrite eval_sumQ !sumQ_nil. lra.
  - rewrite eval_sumQ !sumQ_cons -eval_sumQ IH.
    destruct (mget d e.1 e.2) as [c|] eqn:Hc; simpl in He; [|done].
    injection He as <-. rewrite /dist Hc /=. lra.
Qed.

Lemma elem_of_all_pairs n i j : (i, j) ∈ all_pairs n <-> i < n /\ j < n.
Proof.
  unfold all_pairs. rewrite list_elem_of_bind. split.
  - intros (i' & (j' & [= -> ->]%list_elem_of_singleton & Hj%elem_of_seq)
              %list_elem_of_bind & Hi%elem_of_seq). lia.
  - intros [Hi Hj]. exists i. split; [|apply elem_of_seq; lia].
    apply list_elem_of_bind. exists j. split; [left|apply elem_of_seq; lia].
Qed.

Lemma NoDup_all_pairs n : NoDup (all_pairs n).
Proof.
  unfold all_pairs. apply NoDup_bind; [| |apply NoDup_seq].
  - intros i1 i2 e _ _ (j1 & ->%list_elem_of_singleton & _)%list_elem_of_bind
      (j2 & [= -> _]%list_elem_of_singleton & _)%list_elem_of_bind. done.
  - intros i _. apply NoDup_bind; [| |apply NoDup_seq].
    + intros j1 j2 e _ _ ->%list_elem_of_singleton [= ->]%list_elem_of_singleton.
      done.
    + intros j _. apply NoDup_singleton.
Qed.

(** Summing over a sub-list of distinct elements. *)
Lemma sumQ_sublist {A} (f : A -> Q) (l k : list A) :
  NoDup l -> (forall x, x ∈ l -> x ∈ k) ->
  exists rest, k ≡ₚ l ++ rest /\ (sumQ f k == sumQ f l + sumQ f rest)%Q.
Proof.
  intros Hnd Hsub.
  destruct (submseteq_Permutation l k) as [rest Hrest];
    [by apply NoDup_submseteq|].
  exists rest. split; [done|]. by rewrite (sumQ_perm f _ _ Hrest) sumQ_app.
Qed.

Lemma index_of_lookup l k x : NoDup l -> l !! k = Some x -> index_of x l = k.
Proof.
  intros Hnd. revert k. induction Hnd as [|y l Hy Hnd IH]; intros k; [done|].
  destruct k as [|k]; simpl.
  - intros [= ->]. by rewrite decide_True.
  - intros Hx. rewrite decide_False; [|by rewrite (IH k Hx)].
    intros ->. apply Hy, list_elem_of_lookup. eauto.
Qed.

Lemma length_successors p : length (successors p) = length p.
Proof. rewrite /successors length_app length_drop length_take. lia. Qed.

Lemma successors_perm p : successors p ≡ₚ p.
Proof. rewrite /successors Permutation_app_comm. by rewrite take_drop. Qed.

Lemma successors_lookup p k :
  S k < length p -> successors p !! k = p !! S k.
Proof.
  intros Hk. rewrite /successors lookup_app_l; [rewrite length_drop; lia|].
  by rewrite lookup_drop.
Qed.

Lemma successors_lookup_last p k :
  S k = length p -> successors p !! k = p !! 0.
Proof.
  intros Hk. rewrite /successors lookup_app_r; [rewrite length_drop; lia|].
  rewrite length_drop. replace (k - (length p - 1)) with 0 by lia.
  rewrite lookup_take_lt; [lia|done].
Qed.

Lemma arcs_lookup p k x y :
  arcs p !! k = Some (x, y) <-> p !! k = Some x /\ successors p !! k = Some y.
Proof.
  rewrite /arcs lookup_zip_with_Some. split.
  - by intros (x' & y' & [= <- <-] & Hx & Hy).
  - intros [Hx Hy]. by exists x, y.
Qed.

Lemma length_arcs p : length (arcs p) = length p.
Proof. rewrite /arcs length_zip_with length_successors. lia. Qed.

Lemma arcs_rotate x t : arcs (t ++ [x]) ≡ₚ arcs (x :: t).
Proof.
  destruct t as [|y t]; [done|].
  assert (arcs (x :: y :: t) = (x, y) :: zip (y :: t) (t ++ [x])) as -> by done.
  assert (arcs ((y :: t) ++ [x]) = zip (y :: t) (t ++ [x]) ++ [(x, y)]) as ->.
  { rewrite /arcs /successors.
    change (drop 1 ((y :: t) ++ [x])) with (t ++ [x]).
    change (take 1 ((y :: t) ++ [x])) with [y].
    rewrite zip_with_app; [rewrite length_app /=; lia|]. done. }
  by rewrite Permutation_app_comm.
Qed.

Lemma arcs_rotate_app l1 l2 : arcs (l1 ++ l2) ≡ₚ arcs (l2 ++ l1).
Proof.
  revert l2. induction l1 as [|x l1 IH]; intros l2; [by rewrite app_nil_r|].
  rewrite -(arcs_rotate x (l1 ++ l2)) -(assoc_L (++)) IH.
  by rewrite -(assoc_L (++)).
Qed.

(** ** The assignment of a tour is feasible *)

Section tour_is_feasible.
Variable n : nat.
Variable p : list nat.
Hypothesis Hperm : p ≡ₚ seq 0 n.
Hypothesis Hhead : head p = Some 0.
Hypothesis Hn : 2 <= n.

Let a := tour_assignment p.

Lemma tour_nodup : NoDup p.
Proof. rewrite Hperm. apply NoDup_seq. Qed.

Lemma tour_length : length p = n.
Proof. by rewrite Hperm length_seq. Qed.

Lemma tour_elem i : i ∈ p <-> i < n.
Proof. rewrite Hperm elem_of_seq. lia. Qed.

Lemma successors_nodup : NoDup (successors p).
Proof. rewrite successors_perm. apply tour_nodup. Qed.

Lemma arc_ends i j : (i, j) ∈ arcs p -> i < n /\ j < n /\ i <> j.
Proof.
  intros [k [Hi Hj]%arcs_lookup]%list_elem_of_lookup.
  assert (i ∈ p) as Hip by (apply list_elem_of_lookup; eauto).
  assert (j ∈ successors p) as Hjp by (apply list_elem_of_lookup; eauto).
  rewrite successors_perm in Hjp.
  apply tour_elem in Hip, Hjp. repeat split; [done..|].
  intros ->. apply lookup_lt_Some in Hi as Hk. rewrite tour_length in Hk.
  destruct (decide (S k < n)) as [Hlt|Hge].
  - rewrite (successors_lookup p k) in Hj; [by rewrite tour_length|].
    pose proof (NoDup_lookup _ _ _ _ tour_nodup Hi Hj). lia.
  - rewrite (successors_lookup_last p k) in Hj; [rewrite tour_length; lia|].
    pose proof (NoDup_lookup _ _ _ _ tour_nodup Hi Hj). lia.
Qed.

Lemma arc_from i :
  i < n -> exists j, forall j', (i, j') ∈ arcs p <-> j' = j.
Proof.
  intros [k Hk]%tour_elem%list_elem_of_lookup.
  destruct (lookup_lt_is_Some_2 (successors p) k) as [j Hj].
  { rewrite length_successors. by eapply lookup_lt_Some. }
  exists j. intros j'. split.
  - intros [k' [Hi' Hj']%arcs_lookup]%list_elem_of_lookup.
    pose proof (NoDup_lookup _ _ _ _ tour_nodup Hk Hi'). subst k'. congruence.
  - intros ->. apply list_elem_of_lookup. exists k. by apply arcs_lookup.
Qed.

Lemma arc_to j :
  j < n -> exists i, forall i', (i', j) ∈ arcs p <-> i' = i.
Proof.
  intros Hj. assert (j ∈ successors p) as [k Hk]%list_elem_of_lookup.
  { rewrite successors_perm. by apply tour_elem. }
  destruct (lookup_lt_is_Some_2 p k) as [i Hi].
  { rewrite -length_successors. by eapply lookup_lt_Some. }
  exists i. intros i'. split.
  - intros [k' [Hi' Hj']%arcs_lookup]%list_elem_of_lookup.
    pose proof (NoDup_lookup _ _ _ _ successors_nodup Hk Hj'). subst k'.
    congruence.
  - intros ->. apply list_elem_of_lookup. exists k. by apply arcs_lookup.
Qed.

Lemma tour_position i : i < n -> i <> 0 -> 1 <= index_of i p < n.
Proof.
  intros [k Hk]%tour_elem%list_elem_of_lookup Hi.
  rewrite (index_of_lookup _ _ _ tour_nodup Hk).
  apply lookup_lt_Some in Hk as Hlt. rewrite tour_length in Hlt.
  split; [|done]. destruct k; [|lia].
  rewrite -head_lookup Hhead in Hk. congruence.
Qed.

Lemma arc_positions i j :
  (i, j) ∈ arcs p -> j <> 0 -> index_of j p = S (index_of i p).
Proof.
  intros [k [Hi Hj]%arcs_lookup]%list_elem_of_lookup Hj0.
  apply lookup_lt_Some in Hi as Hk. rewrite tour_length in Hk.
  rewrite (index_of_lookup _ _ _ tour_nodup Hi).
  destruct (decide (S k < n)) as [Hlt|Hge].
  - rewrite (successors_lookup p k) in Hj; [by rewrite tour_length|].
    by rewrite (index_of_lookup _ _ _ tour_nodup Hj).
  - rewrite (successors_lookup_last p k) in Hj; [rewrite tour_length; lia|].
    rewrite -head_lookup Hhead in Hj. congruence.
Qed.

Lemma nQ_le i j : i <= j -> (nQ i <= nQ j)%Q.
Proof.
  intros Hij. rewrite /nQ -Zle_Qle. lia.
Qed.

Lemma tour_feasible : tsp_feasible n a.
Proof.
  split; [|split; [|split; [|split]]].
  - intros i j _ _. rewrite /a /=. case_decide; [by right|by left].
  - intros i Hi. rewrite /a /=. case_decide as H0.
    + split; [lra|]. split; [|by exists 1%Z].
      pose proof (nQ_le 2 n Hn) as H2. change (nQ 2) with 2%Q in H2. lra.
    + destruct (tour_position i Hi H0) as [H1 H2].
      pose proof (nQ_le 1 _ H1) as H1'. change (nQ 1) with 1%Q in H1'.
      pose proof (nQ_le (S (index_of i p)) n ltac:(lia)) as H2'.
      rewrite nQ_S in H2'.
      split; [done|]. split; [lra|]. by eexists.
  - intros i Hi. destruct (arc_from i Hi) as [j Hj]. rewrite /degree_sum.
    pose proof (arc_ends i j ltac:(by apply Hj)) as (_ & Hjn & Hij).
    rewrite (sumQ_ext _ (fun k => if decide (k = j) then 1%Q else 0%Q)).
    + intros k _. rewrite /a /=. repeat case_decide; try lra.
      all: exfalso; naive_solver.
    + apply (sumQ_indicator (fun k => k = j) (seq 0 n) j); [apply NoDup_seq| |done].
      apply elem_of_seq. lia.
  - intros j Hj. destruct (arc_to j Hj) as [i Hi]. rewrite /degree_sum.
    pose proof (arc_ends i j ltac:(by apply Hi)) as (Hin & _ & Hij).
    rewrite (sumQ_ext _ (fun k => if decide (k = i) then 1%Q else 0%Q)).
    + intros k _. rewrite /a /=. repeat case_decide; try lra.
      all: exfalso; naive_solver.
    + apply (sumQ_indicator (fun k => k = i) (seq 0 n) i); [apply NoDup_seq| |done].
      apply elem_of_seq. lia.
  - intros i j Hi Hj Hij. rewrite /a /=.
    destruct (decide (i = 0)); [lia|]. destruct (decide (j = 0)); [lia|].
    destruct (tour_position i ltac:(lia) ltac:(lia)) as [Hi1 Hi2].
    destruct (tour_position j ltac:(lia) ltac:(lia)) as [Hj1 Hj2].
    case_decide as Harc.
    + rewrite (arc_positions i j Harc ltac:(lia)) nQ_S. lra.
    + pose proof (nQ_le 1 _ Hj1) as H1'. change (nQ 1) with 1%Q in H1'.
      pose proof (nQ_le (S (index_of i p)) n ltac:(lia)) as H2'.
      rewrite nQ_S in H2'. lra.
Qed.

Lemma tour_objective d :
  (objective_value d n a == cycle_cost d p)%Q.
Proof.
  unfold objective_value, cycle_cost.
  assert (NoDup (arcs p)) as Hnd.
  { apply NoDup_alt. intros k1 k2 [i j] [Hi1 _]%arcs_lookup [Hi2 _]%arcs_lookup.
    by apply (NoDup_lookup _ _ _ _ tour_nodup Hi1 Hi2). }
  destruct (sumQ_sublist
              (fun e => (dist d e.1 e.2 * a (X e.1 e.2))%Q)
              (arcs p) (all_pairs n) Hnd) as (rest & Hrest & ->).
  { intros [i j] Hij. apply elem_of_all_pairs.
    by destruct (arc_ends i j Hij) as (? & ? & _). }
  rewrite (sumQ_zero _ rest).
  - intros [i j] Hij. rewrite /a /=. rewrite decide_False; [|lra].
    intros Harc. pose proof (NoDup_all_pairs n) as Hall.
    rewrite Hrest in Hall. apply NoDup_app in Hall as (_ & Hdisj & _).
    by apply (Hdisj (i, j)).
  - rewrite (sumQ_ext _ (fun e => dist d e.1 e.2) (arcs p)); [|lra].
    intros [i j] Hij. rewrite /a /=. rewrite decide_True //. lra.
Qed.
End tour_is_feasible.

(** ** When the optimizer fails *)

Lemma objective_of_shape n d : shape n d -> is_Some (objective_of n d).
Proof.
  intros Hs. unfold objective_of. apply mapM_is_Some, Forall_forall.
  intros [i j] [Hi Hj]%elem_of_all_pairs. simpl.
  destruct (mget_lt n d i j Hs Hi Hj) as [c ->]. by eexists.
Qed.

Lemma tsp_model_shape n d : shape n d -> is_Some (tsp_model d).
Proof.
  intros Hs. unfold tsp_model. rewrite (proj1 Hs).
  destruct (objective_of_shape n d Hs) as [obj ->]. by eexists.
Qed.

Lemma follow_arcs_no_raise fuel a n current vo visited e :
  follow_arcs fuel a n current vo visited <> Raise e.
Proof.
  revert current vo visited.
  induction fuel as [|fuel IH]; intros current vo visited; simpl;
    case_decide; try done.
  destruct (next_stop a n current visited); [apply IH|done].
Qed.

Lemma assemble_raises st pl d vo e : assemble st pl d vo = Raise e -> e = IndexError.
Proof.
  unfold assemble.
  destruct (mapM _ (drop 1 vo)); [|by intros [= <-]].
  destruct (segments_of d vo); [done|by intros [= <-]].
Qed.

Lemma assemble_total st pl d n a l vo :
  visiting a n l vo -> length vo = n -> shape n d -> 0 < n ->
  n - 1 <= length pl ->
  exists r, assemble st pl d vo = Ok r.
Proof.
  intros Hvis Hlen Hs Hn Hpl. pose proof Hvis as [Hnd Hhd Hlast Hb Harcs].
  unfold assemble.
  destruct (mapM (fun i => py_get pl (Z.of_nat i - 1)) (drop 1 vo))
    as [optimized|] eqn:Hopt.
  2:{ exfalso. apply eq_None_not_Some in Hopt. apply Hopt.
      apply mapM_is_Some, Forall_forall. intros i [k Hk]%list_elem_of_lookup.
      rewrite lookup_drop in Hk. simpl.
      assert (i < n) by (apply Hb, list_elem_of_lookup; eauto).
      assert (i <> 0).
      { intros ->. rewrite head_lookup in Hhd.
        pose proof (NoDup_lookup _ _ _ _ Hnd Hk Hhd). lia. }
      rewrite py_get_pred; [lia|]. apply lookup_lt_is_Some_2. lia. }
  destruct (segments_of d vo) as [segs|] eqn:Hsegs; [by eexists|].
  exfalso. unfold segments_of in Hsegs.
  destruct (mapM _ (range 0 (length vo - 1))) as [legs|] eqn:Hlegs.
  2:{ apply eq_None_not_Some in Hlegs. apply Hlegs.
      apply mapM_is_Some, Forall_forall. intros i [k Hk]%list_elem_of_lookup.
      apply range_lookup in Hk as [-> Hk]. simpl.
      destruct (lookup_lt_is_Some_2 vo k) as [x Hx]; [lia|].
      destruct (lookup_lt_is_Some_2 vo (k + 1)) as [y Hy]; [lia|].
      rewrite Hx Hy /=. apply (mget_lt n); [done|..];
        apply Hb, list_elem_of_lookup; eauto. }
  simpl in Hsegs. rewrite py_get_last Hlast /= in Hsegs.
  destruct (mget_lt n d l 0 Hs) as [back Hback]; [|done|].
  { apply Hb, list_elem_of_lookup. exists (pred (length vo)).
    by rewrite -last_lookup. }
  by rewrite Hback in Hsegs.
Qed.

Lemma optimize_route_accepted optimize st pl d n model :
  tsp_model d = Some model -> shape n d -> 0 < n -> n - 1 <= length pl ->
  solver_contract model (optimize model OPTIMIZATION_TIME_LIMIT) ->
  accepted (out_status (optimize model OPTIMIZATION_TIME_LIMIT)) ->
  exists r, optimize_route optimize st pl d = Ok r.
Proof.
  intros Hmodel Hs Hn Hpl Hcontract Hacc.
  pose proof (contract_feasible d model _ Hmodel Hcontract Hacc) as Hfeas.
  rewrite (proj1 Hs) in Hfeas.
  destruct (visit_order_of_feasible _ _ Hn Hfeas) as (vo & l & Hvo & Hvis & Hlen).
  destruct (assemble_total st pl d n _ l vo Hvis Hlen Hs Hn Hpl) as [r Hr].
  exists r. unfold optimize_route. rewrite Hmodel (proj1 Hs).
  destruct Hacc as [-> | ->]; by rewrite Hvo.
Qed.

Lemma optimize_route_failed optimize st pl d model :
  tsp_model d = Some model ->
  optimize_route optimize st pl d = Raise OptimizationFailed <->
  ~ accepted (out_status (optimize model OPTIMIZATION_TIME_LIMIT)).
Proof.
  intros Hmodel. unfold optimize_route. rewrite Hmodel.
  set (o := optimize model OPTIMIZATION_TIME_LIMIT).
  assert (accepted (out_status o) ->
          match visit_order_of (out_x o) (length d) with
          | Ok vo => assemble st pl d vo
          | Raise e => Raise e
          | Spin => Spin
          end <> Raise OptimizationFailed) as Hacc.
  { intros _. destruct (visit_order_of (out_x o) (length d)) as [vo|e|] eqn:Hvo.
    - intros Hr%assemble_raises. done.
    - by apply follow_arcs_no_raise in Hvo.
    - done. }
  unfold accepted in *.
  destruct (out_status o); split; try done;
    try (intros _ [?|?]; done); try (intros Hr; exfalso; by apply Hacc; auto);
    intros Hno; exfalso; apply Hno; auto.
Qed.

Lemma identity_tour_feasible n d model :
  tsp_model d = Some model -> length d = n -> 2 <= n ->
  feasible model (tour_assignment (seq 0 n)).
Proof.
  intros Hmodel Hlen Hn. apply (feasible_tsp d model); [done|]. rewrite Hlen.
  apply tour_feasible; [done| |done]. destruct n; [lia|done].
Qed.

(** C8 (amended). On a complete matrix over n >= 2 locations the model
    is built, and: optimize_route raises its optimization error exactly
    when the status the solver ends with is neither OPTIMAL nor
    FEASIBLE; the model has a feasible assignment whatever the entries of
    the matrix are (so a sentinel leg never makes it infeasible); and
    whenever the solver, honouring its contract, reports OPTIMAL or
    FEASIBLE and a place is given for every destination, optimize_route
    returns a route whose visiting order is a permutation of 0 .. n-1
    starting at 0. *)
Theorem optimization_fails_only_by_status optimize st pl d n :
  shape n d -> 2 <= n -> n - 1 <= length pl ->
  exists model,
    tsp_model d = Some model /\
    (optimize_route optimize st pl d = Raise OptimizationFailed <->
     ~ accepted (out_status (optimize model OPTIMIZATION_TIME_LIMIT))) /\
    (exists a, feasible model a) /\
    (solver_contract model (optimize model OPTIMIZATION_TIME_LIMIT) ->
     accepted (out_status (optimize model OPTIMIZATION_TIME_LIMIT)) ->
     exists r vo,
       optimize_route optimize st pl d = Ok r /\
       visit_order_of (out_x (optimize model OPTIMIZATION_TIME_LIMIT)) n = Ok vo /\
       vo ≡ₚ seq 0 n /\ head vo = Some 0).
Proof.
  intros Hs Hn Hpl. destruct (tsp_model_shape n d Hs) as [model Hmodel].
  exists model. split; [done|]. split; [by apply optimize_route_failed|]. split.
  - exists (tour_assignment (seq 0 n)).
    by apply (identity_tour_feasible n d model Hmodel (proj1 Hs)).
  - intros Hcontract Hacc.
    destruct (optimize_route_accepted optimize st pl d n model) as [r Hr];
      [done|done|lia|done..|].
    apply optimize_route_inv in Hr as Hinv.
    destruct Hinv as (model' & vo & l & Hmodel' & _ & Hvo & _ & Hvis & Hlen).
    assert (model' = model) as -> by congruence.
    rewrite (proj1 Hs) in Hvo, Hvis, Hlen.
    exists r, vo. split; [done|]. split; [done|].
    split; [eapply visiting_all; [done|lia]|apply Hvis].
Qed.

(** C8, as stated, fails for a single location: the 1 x 1 matrix is
    complete, yet the model asks for an arc out of location 0 to another
    location, so no assignment is feasible and a solver that honours its
    contract makes optimize_route raise. *)
Lemma single_location_has_no_tour :
  exists model,
    tsp_model [[0%Q]] = Some model /\
    shape 1 [[0%Q]] /\
    (forall a, ~ feasible model a) /\
    (forall optimize st pl,
       solver_contract model (optimize model OPTIMIZATION_TIME_LIMIT) ->
       optimize_route optimize st pl [[0%Q]] = Raise OptimizationFailed).
Proof.
  destruct (tsp_model [[0%Q]]) as [model|] eqn:Hmodel; [|done].
  exists model. split; [done|].
  assert (forall a, ~ feasible model a) as Hinf.
  { intros a (_ & _ & Hout & _)%(feasible_tsp [[0%Q]] model); [|done].
    specialize (Hout 0 ltac:(simpl; lia)).
    rewrite /degree_sum /= sumQ_cons sumQ_nil /= in Hout. lra. }
  split; [|split; [done|]].
  - split; [done|]. by intros [|i] row [= <-].
  - intros optimize st pl [Hopt Hfeas].
    apply (optimize_route_failed optimize st pl [[0%Q]] model Hmodel).
    intros [Hst|Hst]; [apply Hopt in Hst as [Hf _]|apply Hfeas in Hst as Hf];
      by apply Hinf in Hf.
Qed.

(** ** The cost of the extracted tour *)

Lemma NoDup_arcs p : NoDup p -> NoDup (arcs p).
Proof.
  intros Hnd. apply NoDup_alt.
  intros k1 k2 [i j] [Hi1 _]%arcs_lookup [Hi2 _]%arcs_lookup.
  by apply (NoDup_lookup _ _ _ _ Hnd Hi1 Hi2).
Qed.

Lemma route_cost st pl d vo r :
  assemble st pl d vo = Ok r -> head vo = Some 0 ->
  (total_distance r == cycle_cost d vo)%Q.
Proof.
  intros (optimized & segs & _ & Hsegs & ->)%assemble_Ok Hhd. simpl.
  apply segments_of_Some in Hsegs
    as (legs & l & back & -> & Hlast & Hback & Hlegs & Hleg).
  assert (0 < length vo) as Hpos by (destruct vo; [done|simpl; lia]).
  rewrite py_sum_sumQ /cycle_cost.
  assert (legs ++ [back] = (fun e => dist d e.1 e.2) <$> arcs vo) as ->;
    [|rewrite sumQ_fmap; reflexivity].
  apply (list_eq_same_length _ _ (length vo)).
  { by rewrite length_fmap length_arcs. }
  { rewrite length_app /=. lia. }
  intros k u v Hk Hu Hv.
  apply list_lookup_fmap_Some in Hv as ([x y] & -> & [Hx Hy]%arcs_lookup).
  simpl. destruct (decide (S k < length vo)) as [Hlt|Hge].
  - rewrite lookup_app_l in Hu; [lia|].
    destruct (Hleg k u Hu) as (x' & y' & Hx' & Hy' & Hxy).
    rewrite (successors_lookup vo k Hlt) in Hy.
    assert (x' = x) as -> by congruence. assert (y' = y) as -> by congruence.
    by rewrite /dist Hxy.
  - assert (S k = length vo) as Hlast_k by lia.
    rewrite lookup_app_r in Hu; [lia|].
    replace (k - length legs) with 0 in Hu by lia. injection Hu as <-.
    rewrite (successors_lookup_last vo k Hlast_k) -head_lookup Hhd in Hy.
    injection Hy as <-.
    rewrite last_lookup -Hlast_k /= Hx in Hlast. injection Hlast as ->.
    by rewrite /dist Hback.
Qed.

Section tour_cost.
Variable n : nat.
Variable a : assignment.
Hypothesis Hfeas : tsp_feasible n a.
Variables (l : nat) (vo : list nat).
Hypothesis Hvis : visiting a n l vo.
Hypothesis Hlen : length vo = n.

Lemma feasible_two : 2 <= n.
Proof.
  destruct Hfeas as (_ & _ & Hout & _).
  assert (0 < n) as Hn.
  { rewrite -Hlen. destruct Hvis as [_ Hhd _ _ _]. destruct vo; [done|simpl; lia]. }
  destruct (decide (n = 1)) as [->|]; [|lia].
  specialize (Hout 0 ltac:(lia)).
  rewrite /degree_sum /= sumQ_cons sumQ_nil /= in Hout. lra.
Qed.

Lemma closing_arc : (a (X l 0) == 1)%Q.
Proof.
  pose proof Hvis as [Hnd Hhd Hlast Hb Harcs]. pose proof feasible_two as Hn.
  assert (vo !! pred (length vo) = Some l) as Hl by by rewrite -last_lookup.
  assert (l < n) as Hln by (apply Hb, list_elem_of_lookup; eauto).
  destruct (out_arc n a Hfeas l Hln) as (s & Hs & Hsl & Harc & _).
  assert (s ∈ vo) as [m Hm]%list_elem_of_lookup.
  { rewrite (visiting_all a n l vo Hvis ltac:(lia)). apply elem_of_seq. lia. }
  destruct m as [|m].
  - rewrite -head_lookup Hhd in Hm. by injection Hm as <-.
  - destruct (visiting_predecessor n a Hfeas l vo m s Hvis Hm)
      as (p & Hp & Hpn & _ & Hps & Hparc).
    assert (l = p) as <- by by apply (same_target n a Hfeas l p s).
    pose proof (NoDup_lookup _ _ _ _ Hnd Hp Hl).
    apply lookup_lt_Some in Hm. lia.
Qed.

Lemma tour_arcs_selected x y :
  (x, y) ∈ arcs vo -> x < n /\ y < n /\ (a (X x y) == 1)%Q.
Proof.
  pose proof Hvis as [Hnd Hhd Hlast Hb Harcs].
  intros [k [Hx Hy]%arcs_lookup]%list_elem_of_lookup.
  assert (x < n) as Hxn by (apply Hb, list_elem_of_lookup; eauto).
  destruct (decide (S k < length vo)) as [Hlt|Hge].
  - rewrite (successors_lookup vo k Hlt) in Hy.
    assert (y < n) as Hyn by (apply Hb, list_elem_of_lookup; eauto).
    repeat split; [done..|].
    apply (selected_iff n a Hfeas); [done..|]. by eapply Harcs.
  - assert (S k = length vo) as Hk.
    { apply lookup_lt_Some in Hx. lia. }
    rewrite (successors_lookup_last vo k Hk) -head_lookup Hhd in Hy.
    injection Hy as <-.
    rewrite last_lookup -Hk /= Hx in Hlast. injection Hlast as ->.
    pose proof feasible_two. repeat split; [done|lia|apply closing_arc].
Qed.

Lemma tour_cost_le_objective d :
  (forall i j, (0 <= dist d i j)%Q) ->
  (cycle_cost d vo <= objective_value d n a)%Q.
Proof.
  intros Hpos. unfold cycle_cost, objective_value.
  destruct (sumQ_sublist
              (fun e => (dist d e.1 e.2 * a (X e.1 e.2))%Q)
              (arcs vo) (all_pairs n)) as (rest & Hrest & ->).
  { apply NoDup_arcs, Hvis. }
  { intros [x y] Hxy. apply elem_of_all_pairs.
    by destruct (tour_arcs_selected x y Hxy) as (? & ? & _). }
  assert (0 <= sumQ (fun e => dist d e.1 e.2 * a (X e.1 e.2)) rest)%Q as Hrest0.
  { apply sumQ_nonneg. intros [i j] Hij.
    assert ((i, j) ∈ all_pairs n) as [Hi Hj]%elem_of_all_pairs.
    { rewrite Hrest. apply elem_of_app. by right. }
    destruct Hfeas as (Hbin & _). pose proof (Hpos i j). simpl.
    destruct (Hbin i j Hi Hj) as [-> | ->]; lra. }
  rewrite (sumQ_ext (fun e => dist d e.1 e.2)
             (fun e => (dist d e.1 e.2 * a (X e.1 e.2))%Q) (arcs vo)); [|lra].
  intros [x y] Hxy. destruct (tour_arcs_selected x y Hxy) as (_ & _ & ->).
  simpl. lra.
Qed.
End tour_cost.

(** ** Optimality *)

Lemma tsp_model_objective d model :
  tsp_model d = Some model -> objective_of (length d) d = Some (m_objective model).
Proof.
  unfold tsp_model. destruct (objective_of (length d) d) as [obj|]; [|done].
  by intros [= <-].
Qed.

Lemma cycle_from_origin n p :
  0 < n -> hamiltonian_cycle n p ->
  exists q, q ≡ₚ seq 0 n /\ head q = Some 0 /\ arcs q ≡ₚ arcs p.
Proof.
  intros Hn Hp. assert (0 ∈ p) as (l1 & l2 & ->)%list_elem_of_split.
  { rewrite Hp. apply elem_of_seq. lia. }
  exists ((0 :: l2) ++ l1). split; [|split; [done|]].
  - by rewrite Permutation_app_comm.
  - by rewrite arcs_rotate_app.
Qed.

Lemma optimum_le_cycle optimize d n model p :
  tsp_model d = Some model -> length d = n -> 2 <= n ->
  solver_contract model (optimize model OPTIMIZATION_TIME_LIMIT) ->
  out_status (optimize model OPTIMIZATION_TIME_LIMIT) = OPTIMAL ->
  hamiltonian_cycle n p ->
  (objective_value d n (out_x (optimize model OPTIMIZATION_TIME_LIMIT))
   <= cycle_cost d p)%Q.
Proof.
  intros Hmodel Hlen Hn [Hopt _] Hst Hp.
  destruct (Hopt Hst) as [_ Hmin].
  destruct (cycle_from_origin n p ltac:(lia) Hp) as (q & Hq & Hhd & Harcs).
  pose proof (tour_feasible n q Hq Hhd Hn) as Hfeas.
  apply tsp_model_objective in Hmodel as Hobj. rewrite Hlen in Hobj.
  specialize (Hmin (tour_assignment q)).
  rewrite !(eval_objective n d _ _ Hobj) in Hmin.
  rewrite (tour_objective n q Hq Hn d) in Hmin.
  rewrite /cycle_cost -(sumQ_perm _ _ _ Harcs). apply Hmin.
  apply (feasible_tsp d model); [done|]. by rewrite Hlen.
Qed.

Lemma ex_d3_tours vo :
  vo ≡ₚ seq 0 3 -> head vo = Some 0 -> (cycle_cost ex_d3 vo == 450)%Q.
Proof.
  intros Hperm Hhd.
  assert (NoDup vo) as Hnd by (rewrite Hperm; apply NoDup_seq).
  assert (forall x, x ∈ vo -> x < 3) as Hb.
  { intros x Hx. rewrite Hperm in Hx. apply elem_of_seq in Hx. lia. }
  apply Permutation_length in Hperm.
  destruct vo as [|x [|y [|z [|]]]]; try done.
  injection Hhd as ->.
  pose proof (Hb y ltac:(set_solver)). pose proof (Hb z ltac:(set_solver)).
  apply NoDup_cons in Hnd as [Hy [Hz _]%NoDup_cons].
  assert (y <> 0 /\ z <> 0 /\ z <> y) as (? & ? & ?) by set_solver.
  assert ((y = 1 /\ z = 2) \/ (y = 2 /\ z = 1)) as [[-> ->]|[-> ->]] by lia;
    vm_compute; done.
Qed.

(** C2. On a complete matrix of non-negative distances over n locations,
    with a place for every destination, when the solver (honouring its
    contract) reports OPTIMAL, optimize_route returns a route; its
    total_distance is the cost of a Hamiltonian cycle starting at 0 (the
    arcs of the visiting order plus the return arc), and no Hamiltonian
    cycle through the n locations is cheaper. For the matrix
    [[0,100,200],[100,0,150],[200,150,0]] the total is 450. *)
Theorem optimal_route_is_minimal optimize st pl d n model :
  shape n d -> 1 <= n -> n - 1 <= length pl ->
  (forall i j, (0 <= dist d i j)%Q) ->
  tsp_model d = Some model ->
  solver_contract model (optimize model OPTIMIZATION_TIME_LIMIT) ->
  out_status (optimize model OPTIMIZATION_TIME_LIMIT) = OPTIMAL ->
  exists r vo,
    optimize_route optimize st pl d = Ok r /\
    hamiltonian_cycle n vo /\ head vo = Some 0 /\
    (total_distance r == cycle_cost d vo)%Q /\
    (forall p, hamiltonian_cycle n p -> (total_distance r <= cycle_cost d p)%Q) /\
    (d = ex_d3 -> (total_distance r == 450)%Q).
Proof.
  intros Hs Hn Hpl Hpos Hmodel Hcontract Hst.
  assert (accepted (out_status (optimize model OPTIMIZATION_TIME_LIMIT))) as Hacc
    by by left.
  destruct (optimize_route_accepted optimize st pl d n model) as [r Hr]; [done..|].
  apply optimize_route_inv in Hr as Hinv.
  destruct Hinv as (model' & vo & l & Hmodel' & _ & Hvo & Hasm & Hvis & Hlen).
  assert (model' = model) as -> by congruence.
  pose proof (contract_feasible d model _ Hmodel Hcontract Hacc) as Hfeas.
  rewrite (proj1 Hs) in Hfeas, Hvis, Hlen.
  pose proof (feasible_two n _ Hfeas l vo Hvis Hlen) as Hn2.
  pose proof (visiting_all _ _ _ _ Hvis ltac:(lia)) as Hperm.
  pose proof (route_cost st pl d vo r Hasm (visiting_head _ _ _ _ Hvis)) as Hcost.
  exists r, vo. split; [done|]. split; [done|]. split; [apply Hvis|].
  split; [done|]. split.
  - intros p Hp. rewrite Hcost.
    pose proof (tour_cost_le_objective n _ Hfeas l vo Hvis Hlen d Hpos).
    pose proof (optimum_le_cycle optimize d n model p Hmodel (proj1 Hs) Hn2
                  Hcontract Hst Hp).
    lra.
  - intros ->. rewrite Hcost. destruct Hs as [<- _].
    apply ex_d3_tours; [done|apply Hvis].
Qed.

(** ** The sentinel and the optimizer *)

Lemma arcs_in_range n p e :
  hamiltonian_cycle n p -> e ∈ arcs p -> e.1 < n /\ e.2 < n.
Proof.
  intros Hp [k Hk]%list_elem_of_lookup. destruct e as [x y].
  apply arcs_lookup in Hk as [Hx Hy].
  assert (x ∈ p) as Hxp by (apply list_elem_of_lookup; eauto).
  assert (y ∈ successors p) as Hyp by (apply list_elem_of_lookup; eauto).
  rewrite successors_perm in Hyp. unfold hamiltonian_cycle in Hp.
  rewrite Hp in Hxp. rewrite Hp in Hyp.
  apply elem_of_seq in Hxp, Hyp. simpl. lia.
Qed.

Lemma sumQ_lt_scaled {A} (f : A -> Q) (l : list A) (c B : Q) :
  l <> [] -> (forall x, x ∈ l -> (c * f x < B)%Q) ->
  (c * sumQ f l < nQ (length l) * B)%Q.
Proof.
  induction l as [|x l IH]; [done|]. intros _ Hall.
  pose proof (Hall x ltac:(left)) as Hx.
  rewrite sumQ_cons. cbn [length]. rewrite nQ_S.
  destruct l as [|y l].
  - rewrite sumQ_nil. change (nQ (length [])) with 0%Q. lra.
  - assert (c * sumQ f (y :: l) < nQ (length (y :: l)) * B)%Q as Hl.
    { apply IH; [done|]. intros z Hz. apply Hall. by right. }
    lra.
Qed.

Lemma sumQ_ge_elem {A} (f : A -> Q) (l : list A) e :
  (forall x, x ∈ l -> (0 <= f x)%Q) -> e ∈ l -> (f e <= sumQ f l)%Q.
Proof.
  induction l as [|x l IH]; intros Hpos He; [by apply elem_of_nil in He|].
  rewrite sumQ_cons. apply elem_of_cons in He as [->|He].
  - assert (0 <= sumQ f l)%Q; [|lra].
    apply sumQ_nonneg. intros z Hz. apply Hpos. by right.
  - pose proof (Hpos x ltac:(left)).
    assert (f e <= sumQ f l)%Q; [|lra].
    apply IH; [|done]. intros z Hz. apply Hpos. by right.
Qed.

(** C6 (amended). When calculate_distance_matrix returns a matrix, every
    cell off the diagonal whose answer carries a status other than OK
    holds the fixed sentinel 999999. If every leg of the matrix that can
    be walked is non-negative and n times it stays below 999999 (the
    sentinel exceeds n times the largest finite distance), then every
    tour made of legs that can be walked costs less than the sentinel,
    every tour through another leg costs at least the sentinel, and a
    route that optimize_route returns for a solver that honours its
    contract and reports OPTIMAL costs less than the sentinel and passes
    only legs that can be walked, as soon as one such tour exists. *)
Theorem sentinel_is_fixed cell st pl w m :
  (calculate_distance_matrix (service_of_cells cell) st pl w).1 = Ok m ->
  let n := S (length pl) in
  let walkable := reachable cell (locations_of st pl (heap w)) in
  (forall i j, i < n -> j < n -> ~ walkable i j -> mget m i j = Some 999999%Q) /\
  ((forall i j, i < n -> j < n -> walkable i j ->
      (0 <= dist m i j)%Q /\ (nQ n * dist m i j < 999999)%Q) ->
   (forall p, hamiltonian_cycle n p ->
      (forall e, e ∈ arcs p -> walkable e.1 e.2) ->
      (cycle_cost m p < 999999)%Q) /\
   (forall q, hamiltonian_cycle n q ->
      (exists e, e ∈ arcs q /\ ~ walkable e.1 e.2) ->
      (999999 <= cycle_cost m q)%Q) /\
   (forall optimize model r,
      tsp_model m = Some model ->
      solver_contract model (optimize model OPTIMIZATION_TIME_LIMIT) ->
      out_status (optimize model OPTIMIZATION_TIME_LIMIT) = OPTIMAL ->
      optimize_route optimize st pl m = Ok r ->
      (exists p, hamiltonian_cycle n p /\
                 forall e, e ∈ arcs p -> walkable e.1 e.2) ->
      (total_distance r < 999999)%Q /\
      exists vo,
        visit_order_of (out_x (optimize model OPTIMIZATION_TIME_LIMIT)) n = Ok vo /\
        hamiltonian_cycle n vo /\
        (total_distance r == cycle_cost m vo)%Q /\
        forall e, e ∈ arcs vo -> walkable e.1 e.2)).
Proof.
  intros Hrun n walkable.
  pose proof (calculate_cells cell st pl w m Hrun) as [Hs Hcells].
  assert (forall i j, i < n -> j < n -> ~ walkable i j ->
            mget m i j = Some 999999%Q) as Hsent.
  { intros i j Hi Hj Hno. by apply (unreachable_cell cell st pl w). }
  split; [done|]. intros Hbound.
  assert (forall i j, (0 <= dist m i j)%Q) as Hnonneg.
  { intros i j. destruct (mget m i j) as [v|] eqn:Hv; [|by rewrite /dist Hv].
    destruct (mget_Some_lt _ _ _ _ _ Hs Hv) as [Hi Hj].
    destruct (reachable_dec cell (locations_of st pl (heap w)) i j) as [Hok|Hno].
    - by apply Hbound.
    - by rewrite /dist (Hsent i j Hi Hj Hno). }
  assert (forall p, hamiltonian_cycle n p ->
            (forall e, e ∈ arcs p -> walkable e.1 e.2) ->
            (cycle_cost m p < 999999)%Q) as Hlow.
  { intros p Hp Hok. unfold cycle_cost.
    assert (length (arcs p) = n) as Hlen.
    { rewrite length_arcs. unfold hamiltonian_cycle in Hp.
      by rewrite Hp length_seq. }
    pose proof (sumQ_lt_scaled (fun e => dist m e.1 e.2) (arcs p) (nQ n) 999999)
      as Hsum.
    rewrite Hlen in Hsum.
    assert (0 < nQ n)%Q as Hn.
    { rewrite /n nQ_S. pose proof (nQ_nonneg (length pl)). lra. }
    apply (Qmult_lt_l _ _ (nQ n) Hn). apply Hsum.
    - intros Hnil. by rewrite Hnil in Hlen.
    - intros e He. destruct (arcs_in_range n p e Hp He) as [H1 H2].
      by apply Hbound; [..|apply Hok]. }
  assert (forall q, hamiltonian_cycle n q ->
            (exists e, e ∈ arcs q /\ ~ walkable e.1 e.2) ->
            (999999 <= cycle_cost m q)%Q) as Hhigh.
  { intros q Hq (e & He & Hno). unfold cycle_cost.
    destruct (arcs_in_range n q e Hq He) as [H1 H2].
    pose proof (sumQ_ge_elem (fun e => dist m e.1 e.2) (arcs q) e
                  (fun x _ => Hnonneg x.1 x.2) He) as Hge.
    simpl in Hge. by rewrite /dist (Hsent _ _ H1 H2 Hno) /= in Hge. }
  split; [done|]. split; [done|].
  intros optimize model r Hmodel Hcontract Hst Hr (p & Hp & Hpok).
  apply optimize_route_inv in Hr as Hinv.
  destruct Hinv as (model' & vo & l & Hmodel' & Hacc & Hvo & Hasm & Hvis & Hlen).
  assert (model' = model) as -> by congruence.
  pose proof (contract_feasible m model _ Hmodel Hcontract Hacc) as Hfeas.
  rewrite (proj1 Hs) in Hfeas, Hvis, Hlen, Hvo.
  pose proof (feasible_two _ _ Hfeas l vo Hvis Hlen) as Hn2.
  pose proof (visiting_all _ _ _ _ Hvis ltac:(lia)) as Hperm.
  pose proof (route_cost st pl m vo r Hasm (visiting_head _ _ _ _ Hvis)) as Hcost.
  pose proof (tour_cost_le_objective _ _ Hfeas l vo Hvis Hlen m Hnonneg) as H1.
  pose proof (optimum_le_cycle optimize m _ model p Hmodel (proj1 Hs) Hn2
                Hcontract Hst Hp) as H2.
  pose proof (Hlow p Hp Hpok) as H3.
  split; [lra|]. exists vo. split; [done|]. split; [done|]. split; [done|].
  intros e He.
  destruct (reachable_dec cell (locations_of st pl (heap w)) e.1 e.2)
    as [Hok|Hno]; [done|].
  pose proof (Hhigh vo Hperm (ex_intro _ e (conj He Hno))). lra.
Qed.

Lemma sentinel_is_fixed_witness :
  (calculate_distance_matrix (service_of_cells ex_oneway_cell) ex_station [1; 2]
     ex_world).1
  = Ok [[0; 100; 100]; [100; 0; 100]; [100; 999999; 0]]%Q /\
  mget [[0; 100; 100]; [100; 0; 100]; [100; 999999; 0]]%Q 2 1 = Some 999999%Q /\
  (cycle_cost [[0; 100; 100]; [100; 0; 100]; [100; 999999; 0]]%Q [0; 1; 2]%nat
   < 999999)%Q.
Proof.
  assert ((calculate_distance_matrix (service_of_cells ex_oneway_cell) ex_station
             [1; 2] ex_world).1
          = Ok [[0; 100; 100]; [100; 0; 100]; [100; 999999; 0]]%Q) as Hrun
    by (vm_compute; reflexivity).
  split; [exact Hrun|].
  destruct (sentinel_is_fixed ex_oneway_cell ex_station [1; 2] ex_world _ Hrun)
    as [Hsent Hbounded].
  assert (~ reachable ex_oneway_cell (locations_of ex_station [1; 2] ex_store) 2 1)
    as Hno.
  { intros [|(o & d & Ho & Hd & Hst)]; [done|].
    injection Ho as <-. injection Hd as <-. discriminate Hst. }
  split; [apply Hsent; [simpl; lia..|exact Hno]|].
  destruct Hbounded as (Hlow & _).
  - intros i j Hi Hj Hw.
    destruct i as [|[|[|i]]]; [| | |simpl in Hi; lia];
      (destruct j as [|[|[|j]]]; [| | |simpl in Hj; lia]);
      try (by destruct (Hno Hw)); by vm_compute.
  - apply Hlow; [by unfold hamiltonian_cycle|].
    intros e [->|[->|[->|?%elem_of_nil]%elem_of_cons]%elem_of_cons]%elem_of_cons;
      [| | |done]; right; eexists _, _; repeat split.
Defined.

Lemma tour_solver_contract d n p model :
  tsp_model d = Some model -> length d = n -> 2 <= n ->
  (forall i j, (0 <= dist d i j)%Q) ->
  p ≡ₚ seq 0 n -> head p = Some 0 ->
  (forall vo, vo ≡ₚ seq 0 n -> head vo = Some 0 ->
     (cycle_cost d p <= cycle_cost d vo)%Q) ->
  solver_contract model (tour_solver p model OPTIMIZATION_TIME_LIMIT).
Proof.
  intros Hmodel Hlen Hn Hpos Hp Hhd Hbest.
  pose proof (tour_feasible n p Hp Hhd Hn) as Hfeas.
  assert (feasible model (tour_assignment p)) as Hf.
  { apply (feasible_tsp d model); [done|]. by rewrite Hlen. }
  split; [|done]. intros _. split; [done|]. intros a Ha. simpl.
  apply tsp_model_objective in Hmodel as Hobj. rewrite Hlen in Hobj.
  rewrite !(eval_objective n d _ _ Hobj) (tour_objective n p Hp Hn d).
  apply (feasible_tsp d model) in Ha; [|done]. rewrite Hlen in Ha.
  destruct (visit_order_of_feasible n a ltac:(lia) Ha) as (vo & l & _ & Hvis & Hl).
  pose proof (tour_cost_le_objective n a Ha l vo Hvis Hl d Hpos).
  pose proof (Hbest vo (visiting_all _ _ _ _ Hvis ltac:(lia))
                (visiting_head _ _ _ _ Hvis)).
  lra.
Qed.

(** ** Two locations *)

Lemma two_location_order a l vo :
  visiting a 2 l vo -> length vo = 2 -> vo = [0; 1].
Proof.
  intros [Hnd Hhd _ Hb _] Hlen.
  destruct vo as [|x [|y [|]]]; try done. injection Hhd as ->.
  pose proof (Hb y ltac:(set_solver)).
  apply NoDup_cons in Hnd as [Hy _].
  assert (y <> 0) by set_solver. by replace y with 1 by lia.
Qed.

(** C3 (amended). For a 2 x 2 matrix on which optimize_route returns a
    route, the visiting order is [0, 1], the only place of the route is
    the first of the list, the reported segment is distance[0][1], and
    total_distance = distance[0][1] + distance[1][0]: the go leg plus the
    return leg, which is 2 x distance[0][1] when the two legs are equal. *)
Theorem two_locations optimize st pl d r :
  shape 2 d ->
  optimize_route optimize st pl d = Ok r ->
  exists model go back place,
    tsp_model d = Some model /\
    visit_order_of (out_x (optimize model OPTIMIZATION_TIME_LIMIT)) 2 = Ok [0; 1] /\
    mget d 0 1 = Some go /\ mget d 1 0 = Some back /\
    pl !! 0 = Some place /\ places r = [place] /\
    segment_distances r = [go] /\
    (total_distance r == go + back)%Q /\
    ((go == back)%Q -> (total_distance r == 2 * go)%Q).
Proof.
  intros Hs Hr. apply optimize_route_inv in Hr
    as (model & vo & l & Hmodel & _ & Hvo & Hasm & Hvis & Hlen).
  rewrite (proj1 Hs) in Hvo, Hvis, Hlen.
  pose proof (two_location_order _ l vo Hvis Hlen) as ->.
  destruct (mget_lt 2 d 0 1 Hs) as [go Hgo]; [lia..|].
  destruct (mget_lt 2 d 1 0 Hs) as [back Hback]; [lia..|].
  pose proof (route_cost st pl d [0; 1] r Hasm eq_refl) as Hcost.
  rewrite /cycle_cost /arcs /successors /= !sumQ_cons sumQ_nil /= in Hcost.
  rewrite /dist Hgo Hback /= in Hcost.
  apply assemble_Ok in Hasm as (optimized & segs & Hopt & Hsegs & ->).
  apply mapM_Some in Hopt. simpl in Hopt.
  apply Forall2_cons_inv_l in Hopt as (place & rest & Hplace & Hrest & ->).
  apply Forall2_nil_inv_l in Hrest as ->.
  rewrite (py_get_pred pl 1) in Hplace; [lia|].
  rewrite /segments_of py_get_last /= Hgo /= Hback /= in Hsegs.
  injection Hsegs as <-.
  exists model, go, back, place. simpl in *.
  repeat (split; [done|]). split; [lra|]. intros Heq. lra.
Qed.

Lemma dist_nonneg_ex_d2 i j : (0 <= dist ex_d2 i j)%Q.
Proof. by destruct i as [|[|i]], j as [|[|j]]. Qed.

Lemma dist_nonneg_ex_d3 i j : (0 <= dist ex_d3 i j)%Q.
Proof. by destruct i as [|[|[|i]]], j as [|[|[|j]]]. Qed.

Lemma ex_d2_contract model :
  tsp_model ex_d2 = Some model ->
  solver_contract model (tour_solver [0; 1] model OPTIMIZATION_TIME_LIMIT).
Proof.
  intros Hmodel.
  apply (tour_solver_contract ex_d2 2 [0; 1] model); try done; try lia.
  - apply dist_nonneg_ex_d2.
  - intros vo Hperm Hhd. apply Permutation_length in Hperm as Hlen.
    destruct vo as [|x [|y [|]]]; try done. injection Hhd as ->.
    assert (y ∈ seq 0 2) as Hy by (rewrite -Hperm; set_solver).
    assert (NoDup [0; y]) as Hnd by (rewrite Hperm; apply NoDup_seq).
    apply NoDup_cons in Hnd as [Hy0 _]. apply elem_of_seq in Hy.
    assert (y <> 0) by set_solver. replace y with 1 by lia. lra.
Qed.

Lemma ex_d3_contract model :
  tsp_model ex_d3 = Some model ->
  solver_contract model (tour_solver [0; 1; 2] model OPTIMIZATION_TIME_LIMIT).
Proof.
  intros Hmodel.
  apply (tour_solver_contract ex_d3 3 [0; 1; 2] model); try done; try lia.
  - apply dist_nonneg_ex_d3.
  - intros vo Hperm Hhd.
    rewrite (ex_d3_tours vo Hperm Hhd) (ex_d3_tours [0; 1; 2]) //.
Qed.

(** C3, as stated, fails on a matrix whose two legs differ: going costs
    100 and returning 150, the solver's contract is honoured, and the
    total is 250, not 2 x 100. *)
Lemma two_locations_asymmetric :
  exists model r,
    tsp_model ex_d2 = Some model /\
    solver_contract model (tour_solver [0; 1] model OPTIMIZATION_TIME_LIMIT) /\
    optimize_route (tour_solver [0; 1]) ex_station [1] ex_d2 = Ok r /\
    mget ex_d2 0 0 = Some 0%Q /\ mget ex_d2 1 1 = Some 0%Q /\
    mget ex_d2 0 1 = Some 100%Q /\
    (total_distance r == 250)%Q /\ ~ (total_distance r == 2 * 100)%Q.
Proof.
  destruct (tsp_model ex_d2) as [model|] eqn:Hmodel; [|done].
  exists model. eexists. split; [done|]. split; [by apply ex_d2_contract|].
  split; [vm_compute; reflexivity|]. by repeat split.
Qed.

(** C9. The estimated time of a route is its total distance divided by
    1000, divided by the walking speed and multiplied by 60; the speed is
    the constant 4 (km/h) of the module, not an argument, so the estimate
    is 15 minutes per kilometre of total distance. *)
Theorem estimated_time_formula (r : Route) :
  WALKING_SPEED_KM_H = 4%Q /\
  (estimated_time r == total_distance r / 1000 / 4 * 60)%Q /\
  (estimated_time r == 15 * (total_distance r / 1000))%Q.
Proof.
  split; [done|]. unfold estimated_time, WALKING_SPEED_KM_H. split; [done|].
  field.
Qed.

(** * Concrete runs of the optimizer *)

Lemma shape_ex_d3 : shape 3 ex_d3.
Proof. split; [done|]. by intros [|[|[|i]]] row [= <-]. Qed.

Lemma shape_ex_d2 : shape 2 ex_d2.
Proof. split; [done|]. by intros [|[|i]] row [= <-]. Qed.

Lemma visit_order_is_permutation_witness :
  exists r vo,
    optimize_route (tour_solver [0; 1; 2]) ex_station [1; 2] ex_d3 = Ok r /\
    vo ≡ₚ seq 0 3 /\ head vo = Some 0.
Proof.
  destruct (optimize_route (tour_solver [0; 1; 2]) ex_station [1; 2] ex_d3)
    as [r| |] eqn:Hrun; [|vm_compute in Hrun; discriminate Hrun..].
  destruct (proj1 (visit_order_is_permutation
                     (tour_solver [0; 1; 2]) ex_station [1; 2] ex_d3) r Hrun)
    as (model & vo & _ & _ & _ & Hperm & _ & Hhd).
  exists r, vo. split; [reflexivity|]. split; [exact Hperm|exact Hhd].
Defined.

Lemma optimal_route_is_minimal_witness :
  exists r,
    optimize_route (tour_solver [0; 1; 2]) ex_station [1; 2] ex_d3 = Ok r /\
    (total_distance r == 450)%Q.
Proof.
  destruct (tsp_model ex_d3) as [model|] eqn:Hmodel;
    [|vm_compute in Hmodel; discriminate Hmodel].
  destruct (optimal_route_is_minimal (tour_solver [0; 1; 2]) ex_station [1; 2]
              ex_d3 3 model shape_ex_d3 ltac:(lia) ltac:(simpl; lia)
              dist_nonneg_ex_d3 Hmodel (ex_d3_contract model Hmodel) eq_refl)
    as (r & vo & Hrun & _ & _ & _ & _ & Hex).
  exists r. split; [exact Hrun|exact (Hex eq_refl)].
Defined.

Lemma two_locations_witness :
  exists r,
    optimize_route (tour_solver [0; 1]) ex_station [1] ex_d2 = Ok r /\
    places r = [1] /\ (total_distance r == 100 + 150)%Q.
Proof.
  destruct (optimize_route (tour_solver [0; 1]) ex_station [1] ex_d2)
    as [r| |] eqn:Hrun; [|vm_compute in Hrun; discriminate Hrun..].
  destruct (two_locations (tour_solver [0; 1]) ex_station [1] ex_d2 r
              shape_ex_d2 Hrun)
    as (model & go & back & place & _ & _ & Hgo & Hback & Hplace & Hplaces
        & _ & Htotal & _).
  injection Hgo as <-. injection Hback as <-. injection Hplace as <-.
  exists r. split; [reflexivity|]. split; [exact Hplaces|exact Htotal].
Defined.

Lemma route_totals_witness :
  exists r,
    optimize_route (tour_solver [0; 1; 2]) ex_station [1; 2] ex_d3 = Ok r /\
    length (segment_distances r) = 2.
Proof.
  destruct (optimize_route (tour_solver [0; 1; 2]) ex_station [1; 2] ex_d3)
    as [r| |] eqn:Hrun; [|vm_compute in Hrun; discriminate Hrun..].
  destruct (route_totals (tour_solver [0; 1; 2]) ex_station [1; 2] ex_d3 r Hrun)
    as (model & vo & l & back & _ & _ & _ & Hlen & _).
  exists r. split; [reflexivity|exact Hlen].
Defined.

Lemma optimization_fails_only_by_status_witness :
  exists r, optimize_route (tour_solver [0; 1; 2]) ex_station [1; 2] ex_d3 = Ok r.
Proof.
  destruct (optimization_fails_only_by_status (tour_solver [0; 1; 2]) ex_station
              [1; 2] ex_d3 3 shape_ex_d3 ltac:(lia) ltac:(simpl; lia))
    as (model & Hmodel & _ & _ & Hok).
  destruct (Hok (ex_d3_contract model Hmodel) ltac:(by left)) as (r & vo & Hr & _).
  exists r. exact Hr.
Defined.

(** * The queries of the distance matrix builder *)

Lemma length_slice {A} (l : list A) a b :
  b <= length l -> length (slice l a b) = b - a.
Proof. intros Hb. rewrite /slice length_take length_drop. lia. Qed.

Lemma log_ok_weaken gm batch q0 w : log_ok gm batch q0 true w -> log_ok gm batch q0 false w.
Proof.
  intros (new & Hq & Hlim & Hans). exists new. split; [done|]. split; [done|].
  intros k q Hk. apply Hans.
  destruct new as [|x new] using rev_ind; [done|].
  rewrite removelast_last in Hk. rewrite lookup_app_l //. by eapply lookup_lt_Some.
Qed.

Lemma block_body_log gm batch locations i_start j_start m h q0 :
  0 < batch -> i_start < length locations -> j_start < length locations ->
  triple (fun w => heap w = h /\ log_ok gm batch q0 true w)
    (block_body gm batch locations i_start j_start m)
    (fun _ w => heap w = h /\ log_ok gm batch q0 true w)
    (fun w => heap w = h /\ log_ok gm batch q0 false w).
Proof.
  intros Hb Hi Hj w (Hh & new & Hq & Hlim & Hans).
  rewrite /block_body /bind /call_distance_matrix /lift.
  set (os := slice locations _ _). set (ds := slice locations _ _).
  assert (within_limit batch (os, ds)) as Hwl.
  { rewrite /within_limit /os /ds /= !length_slice; lia. }
  destruct (gm (length (queries w)) os ds) as [res|] eqn:Hgm.
  - assert (log_ok gm batch q0 true
              {| queries := queries w ++ [(os, ds)]; heap := heap w |}) as Hlog.
    { exists (new ++ [(os, ds)]). simpl. rewrite Hq -(assoc_L (++)).
      split; [done|]. split; [apply Forall_app; split; [done|by apply Forall_singleton]|].
      intros k q [Hk|[Hk1 Hk2]]%lookup_app_Some; [by apply Hans|].
      apply list_lookup_singleton_Some in Hk2 as [Hk2 <-]. simpl.
      replace (length q0 + k) with (length (queries w)); [by rewrite Hgm|].
      rewrite Hq length_app. lia. }
    destruct (fill_block res _ _ _ _ m); [done|].
    split; [done|]. by apply log_ok_weaken.
  - split; [done|]. exists (new ++ [(os, ds)]). simpl.
    rewrite Hq -(assoc_L (++)). split; [done|].
    split; [apply Forall_app; split; [done|by apply Forall_singleton]|].
    by rewrite removelast_last.
Qed.

Lemma range3_lt stop step s : 0 < step -> s ∈ range3 0 stop step -> s < stop.
Proof. intros Hstep [k [_ Hs]%range3_lookup]%list_elem_of_lookup; done. Qed.

Lemma block_loops_log gm batch locations h q0 :
  0 < batch ->
  triple (fun w => heap w = h /\ log_ok gm batch q0 true w)
    (block_loops gm batch locations)
    (fun _ w => heap w = h /\ log_ok gm batch q0 true w)
    (fun w => heap w = h /\ log_ok gm batch q0 false w).
Proof.
  intros Hb. unfold block_loops.
  eapply triple_weaken;
    [apply (triple_for_eachM
              (fun _ _ w => heap w = h /\ log_ok gm batch q0 true w)
              (fun w => heap w = h /\ log_ok gm batch q0 false w))
    | by intros | by intros | by intros].
  intros _ i_start post m Hi%elem_of_middle%range3_lt; [|done].
  eapply triple_weaken;
    [apply (triple_for_eachM
              (fun _ _ w => heap w = h /\ log_ok gm batch q0 true w)
              (fun w => heap w = h /\ log_ok gm batch q0 false w))
    | by intros | by intros | by intros].
  intros _ j_start post' m' Hj%elem_of_middle%range3_lt; [|done].
  by apply block_body_log.
Qed.

Lemma build_matrix_log gm batch st pl w :
  0 < batch ->
  match build_matrix gm batch st pl w with
  | (Some _, w') => log_ok gm batch (queries w) true w'
  | (None, w') => log_ok gm batch (queries w) false w'
  end.
Proof.
  intros Hb. rewrite build_matrix_unfold decide_False; [lia|]. rewrite /bind.
  assert (log_ok gm batch (queries w) true w) as Hw0.
  { exists []. rewrite app_nil_r. split; [done|]. split; [done|]. by intros k q. }
  pose proof (block_loops_log gm batch (locations_of st pl (heap w)) (heap w)
                (queries w) Hb w (conj eq_refl Hw0)) as Hlog.
  pose proof (block_loops_diag gm batch (locations_of st pl (heap w)) (heap w)
                w eq_refl) as Hdiag.
  destruct (block_loops _ _ _ w) as [[m|] w1]; [|apply Hlog].
  destruct Hlog as [Hh1 Hlog]. destruct Hdiag as [[Hs _] _].
  rewrite length_locations_of in Hs.
  pose proof (annotate_loop (S (length pl)) m pl (heap w) (queries w1)
                Hs eq_refl w1 (conj Hh1 eq_refl)) as Hann.
  destruct (for_eachM _ (annotate m) tt w1) as [[[]|] w2]; [|done].
  simpl. destruct Hann as [_ Hq]. destruct Hlog as (new & Hnew & Hrest).
  exists new. by rewrite Hq.
Qed.

(** Every block query that a run of calculate_distance_matrix issues
    carries between 1 and 25 origins and between 1 and 25 destinations,
    whatever the service answers and however the run ends. *)
Theorem queries_respect_batch_limit gm st pl w :
  exists new,
    queries (calculate_distance_matrix gm st pl w).2 = queries w ++ new /\
    Forall (fun q => 1 <= length q.1 <= 25 /\ 1 <= length q.2 <= 25) new.
Proof.
  unfold calculate_distance_matrix.
  pose proof (build_matrix_log gm BATCH_SIZE st pl w ltac:(unfold BATCH_SIZE; lia))
    as Hlog.
  destruct (build_matrix gm BATCH_SIZE st pl w) as [[m|] w'];
    destruct Hlog as (new & Hq & Hlim & _); exists new; done.
Qed.

(** A run of calculate_distance_matrix stops at the first query that
    raises: every query it issued before its last one was answered, and
    when the run returns a matrix the last one was answered too. *)
Theorem build_stops_at_first_failure gm st pl w :
  exists new,
    queries (calculate_distance_matrix gm st pl w).2 = queries w ++ new /\
    (forall k q, new !! k = Some q -> S k < length new ->
       is_Some (gm (length (queries w) + k) q.1 q.2)) /\
    (forall m, (calculate_distance_matrix gm st pl w).1 = Ok m ->
       forall k q, new !! k = Some q ->
         is_Some (gm (length (queries w) + k) q.1 q.2)).
Proof.
  unfold calculate_distance_matrix.
  pose proof (build_matrix_log gm BATCH_SIZE st pl w ltac:(unfold BATCH_SIZE; lia))
    as Hlog.
  assert (forall new : list (list coord * list coord),
            answered gm (length (queries w)) (removelast new) ->
            forall k q, new !! k = Some q -> S k < length new ->
              is_Some (gm (length (queries w) + k) q.1 q.2)) as Hlast.
  { intros new Hans k q Hk Hlt. apply Hans.
    destruct new as [|x new _] using rev_ind; [done|].
    rewrite removelast_last. rewrite length_app /= in Hlt.
    rewrite lookup_app_l in Hk; [lia|done]. }
  destruct (build_matrix gm BATCH_SIZE st pl w) as [[m|] w'];
    destruct Hlog as (new & Hq & _ & Hans); exists new; simpl.
  - split; [done|]. split; [|by intros _ _].
    intros k q Hk _. by apply Hans.
  - split; [done|]. split; [by apply Hlast|]. by intros m [=].
Qed.

(** When calculate_distance_matrix returns a matrix for a service that
    answers cell by cell, an off-diagonal cell whose answer has status OK
    holds the reported distance as the float64 array takes it in: the
    reported value itself when it is an integer of magnitude at most
    2^53, the nearest float64 number otherwise (2^53 + 1 is held as
    2^53). *)
Theorem reported_distance_is_stored cell st pl w m i j o d v :
  (calculate_distance_matrix (service_of_cells cell) st pl w).1 = Ok m ->
  locations_of st pl (heap w) !! i = Some o ->
  locations_of st pl (heap w) !! j = Some d ->
  i <> j ->
  status (cell o d) = Some "OK"%string -> distance_value (cell o d) = Some v ->
  exists x,
    float64 v = Some x /\ mget m i j = Some x /\
    (forall z : Z, v = inject_Z z -> (Z.abs z <= 2 ^ 53)%Z -> x = v) /\
    (v = inject_Z (2 ^ 53 + 1) -> x = inject_Z (2 ^ 53)).
Proof.
  intros [Hs Hm]%calculate_cells Hi Hj Hij Hst Hv.
  apply lookup_lt_Some in Hi as Hi', Hj as Hj'.
  rewrite length_locations_of in Hi', Hj'.
  destruct (mget_lt _ m i j Hs Hi' Hj') as [x Hx].
  assert (float64 v = Some x) as Hfloat.
  { by rewrite -Hx Hm // /expected decide_False // Hi Hj /= /cell_value Hst /= Hv. }
  exists x. split; [done|]. split; [done|]. split.
  - intros z -> Hz. rewrite float64_int // in Hfloat. by injection Hfloat.
  - intros ->. vm_compute in Hfloat. by injection Hfloat.
Qed.

Lemma reported_distance_is_stored_witness :
  mget [[0; 107; 207]; [107; 0; 307]; [207; 307; 0]]%Q 1 2 = Some 307%Q.
Proof.
  destruct (reported_distance_is_stored ex_cell ex_station [1; 2] ex_world
              [[0; 107; 207]; [107; 0; 307]; [207; 307; 0]]%Q 1 2
              (1, 0)%Q (2, 0)%Q 307%Q)
    as (x & _ & Hget & Hexact & _);
    [vm_compute; reflexivity|reflexivity|reflexivity|done|reflexivity|reflexivity|].
  rewrite Hget. f_equal. apply (Hexact 307%Z); [reflexivity|by vm_compute].
Defined.

(** With an empty list of places the only cell is the diagonal one:
    calculate_distance_matrix issues one query and returns [[0]] as soon
    as that query does not raise, whatever it answers (even a response
    without rows); it raises when the query raises. *)
Theorem build_without_places gm st w :
  let c := Station_to_tuple st in
  queries (calculate_distance_matrix gm st [] w).2 = queries w ++ [([c], [c])] /\
  (is_Some (gm (length (queries w)) [c] [c]) ->
   (calculate_distance_matrix gm st [] w).1 = Ok [[0%Q]]) /\
  (gm (length (queries w)) [c] [c] = None ->
   (calculate_distance_matrix gm st [] w).1 = Raise DistanceError).
Proof.
  intros c.
  rewrite /calculate_distance_matrix /build_matrix /BATCH_SIZE /= /bind
    /call_distance_matrix /lift /=.
  change (slice [Station_to_tuple st] 0 1) with [c].
  destruct (gm (length (queries w)) [c] [c]) as [res|]; simpl.
  - split; [done|]. split; [done|]. by intros [=].
  - split; [done|]. split; [by intros [??]|done].
Qed.

(** * Inputs on which optimize_route raises *)

Lemma objective_of_None n d :
  objective_of n d = None <-> exists i j, i < n /\ j < n /\ mget d i j = None.
Proof.
  unfold objective_of. fold (all_pairs n). rewrite mapM_None Exists_exists. split.
  - intros ([i j] & [Hi Hj]%elem_of_all_pairs & Hf). simpl in Hf.
    exists i, j. split; [done|]. split; [done|].
    by destruct (mget d i j).
  - intros (i & j & Hi & Hj & Hnone). exists (i, j).
    split; [by apply elem_of_all_pairs|]. by rewrite /= Hnone.
Qed.

(** A matrix with a row shorter than the number of rows makes
    optimize_route raise IndexError while it builds the objective, before
    any solver is consulted; with rows that are all long enough the model
    is built. *)
Theorem short_row_raises (d : matrix) :
  (Exists (fun row => length row < length d) d ->
   forall optimize st pl, optimize_route optimize st pl d = Raise IndexError) /\
  (Forall (fun row => length d <= length row) d -> is_Some (tsp_model d)).
Proof.
  split.
  - intros (row & [i Hi]%list_elem_of_lookup & Hshort)%Exists_exists optimize st pl.
    assert (tsp_model d = None) as Hmodel.
    { unfold tsp_model.
      destruct (objective_of (length d) d) as [obj|] eqn:Hobj; [exfalso|done].
      assert (objective_of (length d) d = None) as Hnone; [|congruence].
      apply objective_of_None. exists i, (length row).
      split; [by eapply lookup_lt_Some|]. split; [done|].
      rewrite /mget Hi /=. by apply lookup_ge_None. }
    by rewrite /optimize_route Hmodel.
  - intros Hall. unfold tsp_model.
    destruct (objective_of (length d) d) as [obj|] eqn:Hobj; [by eexists|].
    apply objective_of_None in Hobj as (i & j & Hi & Hj & Hnone). exfalso.
    destruct (lookup_lt_is_Some_2 d i Hi) as [row Hrow].
    rewrite Forall_forall in Hall.
    specialize (Hall row ltac:(apply list_elem_of_lookup; eauto)).
    rewrite /mget Hrow /= in Hnone. apply lookup_ge_None in Hnone. lia.
Qed.

(** On the empty matrix optimize_route never returns a route: it raises
    its optimization error when the solver's status is neither OPTIMAL
    nor FEASIBLE, and IndexError (reading distance_matrix[0][0]) when it
    is. *)
Theorem empty_matrix_raises optimize st pl :
  exists model,
    tsp_model [] = Some model /\
    (accepted (out_status (optimize model OPTIMIZATION_TIME_LIMIT)) ->
     optimize_route optimize st pl [] = Raise IndexError) /\
    (~ accepted (out_status (optimize model OPTIMIZATION_TIME_LIMIT)) ->
     optimize_route optimize st pl [] = Raise OptimizationFailed).
Proof.
  destruct (tsp_model []) as [model|] eqn:Hmodel; [|done].
  exists model. split; [done|]. split.
  - intros Hacc. rewrite /optimize_route Hmodel.
    assert (visit_order_of
              (out_x (optimize model OPTIMIZATION_TIME_LIMIT)) (length ([] : matrix))
            = Ok [0]) as Hvo.
    { by rewrite /visit_order_of /=. }
    destruct Hacc as [Hst|Hst]; by rewrite Hst Hvo.
  - intros Hno. by apply (optimize_route_failed optimize st pl [] model Hmodel).
Qed.

(** * The places of a route *)

Lemma visiting_tail a n l vo :
  visiting a n l vo -> length vo = n ->
  exists t, vo = 0 :: t /\ t ≡ₚ seq 1 (n - 1) /\ Forall (fun i => i <> 0) t.
Proof.
  intros Hvis Hlen. pose proof Hvis as [Hnd Hhd _ _ _].
  pose proof (visiting_all _ _ _ _ Hvis ltac:(lia)) as Hperm.
  destruct vo as [|x t]; [done|]. injection Hhd as ->. exists t.
  split; [done|]. simpl in Hlen. subst n. simpl in Hperm.
  replace (S (length t) - 1) with (length t) by lia.
  split; [by apply Permutation_cons_inv in Hperm|].
  apply NoDup_cons in Hnd as [H0 _]. apply Forall_forall. by intros i Hi ->.
Qed.

Lemma places_of_order (pl : list ref) t optimized :
  Forall (fun i => i <> 0) t ->
  mapM (fun i => py_get pl (Z.of_nat i - 1)) t = Some optimized ->
  optimized = (fun i => default 0 (pl !! (i - 1))) <$> t /\
  Forall (fun i => i - 1 < length pl) t.
Proof.
  intros Ht Hm%mapM_Some. induction Hm as [|i y t k Hy _ IH]; [done|].
  apply Forall_cons in Ht as [Hi Ht]. destruct (IH Ht) as [-> Hall].
  rewrite py_get_pred in Hy; [lia|]. rewrite fmap_cons Hy /=. split; [done|].
  apply Forall_cons. split; [by eapply lookup_lt_Some|done].
Qed.

Lemma assemble_places st pl d a n l vo r :
  assemble st pl d vo = Ok r -> visiting a n l vo -> length vo = n ->
  length (places r) = n - 1 /\
  (forall k, places r !! k = (i ← vo !! S k; pl !! (i - 1))) /\
  (S (length pl) = n -> places r ≡ₚ pl).
Proof.
  intros Hasm Hvis Hlen.
  destruct (visiting_tail _ _ l vo Hvis Hlen) as (t & -> & Hperm & Hnz).
  apply assemble_Ok in Hasm as (optimized & segs & Hopt & _ & ->). simpl in *.
  rewrite drop_0 in Hopt.
  destruct (places_of_order pl t optimized Hnz Hopt) as [-> Hbound].
  split; [|split].
  - rewrite length_fmap. lia.
  - intros k. rewrite list_lookup_fmap. change ((0 :: t) !! S k) with (t !! k).
    destruct (t !! k) as [i|] eqn:Hi; [|done].
    rewrite Forall_forall in Hbound.
    specialize (Hbound i ltac:(apply list_elem_of_lookup; eauto)).
    destruct (lookup_lt_is_Some_2 pl (i - 1) Hbound) as [y Hy].
    cbn [fmap option_fmap option_map mbind option_bind]. by rewrite Hy.
  - intros Hpl. rewrite Hperm.
    assert ((fun i => default 0 (pl !! (i - 1))) <$> seq 1 (n - 1) = pl)
      as ->; [|done].
    apply (list_eq_same_length _ _ (length pl)); [done| |].
    + rewrite length_fmap length_seq. lia.
    + intros k x y Hk Hx Hy.
      rewrite list_lookup_fmap lookup_seq_lt in Hx; [lia|].
      simpl in Hx. rewrite Nat.sub_0_r Hy /= in Hx. congruence.
Qed.

(** The places of a route returned by optimize_route are the given
    places read in visiting order: the k-th is places[visit_order[k+1]-1].
    When the list has one place per destination, the route holds every
    given place exactly as often as the list does (it is a permutation
    of the list). *)
Theorem route_places_are_the_places optimize st pl d r :
  optimize_route optimize st pl d = Ok r ->
  exists model vo,
    tsp_model d = Some model /\
    visit_order_of (out_x (optimize model OPTIMIZATION_TIME_LIMIT)) (length d)
      = Ok vo /\
    length (places r) = length d - 1 /\
    (forall k, places r !! k = (i ← vo !! S k; pl !! (i - 1))) /\
    (S (length pl) = length d -> places r ≡ₚ pl).
Proof.
  intros (model & vo & l & Hmodel & _ & Hvo & Hasm & Hvis & Hlen)%optimize_route_inv.
  exists model, vo. split; [done|]. split; [done|].
  by apply (assemble_places st pl d _ _ l vo r Hasm Hvis).
Qed.

Lemma route_places_are_the_places_witness :
  exists r,
    optimize_route (tour_solver [0; 2; 1]) ex_station [7; 8] ex_d3 = Ok r /\
    places r ≡ₚ [7; 8].
Proof.
  destruct (optimize_route (tour_solver [0; 2; 1]) ex_station [7; 8] ex_d3)
    as [r| |] eqn:Hrun; [|vm_compute in Hrun; discriminate Hrun..].
  destruct (route_places_are_the_places (tour_solver [0; 2; 1]) ex_station
              [7; 8] ex_d3 r Hrun) as (_ & _ & _ & _ & _ & _ & Hperm).
  exists r. split; [reflexivity|exact (Hperm eq_refl)].
Defined.

(** On a square matrix over n >= 1 locations, when the solver (honouring
    its contract) reports OPTIMAL or FEASIBLE, optimize_route raises
    IndexError exactly when fewer than n - 1 places are given, and
    returns a route otherwise. *)
Theorem too_few_places_raise optimize st pl d n model :
  shape n d -> 1 <= n ->
  tsp_model d = Some model ->
  solver_contract model (optimize model OPTIMIZATION_TIME_LIMIT) ->
  accepted (out_status (optimize model OPTIMIZATION_TIME_LIMIT)) ->
  (optimize_route optimize st pl d = Raise IndexError <-> length pl < n - 1) /\
  ((exists r, optimize_route optimize st pl d = Ok r) <-> n - 1 <= length pl).
Proof.
  intros Hs Hn Hmodel Hcontract Hacc.
  assert (length pl < n - 1 -> optimize_route optimize st pl d = Raise IndexError)
    as Hfew.
  { intros Hpl.
    pose proof (contract_feasible d model _ Hmodel Hcontract Hacc) as Hfeas.
    rewrite (proj1 Hs) in Hfeas.
    assert (0 < n) as Hpos by lia.
    destruct (visit_order_of_feasible n _ Hpos Hfeas)
      as (vo & l & Hvo & Hvis & Hlen).
    destruct (visiting_tail _ _ l vo Hvis Hlen) as (t & -> & Hperm & Hnz).
    assert (mapM (fun i => py_get pl (Z.of_nat i - 1)) (drop 1 (0 :: t)) = None)
      as Hnone.
    { apply mapM_None, Exists_exists. exists (n - 1). split.
      - rewrite /= drop_0 Hperm. apply elem_of_seq. lia.
      - rewrite py_get_pred; [lia|]. apply lookup_ge_None. lia. }
    rewrite /optimize_route Hmodel (proj1 Hs).
    destruct Hacc as [Hst|Hst]; by rewrite Hst Hvo /assemble Hnone. }
  assert (n - 1 <= length pl -> exists r, optimize_route optimize st pl d = Ok r)
    as Henough.
  { intros Hpl. by apply (optimize_route_accepted optimize st pl d n model). }
  split; split.
  - intros Hraise. destruct (decide (length pl < n - 1)) as [|Hge]; [done|].
    destruct Henough as [r Hr]; [lia|]. congruence.
  - done.
  - intros [r Hr]. destruct (decide (n - 1 <= length pl)) as [|Hlt]; [done|].
    rewrite Hfew in Hr; [lia|done].
  - done.
Qed.

Lemma too_few_places_raise_witness :
  optimize_route (tour_solver [0; 1; 2]) ex_station [1] ex_d3 = Raise IndexError.
Proof.
  destruct (tsp_model ex_d3) as [model|] eqn:Hmodel;
    [|vm_compute in Hmodel; discriminate Hmodel].
  apply (too_few_places_raise (tour_solver [0; 1; 2]) ex_station [1] ex_d3 3 model
           shape_ex_d3 ltac:(lia) Hmodel (ex_d3_contract model Hmodel)
           ltac:(by left)).
  simpl. lia.
Defined.

(** * From the matrix builder to the optimizer *)

(** The matrix that calculate_distance_matrix returns for a non-empty
    list of places can be handed to optimize_route with the same places:
    the model is built, and with a solver that honours its contract the
    call either returns a route that holds every place exactly once, with
    one reported segment per place, or raises its optimization error
    because of the solver's status; it never raises IndexError and always
    returns. *)
Theorem build_then_optimize gm optimize st pl w m :
  (calculate_distance_matrix gm st pl w).1 = Ok m -> pl <> [] ->
  exists model,
    tsp_model m = Some model /\
    (solver_contract model (optimize model OPTIMIZATION_TIME_LIMIT) ->
     (accepted (out_status (optimize model OPTIMIZATION_TIME_LIMIT)) ->
      exists r, optimize_route optimize st pl m = Ok r /\
                places r ≡ₚ pl /\
                length (segment_distances r) = length pl) /\
     (~ accepted (out_status (optimize model OPTIMIZATION_TIME_LIMIT)) ->
      optimize_route optimize st pl m = Raise OptimizationFailed)).
Proof.
  intros Hrun Hpl.
  assert (shape (S (length pl)) m) as Hs.
  { unfold calculate_distance_matrix in Hrun.
    pose proof (build_matrix_generic gm BATCH_SIZE st pl (heap w) w eq_refl) as Hb.
    destruct (build_matrix gm BATCH_SIZE st pl w) as [[m'|] w']; [|done].
    simpl in Hrun. injection Hrun as ->. apply Hb. }
  destruct (tsp_model_shape _ m Hs) as [model Hmodel].
  exists model. split; [done|]. intros Hcontract. split.
  - intros Hacc.
    destruct (optimize_route_accepted optimize st pl m (S (length pl)) model)
      as [r Hr]; [done|done|lia|simpl; lia|done|done|].
    exists r. split; [done|].
    apply optimize_route_inv in Hr
      as (model' & vo & l & _ & _ & _ & Hasm & Hvis & Hlen).
    destruct (assemble_places st pl m _ _ l vo r Hasm Hvis Hlen)
      as (_ & _ & Hperm).
    split; [apply Hperm; by rewrite (proj1 Hs)|].
    apply assemble_Ok in Hasm as (optimized & segs & _ & Hsegs & ->). simpl.
    apply segments_of_Some in Hsegs as (legs & l' & back & -> & _ & _ & Hlegs & _).
    rewrite length_app /= Nat.add_sub take_app_length Hlegs Hlen (proj1 Hs). lia.
  - by apply optimize_route_failed.
Qed.

Lemma build_then_optimize_witness :
  exists model,
    tsp_model [[0; 107; 207]; [107; 0; 307]; [207; 307; 0]]%Q = Some model.
Proof.
  destruct (build_then_optimize (service_of_cells ex_cell) (tour_solver [0; 1; 2])
              ex_station [1; 2] ex_world
              [[0; 107; 207]; [107; 0; 307]; [207; 307; 0]]%Q
              ltac:(vm_compute; reflexivity) ltac:(discriminate))
    as (model & Hmodel & _).
  exists model. exact Hmodel.
Defined.

(** * The route table of the page *)

Lemma sumQ_take_S (l : list Q) k x :
  l !! k = Some x ->
  (sumQ (fun x => x) (take (S k) l) == sumQ (fun x => x) (take k l) + x)%Q.
Proof.
  intros Hk. rewrite (take_S_r _ _ _ Hk) sumQ_app sumQ_cons sumQ_nil. lra.
Qed.

Lemma route_table_spec h r :
  length (places r) <= length (segment_distances r) ->
  exists rows, route_table h r = Some rows /\ table_of h r rows.
Proof.
  intros Hlen. unfold route_table.
  pose proof (for_each_spec
    (fun pre (st : Q * list table_row) =>
       length st.2 = length pre /\
       (st.1 == sumQ (fun x => x) (take (length pre) (segment_distances r)))%Q /\
       forall k row, st.2 !! k = Some row ->
         visit_no row = S k /\
         (exists place, places r !! k = Some place /\ shop_name row = name (h place)) /\
         segment_distances r !! k = Some (from_previous row) /\
         (cumulative row == sumQ (fun x => x) (take (S k) (segment_distances r)))%Q)
    False (enumerate 1 (places r))
    (fun p st =>
       segment_dist ← py_get (segment_distances r) (Z.of_nat p.1 - 1);
       let cumulative_distance := (st.1 + segment_dist)%Q in
       Some (cumulative_distance,
             st.2 ++ [ {| visit_no := p.1;
                          shop_name := name (h p.2);
                          from_previous := segment_dist;
                          cumulative := cumulative_distance |} ]))
    (0%Q, [])) as Hloop.
  match type of Hloop with _ -> _ -> ?G => assert G as Hres; [apply Hloop; clear Hloop|] end.
  - intros pre [i place] post [cum rows] Hl (Hrows & Hcum & Hall). simpl in *.
    assert (enumerate 1 (places r) !! length pre = Some (i, place)) as Hi.
    { rewrite Hl lookup_app_r // Nat.sub_diag //. }
    apply enumerate_lookup in Hi as [Hi Hplace]. simpl in Hi, Hplace. subst i.
    destruct (lookup_lt_is_Some_2 (segment_distances r) (length pre)) as [seg Hseg].
    { apply lookup_lt_Some in Hplace. lia. }
    rewrite (py_get_pred _ (1 + length pre)); [lia|].
    replace (1 + length pre - 1) with (length pre) by lia. rewrite Hseg /=.
    rewrite !length_app /= Hrows. split; [done|]. split.
    + replace (length pre + 1) with (S (length pre)) by lia.
      rewrite (sumQ_take_S _ _ _ Hseg) Hcum. lra.
    + intros k row [Hk|[Hk1 Hk2]]%lookup_app_Some; [by apply Hall|].
      apply list_lookup_singleton_Some in Hk2 as [Hk2 <-]. simpl.
      assert (k = length pre) as -> by lia.
      split; [done|]. split; [by exists place|]. split; [done|].
      rewrite (sumQ_take_S _ _ _ Hseg) Hcum. lra.
  - simpl. split; [done|]. split; [by rewrite take_0 sumQ_nil|]. by intros k row.
  - destruct (for_each _ _ (0%Q, [])) as [[cum rows]|]; [|done]. simpl in *.
    destruct Hres as (Hrows & _ & Hall). exists rows. split; [done|].
    split; [|done]. by rewrite Hrows /enumerate length_zip_with length_seq Nat.min_id.
Qed.

(** For a route returned by optimize_route the table is built without an
    index error: it has one row per place, numbered from 1, each with the
    segment walked to reach the place and the sum of the segments so far;
    the distance of the last row plus the leg back to the station, the
    cell distance_matrix[l][0] for the last location l of the visiting
    order, is the total distance of the route. *)
Theorem route_table_of_route optimize st pl d r h :
  optimize_route optimize st pl d = Ok r ->
  exists model vo l back rows,
    tsp_model d = Some model /\
    visit_order_of (out_x (optimize model OPTIMIZATION_TIME_LIMIT)) (length d)
      = Ok vo /\
    last vo = Some l /\ mget d l 0 = Some back /\
    route_table h r = Some rows /\ table_of h r rows /\
    length rows = length d - 1 /\
    (forall row, last rows = Some row ->
       (total_distance r == cumulative row + back)%Q) /\
    (rows = [] -> (total_distance r == back)%Q).
Proof.
  intros (model & vo & l & Hmodel & _ & Hvo & Hasm & Hvis & Hlen)%optimize_route_inv.
  destruct (assemble_places st pl d _ _ l vo r Hasm Hvis Hlen) as (Hplaces & _).
  apply assemble_Ok in Hasm as (optimized & segs & _ & Hsegs & ->). simpl in *.
  apply segments_of_Some in Hsegs
    as (legs & l' & back & -> & Hlast & Hback & Hlegs & _).
  set (r := {| station := st; places := optimized;
               total_distance := py_sum (legs ++ [back]);
               segment_distances :=
                 take (length (legs ++ [back]) - 1) (legs ++ [back]) |}).
  assert (segment_distances r = legs) as Hseg.
  { rewrite /r /= length_app /= Nat.add_sub. by rewrite take_app_length. }
  destruct (route_table_spec h r) as (rows & Htable & Hrows).
  { rewrite Hseg /r /=. lia. }
  exists model, vo, l', back, rows.
  split; [done|]. split; [done|]. split; [done|]. split; [done|].
  split; [done|]. split; [done|].
  destruct Hrows as [Hlenrows Hall]. split; [by rewrite Hlenrows|]. split.
  - intros row Hrow. rewrite last_lookup in Hrow.
    destruct (Hall _ _ Hrow) as (_ & _ & _ & Hcum).
    rewrite Hcum Hseg /r /= py_sum_sumQ sumQ_app sumQ_cons sumQ_nil.
    rewrite take_ge; [|lra].
    apply lookup_lt_Some in Hrow. rewrite /r /= in Hlenrows. lia.
  - intros ->. rewrite /r /= in Hlenrows. simpl in Hlenrows.
    assert (legs = []) as -> by (destruct legs; [done|simpl in *; lia]).
    rewrite /r /= py_sum_sumQ sumQ_cons sumQ_nil. lra.
Qed.

Lemma route_table_of_route_witness :
  exists r rows,
    optimize_route (tour_solver [0; 1; 2]) ex_station [1; 2] ex_d3 = Ok r /\
    route_table ex_store r = Some rows /\ length rows = 2.
Proof.
  destruct (optimize_route (tour_solver [0; 1; 2]) ex_station [1; 2] ex_d3)
    as [r| |] eqn:Hrun; [|vm_compute in Hrun; discriminate Hrun..].
  destruct (route_table_of_route (tour_solver [0; 1; 2]) ex_station [1; 2] ex_d3
              r ex_store Hrun)
    as (model & vo & l & back & rows & _ & _ & _ & _ & Htable & _ & Hlen & _).
  exists r, rows. split; [reflexivity|]. split; [exact Htable|exact Hlen].
Defined.

(** * The rotated tour *)

Lemma index_of_elem x l : x ∈ l -> l !! index_of x l = Some x.
Proof.
  induction l as [|y l IH]; [by intros ?%elem_of_nil|].
  intros Hx. simpl. case_decide as Hxy; [by subst|].
  apply IH. by apply elem_of_cons in Hx as [|].
Qed.

Lemma zip_app_longer {A B} (l e : list A) (k : list B) :
  length k <= length l -> zip (l ++ e) k = zip l k.
Proof.
  revert k. induction l as [|x l IH]; intros [|y k] Hlen; simpl in *;
    try done; try lia.
  - by destruct e.
  - f_equal. apply IH. lia.
Qed.

Lemma path_cost_closed d q x :
  head q = Some x -> path_cost d (q ++ [x]) = cycle_cost d q.
Proof.
  intros Hhd. destruct q as [|y q]; [done|]. injection Hhd as ->.
  rewrite /path_cost /cycle_cost /arcs /successors. f_equal.
  change (drop 1 ((x :: q) ++ [x])) with (q ++ [x]).
  change (drop 1 (x :: q) ++ take 1 (x :: q)) with (q ++ [x]).
  apply zip_app_longer. rewrite length_app /=. lia.
Qed.

(** For a permutation of 0 .. n-1 the rotation succeeds: the visiting
    order starts and ends at the station 0, passes the n locations in the
    cyclic order of the permutation, and the distances along it add up
    to the cost of the permutation's cycle. *)
Theorem rotation_keeps_the_tour d n permutation :
  0 < n -> permutation ≡ₚ seq 0 n ->
  exists visit_order,
    rotate_to_station permutation = Some (visit_order ++ [0]) /\
    head visit_order = Some 0 /\
    visit_order ≡ₚ seq 0 n /\
    arcs visit_order ≡ₚ arcs permutation /\
    (path_cost d (visit_order ++ [0%nat]) == cycle_cost d permutation)%Q.
Proof.
  intros Hn Hperm. assert (0 ∈ permutation) as H0.
  { rewrite Hperm. apply elem_of_seq. lia. }
  unfold rotate_to_station, py_index. rewrite decide_True //=.
  set (k := index_of 0 permutation).
  exists (drop k permutation ++ take k permutation). split; [done|].
  assert (arcs (drop k permutation ++ take k permutation) ≡ₚ arcs permutation)
    as Harcs.
  { by rewrite arcs_rotate_app take_drop. }
  assert (head (drop k permutation ++ take k permutation) = Some 0) as Hhd.
  { pose proof (index_of_elem 0 permutation H0) as Hk. fold k in Hk.
    rewrite head_lookup lookup_app_l.
    - rewrite length_drop. apply lookup_lt_Some in Hk. lia.
    - by rewrite lookup_drop Nat.add_0_r. }
  split; [done|]. split; [by rewrite Permutation_app_comm take_drop|].
  split; [done|].
  by rewrite (path_cost_closed d _ 0 Hhd) /cycle_cost (sumQ_perm _ _ _ Harcs).
Qed.

Lemma rotation_keeps_the_tour_witness :
  rotate_to_station [2; 0; 1] = Some ([0; 1; 2] ++ [0]) /\
  (path_cost ex_d3 [0; 1; 2; 0]%nat == cycle_cost ex_d3 [2; 0; 1]%nat)%Q.
Proof.
  destruct (rotation_keeps_the_tour ex_d3 3 [2; 0; 1] ltac:(lia))
    as (vo & Hrot & _ & _ & _ & Hcost).
  { by apply (Permutation_app_comm [2] [0; 1]). }
  assert (vo = [0; 1; 2]) as ->.
  { vm_compute in Hrot. injection Hrot as Hvo. apply (app_inj_tail_iff vo [0;1;2] 0 0).
    symmetry. exact Hvo. }
  split; [reflexivity|exact Hcost].
Defined.

(** * The link to the map *)

Lemma coord_str_nonempty float_str l : coord_str float_str l <> EmptyString.
Proof. unfold coord_str. by destruct (float_str (lat l)). Qed.

Lemma str_join_nonempty sep l :
  l <> [] -> Forall (fun x => x <> EmptyString) l -> str_join sep l <> EmptyString.
Proof.
  destruct l as [|x [|y l]]; [done| |].
  - by intros _ [Hx _]%Forall_cons.
  - intros _ [Hx _]%Forall_cons. simpl. by destruct x.
Qed.

(** The link of an optimized route is a round trip: origin and
    destination are the station and every stop of the route is a
    waypoint, in order, whatever list of places is passed along; an empty
    route order counts as none. Without a route order the last place is
    the destination and the places before it are the waypoints; with a
    single place, or none, the link has no waypoints parameter, and with
    none the destination is the station. *)
Theorem maps_url_cases float_str h st pl :
  let o := coord_str float_str (station_location st) in
  let cs := fun p : ref => coord_str float_str (location (h p)) in
  let url := generate_google_maps_url float_str h st pl in
  (forall p ro,
     url (Some (p :: ro)) =
     ("https://www.google.com/maps/dir/?api=1&origin=" ++ o ++ "&destination=" ++ o
      ++ "&waypoints=" ++ str_join "|" (cs <$> p :: ro)
      ++ "&travelmode=walking")%string) /\
  url (Some []) = url None /\
  (pl = [] ->
   url None =
   ("https://www.google.com/maps/dir/?api=1&origin=" ++ o ++ "&destination=" ++ o
    ++ "&travelmode=walking")%string) /\
  (forall p, pl = [p] ->
   url None =
   ("https://www.google.com/maps/dir/?api=1&origin=" ++ o ++ "&destination=" ++ cs p
    ++ "&travelmode=walking")%string) /\
  (forall front p, front <> [] -> pl = front ++ [p] ->
   url None =
   ("https://www.google.com/maps/dir/?api=1&origin=" ++ o ++ "&destination=" ++ cs p
    ++ "&waypoints=" ++ str_join "|" (cs <$> front)
    ++ "&travelmode=walking")%string).
Proof.
  intros o cs url. subst url. unfold generate_google_maps_url.
  fold o. change (fun p0 : ref => coord_str float_str (location (h p0))) with cs.
  assert (Hcs : forall l, l <> [] -> str_join "|" (cs <$> l) <> EmptyString).
  { intros l Hl. apply str_join_nonempty; [by destruct l|].
    apply Forall_fmap, Forall_forall. intros x _. apply coord_str_nonempty. }
  split; [|split; [done|split; [by intros ->|split]]].
  - intros p ro. specialize (Hcs (p :: ro)).
    destruct (str_join "|" (cs <$> p :: ro)) as [|c s]; [by destruct Hcs|done].
  - by intros p ->.
  - intros front p Hfront ->. rewrite last_snoc removelast_last.
    specialize (Hcs front Hfront).
    destruct (str_join "|" (cs <$> front)) as [|c s]; [by destruct Hcs|done].
Qed.

(** * The place search *)

Lemma py_take_nonneg {A} (l : list A) k :
  (0 <= k)%Z -> py_take l k = take (Z.to_nat k) l.
Proof. intros Hk. unfold py_take. by rewrite decide_True. Qed.

Lemma make_place_fields pd p :
  make_place pd = Some p ->
  pd_location pd = Some (Some (lat (location p)), Some (lng (location p))) /\
  pd_place_id pd = Some (place_id p) /\
  pd_name pd = Some (name p) /\
  address p = default NO_ADDRESS (pd_vicinity pd) /\
  distance_from_station p = None.
Proof.
  unfold make_place.
  destruct (pd_location pd) as [[[la|] [ln|]]|]; simpl; try done.
  destruct (pd_place_id pd) as [id|]; simpl; [|done].
  destruct (pd_name pd) as [nm|]; simpl; [|done].
  by intros [= <-].
Qed.

(** Of a non-empty answer the search keeps the first max_results entries
    (all of them when there are fewer), in the order of the answer; it
    succeeds exactly when each of those entries has its coordinates, its
    id and its name. Place number i carries the id, name and coordinates
    of entry number i, the vicinity as address, or the default text when
    the entry has none, and no distance yet. Entries behind the cut are
    never read: a malformed one does no harm, and two answers that agree
    up to the cut give the same places. With max_results = 0 the result
    is the empty list, not an error. *)
Theorem search_keeps_the_first_results gm st keyword max_results results :
  gm (Station_to_tuple st) keyword = Some (Some results) ->
  results <> [] ->
  (0 <= max_results)%Z ->
  let kept := take (Z.to_nat max_results) results in
  (is_Some (search_nearby_places gm st keyword max_results) <->
   Forall (fun pd => is_Some (make_place pd)) kept) /\
  (forall places,
     search_nearby_places gm st keyword max_results = Some places ->
     length places = Z.to_nat max_results `min` length results /\
     forall i p, places !! i = Some p ->
       exists pd, results !! i = Some pd /\
         pd_location pd = Some (Some (lat (location p)), Some (lng (location p))) /\
         pd_place_id pd = Some (place_id p) /\
         pd_name pd = Some (name p) /\
         address p = default NO_ADDRESS (pd_vicinity pd) /\
         distance_from_station p = None) /\
  (forall gm' results',
     gm' (Station_to_tuple st) keyword = Some (Some results') ->
     results' <> [] ->
     take (Z.to_nat max_results) results' = kept ->
     search_nearby_places gm' st keyword max_results =
     search_nearby_places gm st keyword max_results) /\
  (max_results = 0%Z -> search_nearby_places gm st keyword max_results = Some []).
Proof.
  intros Hgm Hne Hk kept.
  assert (Hs : search_nearby_places gm st keyword max_results = mapM make_place kept).
  { unfold search_nearby_places. rewrite Hgm /=.
    rewrite decide_False; [done|]. by rewrite py_take_nonneg. }
  split; [|split; [|split]].
  - rewrite Hs. split.
    + intros [places Hm%mapM_Some]. apply Forall_forall. intros pd Hpd.
      apply list_elem_of_lookup in Hpd as [i Hi].
      destruct (Forall2_lookup_l _ _ _ _ _ Hm Hi) as (p & _ & Hp). eauto.
    + intros Hall. apply mapM_is_Some. done.
  - intros places Hplaces. rewrite Hs in Hplaces. split.
    + rewrite (mapM_Some_length _ _ _ Hplaces) /kept length_take. done.
    + intros i p Hp.
      destruct (mapM_lookup_Some _ _ _ _ _ Hplaces Hp) as (pd & Hpd & Hmk).
      exists pd. split; [|by apply make_place_fields].
      apply lookup_take_Some in Hpd. tauto.
  - intros gm' results' Hgm' Hne' Htake. rewrite Hs.
    unfold search_nearby_places. rewrite Hgm' /=.
    rewrite decide_False; [done|]. by rewrite py_take_nonneg // Htake.
  - intros ->. by rewrite Hs.
Qed.

Lemma search_keeps_the_first_results_witness :
  exists places,
    search_nearby_places ex_places_service ex_station "ramen" 2%Z = Some places /\
    length places = 2.
Proof.
  destruct (search_keeps_the_first_results ex_places_service ex_station "ramen" 2%Z
              [ex_shop "a" (Some "x"%string); ex_shop "b" None; ex_broken_shop]
              eq_refl ltac:(done) ltac:(lia)) as (Hsome & Hfields & _).
  destruct (proj2 Hsome) as [places Hplaces].
  { repeat constructor; vm_compute; eauto. }
  exists places. split; [done|]. by destruct (Hfields places Hplaces) as [-> _].
Defined.

(** A search that returns, asked for at least one result, never returns
    the empty list: an answer without results raises instead. So the
    list of places that the page hands to calculate_distance_matrix and
    optimize_route is not empty. *)
Theorem search_never_returns_nothing gm st keyword max_results places :
  search_nearby_places gm st keyword max_results = Some places ->
  (1 <= max_results)%Z ->
  places <> [] /\ length places <= Z.to_nat max_results.
Proof.
  unfold search_nearby_places. intros Hrun Hk.
  destruct (gm (Station_to_tuple st) keyword) as [[results|]|]; simpl in Hrun;
    [|done..].
  case_decide as Hne; [done|].
  rewrite py_take_nonneg in Hrun; [lia|].
  apply mapM_Some_length in Hrun. rewrite length_take in Hrun.
  split; [|lia]. destruct results; [done|]. destruct places; [|done].
  simpl in Hrun. lia.
Qed.

Lemma search_never_returns_nothing_witness :
  exists places,
    search_nearby_places ex_places_service ex_station "ramen" 1%Z = Some places /\
    places <> [].
Proof.
  destruct (search_nearby_places ex_places_service ex_station "ramen" 1%Z)
    as [places|] eqn:Hrun; [|vm_compute in Hrun; discriminate Hrun].
  exists places. split; [reflexivity|].
  exact (proj1 (search_never_returns_nothing ex_places_service ex_station "ramen"
                  1%Z places Hrun ltac:(lia))).
Defined.

(** * What the builder leaves alone *)

Lemma annotate_frame m (pl : list ref) h0 :
  triple (fun w => heap w = h0)
    (for_eachM (enumerate 1 pl) (annotate m) tt)
    (fun _ w => only_distances_written pl h0 (heap w))
    (fun w => only_distances_written pl h0 (heap w)).
Proof.
  assert (Hsnd : (enumerate 1 pl).*2 = pl).
  { rewrite /enumerate. apply snd_zip. by rewrite length_seq. }
  eapply triple_weaken;
    [apply (triple_for_eachM
              (fun pre _ w => only_distances_written pre.*2 h0 (heap w))
              (fun w => only_distances_written pl h0 (heap w)))
    | | | by intros].
  - intros pre [idx r] post [] Hl w Hinv. unfold annotate.
    destruct (mget m 0 idx) as [v|]; simpl.
    + intros r'. destruct (Hinv r') as (Hid & Hname & Haddr & Hloc & Hout).
      rewrite /set_distance_from_station.
      destruct (Nat.eqb_spec r' r) as [->|Hne]; simpl.
      * do 4 (split; [done|]). intros Hr. exfalso. apply Hr.
        rewrite fmap_app /=. apply elem_of_app. right. by left.
      * do 4 (split; [done|]). intros Hr. apply Hout. intros Hin. apply Hr.
        rewrite fmap_app. apply elem_of_app. by left.
    + intros r'. destruct (Hinv r') as (Hid & Hname & Haddr & Hloc & Hout).
      do 4 (split; [done|]). intros Hr. apply Hout. intros Hin. apply Hr.
      rewrite -Hsnd Hl fmap_app. apply elem_of_app. by left.
  - intros w Hw r. by rewrite Hw.
  - intros [] w Hinv. by rewrite Hsnd in Hinv.
Qed.

(** Whatever the service answers and however the call ends,
    calculate_distance_matrix writes nothing but distance_from_station
    fields of the given places: every Place object keeps its id, name,
    address and location, and an object that is not in the list is left
    as it was. *)
Theorem build_writes_only_distances gm st pl w :
  only_distances_written pl (heap w)
    (heap (calculate_distance_matrix gm st pl w).2).
Proof.
  unfold calculate_distance_matrix. rewrite build_matrix_unfold.
  case_decide; [by intros r|]. rewrite /bind.
  pose proof (block_loops_diag gm BATCH_SIZE (locations_of st pl (heap w))
                (heap w) w eq_refl) as Hloops.
  destruct (block_loops _ _ _ w) as [[m|] w1]; simpl.
  - destruct Hloops as [_ Hh1].
    pose proof (annotate_frame m pl (heap w) w1 Hh1) as Hann.
    by destruct (for_eachM _ (annotate m) tt w1) as [[[]|] w2].
  - intros r. simpl in Hloops. by rewrite Hloops.
Qed.
